(** * scripts/e2e_hooks_cli.go: the stub Responses server, the hook-call
    collector and the hook-sequence validator.

    Go strings are byte strings: they are [string] (a list of [ascii]
    bytes).  Go's [int] is the 64-bit integer; it is a [Z] and the places
    where the range matters ([strconv.Atoi]) check it explicitly. *)

From Stdlib Require Import ZArith Lia Ascii String Bool.
From stdpp Require Import base tactics option list sorting strings gmap.

Local Open Scope Z_scope.
Local Set Warnings "-register-all".

(** ** Bytes and strings *)

Definition byte_of (c : ascii) : Z := Z.of_N (N_of_ascii c).
Definition ascii_of (z : Z) : ascii := ascii_of_N (Z.to_N z).

Definition nl : string := String "010"%char EmptyString.
Definition dq : string := String "034"%char EmptyString.

(** [strings.HasSuffix] and [strings.TrimSuffix]. *)
Fixpoint string_rev_app (s acc : string) : string :=
  match s with
  | EmptyString => acc
  | String c r => string_rev_app r (String c acc)
  end.
Definition string_rev (s : string) : string := string_rev_app s EmptyString.

Definition HasPrefix (s pre : string) : bool := String.prefix pre s.
Definition HasSuffix (s suf : string) : bool :=
  String.prefix (string_rev suf) (string_rev s).
Definition TrimSuffix (s suf : string) : string :=
  if HasSuffix s suf
  then String.substring 0 (String.length s - String.length suf) s
  else s.

(** ** Results and errors *)

(** The [error] values the collector produces or passes on. *)
Inductive error : Type :=
  | ErrReadDir (dir : string)
      (* os.ReadDir failed *)
  | ErrReadFile (path : string)
      (* os.ReadFile failed *)
  | ErrParseHookRecord (path : string)
      (* fmt.Errorf("parse hook record %s: %w", path, err); the wrapped
         error of encoding/json is not kept *)
  | ErrTimedOut (wantAtLeast : Z) (dir : string) (found : Z).
      (* fmt.Errorf("timed out waiting for %d hook calls in %s (found %d)") *)

Inductive result (A : Type) : Type :=
  | Ok (a : A)
  | Err (e : error).
Arguments Ok {A} a.
Arguments Err {A} e.

(** ** strconv.Itoa and strconv.Atoi *)

Definition digit_char (d : Z) : ascii := ascii_of (48 + d).
Definition is_digit (c : ascii) : bool :=
  (48 <=? byte_of c) && (byte_of c <=? 57).
Definition digit_val (c : ascii) : Z := byte_of c - 48.

(** The decimal digits of [n >= 0], most significant first. *)
Fixpoint format_digits (fuel : nat) (n : Z) (acc : string) : string :=
  let acc' := String (digit_char (n mod 10)) acc in
  match fuel with
  | O => acc'
  | S f => if n <? 10 then acc' else format_digits f (n / 10) acc'
  end.
Definition FormatUint (n : Z) : string :=
  format_digits (Z.to_nat (Z.log2 n)) n EmptyString.

Definition Itoa (n : Z) : string :=
  if n <? 0 then String "-"%char (FormatUint (- n)) else FormatUint n.

Definition minInt : Z := - 2 ^ 63.
Definition maxInt : Z := 2 ^ 63 - 1.

(** Horner evaluation of a run of decimal digits; [None] on any other
    byte (strconv.ErrSyntax). *)
Fixpoint parse_digits (s : string) (acc : Z) : option Z :=
  match s with
  | EmptyString => Some acc
  | String c r =>
      if is_digit c then parse_digits r (acc * 10 + digit_val c) else None
  end.

(** The sign of a numeral and what follows it. *)
Definition split_sign (s : string) : bool * string :=
  match s with
  | String c r =>
      if Ascii.eqb c "-"%char then (true, r)
      else if Ascii.eqb c "+"%char then (false, r)
      else (false, s)
  | EmptyString => (false, s)
  end.

(** [strconv.Atoi]: an optional sign, then at least one decimal digit,
    and a value in the range of [int]; [None] is a non-nil error. *)
Definition Atoi (s : string) : option Z :=
  let '(neg, body) := split_sign s in
  match body with
  | EmptyString => None
  | _ =>
      match parse_digits body 0 with
      | None => None
      | Some v =>
          let n := if neg then - v else v in
          if (minInt <=? n) && (n <=? maxInt) then Some n else None
      end
  end.

(** [filepath.Ext]: the suffix starting at the last dot of the final path
    element, empty when that element has no dot. *)
Fixpoint ext_scan (s : string) (cur : option string) : option string :=
  match s with
  | EmptyString => cur
  | String c r =>
      if Ascii.eqb c "/"%char then ext_scan r None
      else if Ascii.eqb c "."%char then ext_scan r (Some s)
      else ext_scan r cur
  end.
Definition Ext (path : string) : string :=
  match ext_scan path None with
  | Some e => e
  | None => EmptyString
  end.

(** ** encoding/json

    The values the program marshals and decodes.  A Go [map[string]any]
    is [JObject kvs] with [kvs] a list of distinct keys (its order is
    immaterial: [marshal] sorts by key, as encoding/json does); [nil] is
    [JNull], an [int] is [JInt], a slice is [JArray].  A number written
    with a fraction or an exponent is kept as its literal ([JFloat]):
    float64 arithmetic is outside the embedding.

    Strings are sequences of bytes, as Go strings are.  Writing, the
    library replaces what is no UTF-8 by the escape of U+FFFD and escapes
    U+2028 and U+2029 ([escape]); reading, it replaces what is no UTF-8 by
    U+FFFD ([to_valid_utf8]), refuses a text nested deeper than 10000 levels
    ([parse]), and reads a number into an [any] as a float64 ([as_any]:
    an integer literal is rounded to 53 bits, and dropped when it
    overflows). *)
Module Json.

Inductive value : Type :=
  | JNull
  | JBool (b : bool)
  | JInt (n : Z)
  | JFloat (lit : string)
  | JString (s : string)
  | JArray (elems : list value)
  | JObject (kvs : list (string * value)).

Definition hex_digit (d : Z) : ascii :=
  if d <? 10 then ascii_of (48 + d) else ascii_of (87 + d).

(** *** UTF-8, as unicode/utf8 decodes it *)

Definition byte_at (i : nat) (s : string) : Z :=
  match String.get i s with
  | Some c => byte_of c
  | None => -1
  end.

Definition continuation (b : Z) : bool := (128 <=? b) && (b <=? 191).

(** [utf8.DecodeRuneInString] on [s]: the number of bytes of the rune at
    its start, which is 1 for an ASCII byte and 2, 3 or 4 for a well-formed
    encoding (shortest form, no surrogate, at most U+10FFFF), and 0 where
    the library returns [RuneError] with the width 1. *)
Definition rune_len (s : string) : nat :=
  let b0 := byte_at 0 s in
  let b1 := byte_at 1 s in
  let b2 := byte_at 2 s in
  let b3 := byte_at 3 s in
  if b0 <? 0 then 0%nat
  else if b0 <? 128 then 1%nat
  else if (194 <=? b0) && (b0 <=? 223) then
    if continuation b1 then 2%nat else 0%nat
  else if b0 =? 224 then
    if (160 <=? b1) && (b1 <=? 191) && continuation b2 then 3%nat else 0%nat
  else if b0 =? 237 then
    if (128 <=? b1) && (b1 <=? 159) && continuation b2 then 3%nat else 0%nat
  else if (225 <=? b0) && (b0 <=? 239) then
    if continuation b1 && continuation b2 then 3%nat else 0%nat
  else if b0 =? 240 then
    if (144 <=? b1) && (b1 <=? 191) && continuation b2 && continuation b3
    then 4%nat else 0%nat
  else if (241 <=? b0) && (b0 <=? 243) then
    if continuation b1 && continuation b2 && continuation b3
    then 4%nat else 0%nat
  else if b0 =? 244 then
    if (128 <=? b1) && (b1 <=? 143) && continuation b2 && continuation b3
    then 4%nat else 0%nat
  else 0%nat.

(** U+FFFD in UTF-8. *)
Definition replacement : string :=
  String (ascii_of 239) (String (ascii_of 191) (String (ascii_of 189) EmptyString)).

(** The string with every byte that is not part of a well-formed encoding
    replaced by U+FFFD; [pending] bytes of a rune already met are still to
    be copied. *)
Fixpoint to_valid_from (pending : nat) (s : string) : string :=
  match s with
  | EmptyString => EmptyString
  | String c r =>
      match pending with
      | S k => String c (to_valid_from k r)
      | O =>
          match rune_len s with
          | O => replacement +:+ to_valid_from 0 r
          | S k => String c (to_valid_from k r)
          end
      end
  end.
Definition to_valid_utf8 (s : string) : string := to_valid_from 0 s.

(** One ASCII byte of a string as encoding/json writes it (HTML escaping
    on, the default of [json.Marshal]; the short escapes of backspace and
    form feed are those of Go 1.22 and later). *)
Definition escape_byte (c : ascii) : string :=
  let b := byte_of c in
  if (b =? 34) || (b =? 92) then String "\"%char (String c EmptyString)
  else if b =? 8 then "\b"
  else if b =? 12 then "\f"
  else if b =? 10 then "\n"
  else if b =? 13 then "\r"
  else if b =? 9 then "\t"
  else if (b <? 32) || (b =? 60) || (b =? 62) || (b =? 38) then
    "\u00" +:+ String (hex_digit (b / 16)) (String (hex_digit (b mod 16)) EmptyString)
  else String c EmptyString.

(** The escape the library writes for U+2028 and for U+2029, when [s]
    starts with one of them. *)
Definition line_separator (s : string) : option string :=
  if (byte_at 0 s =? 226) && (byte_at 1 s =? 128) then
    if byte_at 2 s =? 168 then Some "\u2028"
    else if byte_at 2 s =? 169 then Some "\u2029"
    else None
  else None.

(** The bytes of a string between its quotes.  An ASCII byte is written
    by [escape_byte]; a well-formed rune is copied, U+2028 and U+2029
    apart, which are escaped; any other byte is written as the escape of
    U+FFFD.  [pending] bytes of a rune already met are still to be passed,
    copied or not. *)
Fixpoint escape_from (copy : bool) (pending : nat) (s : string) : string :=
  match s with
  | EmptyString => EmptyString
  | String c r =>
      match pending with
      | S k =>
          if copy then String c (escape_from copy k r) else escape_from copy k r
      | O =>
          if byte_of c <? 128 then escape_byte c +:+ escape_from true 0 r
          else
            match rune_len s with
            | O => "\ufffd" +:+ escape_from true 0 r
            | S k =>
                match line_separator s with
                | Some esc => esc +:+ escape_from false k r
                | None => String c (escape_from true k r)
                end
            end
      end
  end.
Definition escape (s : string) : string := escape_from true 0 s.

Definition quote (s : string) : string := dq +:+ escape s +:+ dq.

Fixpoint join (sep : string) (l : list string) : string :=
  match l with
  | [] => EmptyString
  | [x] => x
  | x :: r => x +:+ sep +:+ join sep r
  end.

(** Map keys are written in increasing byte order. *)
Fixpoint insert_key {A} (k : string) (x : A) (l : list (string * A))
  : list (string * A) :=
  match l with
  | [] => [(k, x)]
  | (k', x') :: r =>
      if String.leb k k' then (k, x) :: l else (k', x') :: insert_key k x r
  end.
Fixpoint sort_keys {A} (l : list (string * A)) : list (string * A) :=
  match l with
  | [] => []
  | (k, x) :: r => insert_key k x (sort_keys r)
  end.

Fixpoint marshal (v : value) : string :=
  match v with
  | JNull => "null"
  | JBool true => "true"
  | JBool false => "false"
  | JInt n => Itoa n
  | JFloat lit => lit
  | JString s => quote s
  | JArray elems =>
      "[" +:+ join "," ((fix go (l : list value) : list string :=
                           match l with
                           | [] => []
                           | x :: r => marshal x :: go r
                           end) elems) +:+ "]"
  | JObject kvs =>
      let fields :=
        (fix go (l : list (string * value)) : list (string * string) :=
           match l with
           | [] => []
           | (k, x) :: r => (k, marshal x) :: go r
           end) kvs in
      "{" +:+ join "," (map (fun '(k, s) => quote k +:+ ":" +:+ s)
                            (sort_keys fields)) +:+ "}"
  end.

(** *** Reading JSON text (RFC 8259) *)

Definition is_ws (c : ascii) : bool :=
  let b := byte_of c in (b =? 32) || (b =? 9) || (b =? 10) || (b =? 13).

Fixpoint skip_ws (s : string) : string :=
  match s with
  | String c r => if is_ws c then skip_ws r else s
  | EmptyString => s
  end.

Definition hex_val (c : ascii) : option Z :=
  let b := byte_of c in
  if (48 <=? b) && (b <=? 57) then Some (b - 48)
  else if (97 <=? b) && (b <=? 102) then Some (b - 87)
  else if (65 <=? b) && (b <=? 70) then Some (b - 55)
  else None.

Definition hex4 (s : string) : option (Z * string) :=
  match s with
  | String a (String b (String c (String d r))) =>
      match hex_val a, hex_val b, hex_val c, hex_val d with
      | Some x, Some y, Some z, Some w =>
          Some (((x * 16 + y) * 16 + z) * 16 + w, r)
      | _, _, _, _ => None
      end
  | _ => None
  end.

(** UTF-8 encoding of a code point. *)
Definition utf8 (cp : Z) : string :=
  if cp <? 128 then String (ascii_of cp) EmptyString
  else if cp <? 2048 then
    String (ascii_of (192 + cp / 64)) (String (ascii_of (128 + cp mod 64)) EmptyString)
  else if cp <? 65536 then
    String (ascii_of (224 + cp / 4096))
      (String (ascii_of (128 + (cp / 64) mod 64))
         (String (ascii_of (128 + cp mod 64)) EmptyString))
  else
    String (ascii_of (240 + cp / 262144))
      (String (ascii_of (128 + (cp / 4096) mod 64))
         (String (ascii_of (128 + (cp / 64) mod 64))
            (String (ascii_of (128 + cp mod 64)) EmptyString))).

Definition is_high_surrogate (cp : Z) : bool := (55296 <=? cp) && (cp <? 56320).
Definition is_low_surrogate (cp : Z) : bool := (56320 <=? cp) && (cp <? 57344).

(** The code point of a [\u] escape whose four digits gave [cp], and the
    rest of the input: a surrogate pair combines, a lone surrogate reads as
    U+FFFD. *)
Definition unescape_u (cp : Z) (rest : string) : Z * string :=
  if is_high_surrogate cp then
    match rest with
    | String "\"%char (String "u"%char r) =>
        match hex4 r with
        | Some (lo, r') =>
            if is_low_surrogate lo
            then (65536 + (cp - 55296) * 1024 + (lo - 56320), r')
            else (65533, rest)
        | None => (65533, rest)
        end
    | _ => (65533, rest)
    end
  else if is_low_surrogate cp then (65533, rest)
  else (cp, rest).

(** The body of a string literal after its opening quote: the bytes it
    stands for, before what is no UTF-8 among them is replaced, and the
    input after the closing quote. *)
Fixpoint parse_string_body (fuel : nat) (s : string) : option (string * string) :=
  match fuel with
  | O => None
  | S f =>
      match s with
      | EmptyString => None
      | String c r =>
          if byte_of c =? 34 then Some (EmptyString, r)
          else if byte_of c <? 32 then None
          else if byte_of c =? 92 then
            match r with
            | String e r' =>
                let simple (x : Z) :=
                  match parse_string_body f r' with
                  | Some (t, rest) => Some (String (ascii_of x) t, rest)
                  | None => None
                  end in
                match e with
                | "034"%char => simple 34
                | "\"%char => simple 92
                | "/"%char => simple 47
                | "b"%char => simple 8
                | "f"%char => simple 12
                | "n"%char => simple 10
                | "r"%char => simple 13
                | "t"%char => simple 9
                | "u"%char =>
                    match hex4 r' with
                    | Some (cp, r'') =>
                        let '(cp', r3) := unescape_u cp r'' in
                        match parse_string_body f r3 with
                        | Some (t, rest) => Some (utf8 cp' +:+ t, rest)
                        | None => None
                        end
                    | None => None
                    end
                | _ => None
                end
            | EmptyString => None
            end
          else
            match parse_string_body f r with
            | Some (t, rest) => Some (String c t, rest)
            | None => None
            end
      end
  end.

Fixpoint take_digits (s : string) : string * string :=
  match s with
  | String c r =>
      if is_digit c then let '(d, rest) := take_digits r in (String c d, rest)
      else (EmptyString, s)
  | EmptyString => (EmptyString, s)
  end.

(** A number literal: an optional minus sign, an integer part without a
    leading zero (or the single digit 0), an optional fraction of one or
    more digits, an optional exponent.  An integer literal is read as the
    integer it denotes ([as_any] makes a float64 of it where the target is
    an [any]); a literal with a fraction or an exponent is kept as
    written. *)
Definition parse_number (s : string) : option (value * string) :=
  let '(sign, s1) :=
    match s with
    | String "-"%char r => ("-", r)
    | _ => (EmptyString, s)
    end in
  let '(int_part, s2) := take_digits s1 in
  match int_part with
  | EmptyString => None
  | String d0 more =>
      if Ascii.eqb d0 "0"%char && negb (String.eqb more EmptyString) then None
      else
        let frac :=
          match s2 with
          | String "."%char r =>
              let '(fd, r') := take_digits r in
              match fd with
              | EmptyString => None
              | _ => Some ("." +:+ fd, r')
              end
          | _ => Some (EmptyString, s2)
          end in
        match frac with
        | None => None
        | Some (fr, s3) =>
            let expo :=
              match s3 with
              | String e r =>
                  if Ascii.eqb e "e"%char || Ascii.eqb e "E"%char then
                    let '(sg, r1) :=
                      match r with
                      | String "+"%char r1 => ("+", r1)
                      | String "-"%char r1 => ("-", r1)
                      | _ => (EmptyString, r)
                      end in
                    let '(ed, r2) := take_digits r1 in
                    match ed with
                    | EmptyString => None
                    | _ => Some (String e sg +:+ ed, r2)
                    end
                  else Some (EmptyString, s3)
              | EmptyString => Some (EmptyString, s3)
              end in
            match expo with
            | None => None
            | Some (ex, s4) =>
                if String.eqb fr EmptyString && String.eqb ex EmptyString then
                  match parse_digits int_part 0 with
                  | Some n =>
                      if String.eqb sign EmptyString then Some (JInt n, s4)
                      else if n =? 0 then Some (JFloat "-0", s4)
                      else Some (JInt (- n), s4)
                  | None => None
                  end
                else Some (JFloat (sign +:+ int_part +:+ fr +:+ ex), s4)
            end
        end
  end.

Definition expect (lit : string) (v : value) (s : string) : option (value * string) :=
  if String.prefix lit s
  then Some (v, String.substring (String.length lit)
                  (String.length s - String.length lit) s)
  else None.

(** A value, then the elements of an array after its first one, and the
    members of an object after its first one; [fuel] bounds the calls. *)
Fixpoint parse_value (fuel : nat) (s : string) : option (value * string) :=
  match fuel with
  | O => None
  | S f =>
      match skip_ws s with
      | EmptyString => None
      | String c r as s' =>
          match c with
          | "{"%char =>
              match skip_ws r with
              | String "}"%char r' => Some (JObject [], r')
              | _ =>
                  match parse_members f r with
                  | Some (kvs, rest) => Some (JObject kvs, rest)
                  | None => None
                  end
              end
          | "["%char =>
              match skip_ws r with
              | String "]"%char r' => Some (JArray [], r')
              | _ =>
                  match parse_elems f r with
                  | Some (vs, rest) => Some (JArray vs, rest)
                  | None => None
                  end
              end
          | "034"%char =>
              match parse_string_body (S (String.length r)) r with
              | Some (t, rest) => Some (JString (to_valid_utf8 t), rest)
              | None => None
              end
          | "t"%char => expect "true" (JBool true) s'
          | "f"%char => expect "false" (JBool false) s'
          | "n"%char => expect "null" JNull s'
          | _ => parse_number s'
          end
      end
  end
with parse_elems (fuel : nat) (s : string) : option (list value * string) :=
  match fuel with
  | O => None
  | S f =>
      match parse_value f s with
      | None => None
      | Some (v, rest) =>
          match skip_ws rest with
          | String ","%char r =>
              match parse_elems f r with
              | Some (vs, rest') => Some (v :: vs, rest')
              | None => None
              end
          | String "]"%char r => Some ([v], r)
          | _ => None
          end
      end
  end
with parse_members (fuel : nat) (s : string)
  : option (list (string * value) * string) :=
  match fuel with
  | O => None
  | S f =>
      match skip_ws s with
      | String "034"%char r =>
          match parse_string_body (S (String.length r)) r with
          | None => None
          | Some (k, rest) =>
              match skip_ws rest with
              | String ":"%char r1 =>
                  match parse_value f r1 with
                  | None => None
                  | Some (v, rest1) =>
                      match skip_ws rest1 with
                      | String ","%char r2 =>
                          match parse_members f r2 with
                          | Some (kvs, rest2) =>
                              Some ((to_valid_utf8 k, v) :: kvs, rest2)
                          | None => None
                          end
                      | String "}"%char r2 => Some ([(to_valid_utf8 k, v)], r2)
                      | _ => None
                      end
                  end
              | _ => None
              end
          end
      | _ => None
      end
  end.

(** How deep arrays and objects are nested in a value: as deep as the
    brackets and braces of its text are. *)
Fixpoint depth (v : value) : Z :=
  match v with
  | JArray elems => 1 + foldr Z.max 0 (map depth elems)
  | JObject kvs => 1 + foldr Z.max 0 (map (fun kv => depth kv.2) kvs)
  | _ => 0
  end.

(** The nesting beyond which the scanner of encoding/json refuses a text. *)
Definition maxNestingDepth : Z := 10000.

(** A whole JSON text: one value between optional white space, nested at
    most [maxNestingDepth] deep. *)
Definition parse (s : string) : option value :=
  match parse_value (2 * String.length s + 2) s with
  | Some (v, rest) =>
      match skip_ws rest with
      | EmptyString => if depth v <=? maxNestingDepth then Some v else None
      | _ => None
      end
  | None => None
  end.

(** Lookup in a Go map. *)
Fixpoint get (k : string) (kvs : list (string * value)) : option value :=
  match kvs with
  | [] => None
  | (k', v) :: r => if String.eqb k k' then Some v else get k r
  end.

(** Assignment [m[k] = v]. *)
Fixpoint set (k : string) (v : value) (kvs : list (string * value))
  : list (string * value) :=
  match kvs with
  | [] => [(k, v)]
  | (k', v') :: r =>
      if String.eqb k k' then (k, v) :: r else (k', v') :: set k v r
  end.

(** The same value with the keys of every object in increasing order: two
    values denote the same Go value when their canonical forms coincide. *)
Fixpoint canon (v : value) : value :=
  match v with
  | JArray elems => JArray (map canon elems)
  | JObject kvs =>
      JObject (sort_keys ((fix go (l : list (string * value)) :=
                             match l with
                             | [] => []
                             | (k, x) :: r => (k, canon x) :: go r
                             end) kvs))
  | _ => v
  end.

(** The integer nearest to [n] among those a float64 holds, as
    [strconv.ParseFloat] rounds an integer literal: 53 bits are kept, and
    of two nearest the one with the even significand is taken. *)
Definition round_float64 (n : Z) : Z :=
  let a := Z.abs n in
  let dropped := Z.log2 a + 1 - 53 in
  if dropped <=? 0 then n
  else
    let q := Z.shiftr a dropped in
    let r := a - Z.shiftl q dropped in
    let half := Z.shiftl 1 (dropped - 1) in
    let q' := if (half <? r) || ((r =? half) && Z.odd q) then q + 1 else q in
    Z.sgn n * Z.shiftl q' dropped.

(** A decoded value as an [any] holds it.  A number is a float64: an
    integer literal is rounded, and when the rounded value is beyond the
    range of float64 the decoder records an error and stores nil.  A
    literal with a fraction or an exponent stays as it is written: which
    float64 it denotes is outside the embedding, and the statements about
    values read back are about values without such literals
    ([float_free]).  An object is a [map[string]any], in which a repeated
    key keeps its last value. *)
Fixpoint as_any (v : value) : value :=
  match v with
  | JInt n =>
      let x := round_float64 n in
      if 2 ^ 1024 <=? Z.abs x then JNull else JInt x
  | JArray elems => JArray (map as_any elems)
  | JObject kvs => JObject (foldl (fun m kv => set kv.1 (as_any kv.2) m) [] kvs)
  | _ => v
  end.

(** [json.Unmarshal(raw, &parsed)] with [parsed] a nil [map[string]any]:
    the map afterwards.  Invalid text, and a value that is no object, leave
    it nil (the empty list); a repeated key keeps its last value, in the map
    and in every map inside it. *)
Definition Unmarshal_map (raw : string) : list (string * value) :=
  match parse raw with
  | Some (JObject kvs) => foldl (fun m kv => set kv.1 (as_any kv.2) m) [] kvs
  | _ => []
  end.

End Json.

(** ** The stub server: [stubServer], [popSSE], [recordResponseRequest],
    [ServeHTTP]

    The mutex [mu] guards every access to the two fields; a handler that
    runs alone is the state-passing function below.  Interleaved handlers
    are modelled in [Module Concurrent]. *)

Abbreviation gomap := (list (string * Json.value)).

Record stubServer : Type := {
  sseQueue : list string;
  responseReqs : list gomap;
}.

(** Computations over the server's state. *)
Definition Srv (A : Type) : Type := stubServer -> A * stubServer.
#[global] Instance Srv_ret : MRet Srv := fun A a s => (a, s).
#[global] Instance Srv_bind : MBind Srv :=
  fun A B k m s => let '(a, s') := m s in k a s'.

Definition popSSE : Srv (string * bool) := fun s =>
  match sseQueue s with
  | [] => ((EmptyString, false), s)
  | body :: rest =>
      ((body, true), {| sseQueue := rest; responseReqs := responseReqs s |})
  end.

Definition recordResponseRequest (body : gomap) : Srv unit := fun s =>
  (tt, {| sseQueue := sseQueue s; responseReqs := responseReqs s ++ [body] |}).

Record Request : Type := {
  Method : string;
  URLPath : string;
  Body : string;
}.

(** What the handler wrote to its [http.ResponseWriter]. *)
Record Response : Type := {
  StatusCode : Z;
  ContentType : string;
  Written : string;
  Flushed : bool;
}.

(** [http.Error]: a plain-text body, the message and a newline. *)
Definition http_Error (msg : string) (code : Z) : Response :=
  {| StatusCode := code; ContentType := "text/plain; charset=utf-8";
     Written := msg +:+ nl; Flushed := false |}.
Definition http_NotFound : Response := http_Error "404 page not found" 404.

Definition json_response (body : string) : Response :=
  {| StatusCode := 200; ContentType := "application/json";
     Written := body; Flushed := false |}.
(** The streamed answer; the writers of net/http implement [http.Flusher],
    so the body is flushed. *)
Definition stream_response (body : string) : Response :=
  {| StatusCode := 200; ContentType := "text/event-stream";
     Written := body; Flushed := true |}.
Definition exhausted_response : Response :=
  http_Error "no queued SSE responses" 500.

Definition is_list_models (r : Request) : bool :=
  String.eqb (Method r) "GET" && HasSuffix (URLPath r) "/models".
Definition is_create_response (r : Request) : bool :=
  String.eqb (Method r) "POST" && HasSuffix (URLPath r) "/responses".
Definition is_compact (r : Request) : bool :=
  String.eqb (Method r) "POST" && HasSuffix (URLPath r) "/responses/compact".

Definition ServeHTTP (r : Request) : Srv Response :=
  if is_list_models r then
    mret (json_response ("{" +:+ dq +:+ "models" +:+ dq +:+ ":[]}"))
  else if is_create_response r then
    let parsed := Json.Unmarshal_map (Body r) in
    (if negb (length parsed =? 0)%nat
     then recordResponseRequest parsed else mret tt) ;;
    '(body, ok) ← popSSE;
    if negb ok then mret exhausted_response
    else mret (stream_response body)
  else if is_compact r then
    mret (json_response ("{" +:+ dq +:+ "summary" +:+ dq +:+ ":" +:+ dq +:+ "ok" +:+ dq +:+ "}"))
  else mret http_NotFound.

(** Requests handled one after the other, as the scenario issues them. *)
Fixpoint serve_all (rs : list Request) : Srv (list Response) :=
  match rs with
  | [] => mret []
  | r :: rest =>
      resp ← ServeHTTP r;
      resps ← serve_all rest;
      mret (resp :: resps)
  end.

(** The log after a create-response request whose body is [raw]. *)
Definition log_after (log : list gomap) (raw : string) : list gomap :=
  let parsed := Json.Unmarshal_map raw in
  if (length parsed =? 0)%nat then log else log ++ [parsed].

(** ** [sse]: the frames of one scripted exchange *)

Definition event_kind (ev : gomap) : string :=
  match Json.get "type" ev with
  | Some (Json.JString kind) => kind
  | _ => EmptyString
  end.

(** One turn of the loop of [sse]. *)
Definition sse_frame (ev : gomap) : string :=
  "event: " +:+ event_kind ev +:+ nl +:+
  (if (length ev =? 1)%nat then nl
   else "data: " +:+ Json.marshal (Json.JObject ev) +:+ nl +:+ nl).

Fixpoint sse (events : list gomap) : string :=
  match events with
  | [] => EmptyString
  | ev :: rest => sse_frame ev +:+ sse rest
  end.

Definition evResponseCreated (id : string) : gomap :=
  [("type", Json.JString "response.created");
   ("response", Json.JObject [("id", Json.JString id)])].

Definition evCompleted (id : string) : gomap :=
  [("type", Json.JString "response.completed");
   ("response", Json.JObject
      [("id", Json.JString id);
       ("usage", Json.JObject
          [("input_tokens", Json.JInt 0);
           ("input_tokens_details", Json.JNull);
           ("output_tokens", Json.JInt 0);
           ("output_tokens_details", Json.JNull);
           ("total_tokens", Json.JInt 0)])])].

Definition evFunctionCallDone (callID name arguments : string) : gomap :=
  [("type", Json.JString "response.output_item.done");
   ("item", Json.JObject
      [("type", Json.JString "function_call");
       ("call_id", Json.JString callID);
       ("name", Json.JString name);
       ("arguments", Json.JString arguments)])].

Definition evAssistantMessageDone (id text : string) : gomap :=
  [("type", Json.JString "response.output_item.done");
   ("item", Json.JObject
      [("type", Json.JString "message");
       ("role", Json.JString "assistant");
       ("id", Json.JString id);
       ("content", Json.JArray
          [Json.JObject [("type", Json.JString "output_text");
                         ("text", Json.JString text)]])])].

(** ** The collector: [hookCall], [readHookCallsOnce], [listHookCalls] *)

Record hookCall : Type := {
  Seq : Z;
  SeqStr : string;
  Expected : string;
  Event : string;
  SubmissionID : string;
  Path : string;
}.

Record hookCallJSON : Type := {
  jSeq : string;          (* `json:"seq"` *)
  jExpected : string;     (* `json:"expected"` *)
  jEvent : string;        (* `json:"event"` *)
  jSubmissionID : string; (* `json:"submission_id"` *)
}.

Definition lower (c : ascii) : ascii :=
  if (65 <=? byte_of c) && (byte_of c <=? 90) then ascii_of (byte_of c + 32) else c.
(** The name of a member folded as encoding/json folds it to match it
    with a field: Unicode simple case folding, under which the ASCII letters
    fold with their other case and, besides, U+017F (bytes C5 BF) folds with
    [s] and U+212A (bytes E2 84 AA) with [k]; no other rune folds with an
    ASCII byte, and the tags of [hookCallJSON] are ASCII. *)
Fixpoint fold_name (s : string) : string :=
  match s with
  | EmptyString => EmptyString
  | String "197"%char (String "191"%char r) => String "s"%char (fold_name r)
  | String "226"%char (String "132"%char (String "170"%char r)) =>
      String "k"%char (fold_name r)
  | String c r => String (lower c) (fold_name r)
  end.

(** One member of the decoded object stored into the struct: keys match
    the tags without regard to ASCII case, an unknown key is ignored, [null]
    leaves the field as it is, and any other value that is no string is a
    type error, reported once the whole object is read. *)
Definition store_member (st : hookCallJSON * bool) (kv : string * Json.value)
  : hookCallJSON * bool :=
  let '(rec, bad) := st in
  let '(k, v) := kv in
  let put (upd : string -> hookCallJSON) :=
    match v with
    | Json.JString x => (upd x, bad)
    | Json.JNull => (rec, bad)
    | _ => (rec, true)
    end in
  let name := fold_name k in
  if String.eqb name "seq" then
    put (fun x => {| jSeq := x; jExpected := jExpected rec;
                     jEvent := jEvent rec; jSubmissionID := jSubmissionID rec |})
  else if String.eqb name "expected" then
    put (fun x => {| jSeq := jSeq rec; jExpected := x;
                     jEvent := jEvent rec; jSubmissionID := jSubmissionID rec |})
  else if String.eqb name "event" then
    put (fun x => {| jSeq := jSeq rec; jExpected := jExpected rec;
                     jEvent := x; jSubmissionID := jSubmissionID rec |})
  else if String.eqb name "submission_id" then
    put (fun x => {| jSeq := jSeq rec; jExpected := jExpected rec;
                     jEvent := jEvent rec; jSubmissionID := x |})
  else st.

Definition zero_hookCallJSON : hookCallJSON :=
  {| jSeq := EmptyString; jExpected := EmptyString;
     jEvent := EmptyString; jSubmissionID := EmptyString |}.

(** [json.Unmarshal(b, &parsed)] with [parsed] a zero [hookCallJSON];
    [None] is a non-nil error. *)
Definition Unmarshal_hookCallJSON (b : string) : option hookCallJSON :=
  match Json.parse b with
  | Some (Json.JObject kvs) =>
      let '(rec, bad) := foldl store_member (zero_hookCallJSON, false) kvs in
      if bad then None else Some rec
  | Some Json.JNull => Some zero_hookCallJSON
  | _ => None
  end.

(** The file system as the collector sees it at one instant: the listing
    [os.ReadDir] returns for a directory and the bytes [os.ReadFile]
    returns for a path; [None] is a non-nil error. *)
Record DirEntry : Type := {
  Name : string;
  IsDir : bool;
}.

Record FS : Type := {
  ReadDir : string -> option (list DirEntry);
  ReadFile : string -> option string;
}.

(** The elements of a path: what stands between its separators. *)
Fixpoint path_elements (path : string) : list string :=
  match path with
  | EmptyString => [EmptyString]
  | String c r =>
      if Ascii.eqb c "/"%char then EmptyString :: path_elements r
      else match path_elements r with
           | e :: l => String c e :: l
           | [] => [String c EmptyString]
           end
  end.

Fixpoint join_elements (l : list string) : string :=
  match l with
  | [] => EmptyString
  | [e] => e
  | e :: r => e +:+ "/" +:+ join_elements r
  end.

(** One element met by [filepath.Clean], [kept] being the elements kept so
    far, the last one first: an empty element and [.] are dropped; [..]
    removes the element before it, is dropped at the root, and is kept at
    the start of a relative path. *)
Definition clean_element (rooted : bool) (kept : list string) (e : string)
  : list string :=
  if String.eqb e EmptyString || String.eqb e "." then kept
  else if String.eqb e ".." then
    match kept with
    | top :: below => if String.eqb top ".." then e :: kept else below
    | [] => if rooted then [] else [e]
    end
  else e :: kept.

(** [filepath.Clean] on a system whose separator is the slash. *)
Definition Clean (path : string) : string :=
  match path with
  | EmptyString => "."
  | String c _ =>
      let rooted := Ascii.eqb c "/"%char in
      let kept := rev (foldl (clean_element rooted) [] (path_elements path)) in
      if rooted then "/" +:+ join_elements kept
      else match kept with
           | [] => "."
           | _ => join_elements kept
           end
  end.

(** [filepath.Join(dir, base)]: the elements that are not empty, joined by
    the separator, and the result cleaned.  For a clean [dir] and a plain
    file name [base], which is what [os.MkdirTemp], [filepath.Join] and
    [os.ReadDir] hand to the collector, it is [dir], a slash and [base]. *)
Definition Join (dir base : string) : string :=
  if String.eqb dir EmptyString then
    if String.eqb base EmptyString then EmptyString else Clean base
  else if String.eqb base EmptyString then Clean dir
  else Clean (dir +:+ "/" +:+ base).

(** [sort.Slice(calls, func(i, j) bool { return calls[i].Seq < calls[j].Seq })].
    The library promises a permutation in which no element is less than an
    earlier one, and no stability; nothing more is assumed of it. *)
Definition seq_le (a b : hookCall) : Prop := Seq a <= Seq b.

Class SortSlice : Type := {
  sort_Slice : list hookCall -> list hookCall;
  sort_Slice_perm : forall calls, sort_Slice calls ≡ₚ calls;
  sort_Slice_sorted : forall calls, Sorted seq_le (sort_Slice calls);
}.

#[global] Instance seq_le_dec a b : Decision (seq_le a b).
Proof. unfold seq_le. apply _. Defined.

Section collector.
Context {sorter : SortSlice}.

(** The stem of a directory entry's name: the name less its extension. *)
Definition stem (base : string) : string := TrimSuffix base (Ext base).

(** The body of the loop of [readHookCallsOnce] over the remaining
    entries, [calls] being the records appended so far. *)
Fixpoint read_entries (fs : FS) (dir : string) (entries : list DirEntry)
    (calls : list hookCall) : result (list hookCall) :=
  match entries with
  | [] => Ok calls
  | ent :: rest =>
      if IsDir ent then read_entries fs dir rest calls
      else
        let base := Name ent in
        let seqStr := stem base in
        match Atoi seqStr with
        | None => read_entries fs dir rest calls
        | Some seq =>
            let path := Join dir base in
            match ReadFile fs path with
            | None => Err (ErrReadFile path)
            | Some b =>
                match Unmarshal_hookCallJSON b with
                | None => Err (ErrParseHookRecord path)
                | Some parsed =>
                    read_entries fs dir rest
                      (calls ++ [{| Seq := seq;
                                    SeqStr := jSeq parsed;
                                    Expected := jExpected parsed;
                                    Event := jEvent parsed;
                                    SubmissionID := jSubmissionID parsed;
                                    Path := path |}])
                end
            end
        end
  end.

Definition readHookCallsOnce (fs : FS) (dir : string) : result (list hookCall) :=
  match ReadDir fs dir with
  | None => Err (ErrReadDir dir)
  | Some entries =>
      match read_entries fs dir entries [] with
      | Ok calls => Ok (sort_Slice calls)
      | Err e => Err e
      end
  end.

(** Instants and durations in nanoseconds; the zero [time.Time] is [0]
    and [IsZero] tests for it. *)
Definition quietFor : Z := 200 * 1000000.
Definition pollInterval : Z := 25 * 1000000.

(** What one turn of the loop of [listHookCalls] observes: the file system
    at its scan, the clock where the stability branch reads it
    ([time.Now()] or [time.Since]) and the clock at the deadline test. *)
Record Tick : Type := {
  tick_fs : FS;
  tick_stable : Z;
  tick_deadline : Z;
}.

(** One turn of the loop of [listHookCalls] entered with [lastCount] and
    [stableSince]: either the function returns ([inl]) or the loop goes on
    with the new [lastCount] and [stableSince] ([inr]), which is after the
    deadline test and before [time.Sleep]. *)
Definition turn (t : Tick) (dir : string) (wantAtLeast deadline : Z)
    (lastCount stableSince : Z) : result (list hookCall) + (Z * Z) :=
  match readHookCallsOnce (tick_fs t) dir with
  | Err e => inl (Err e)
  | Ok calls =>
      let n := Z.of_nat (length calls) in
      let continue (stableSince' : Z) : result (list hookCall) + (Z * Z) :=
        if deadline <? tick_deadline t
        then inl (Err (ErrTimedOut wantAtLeast dir n))
        else inr (n, stableSince') in
      if wantAtLeast <=? n then
        if n =? lastCount then
          if stableSince =? 0 then continue (tick_stable t)
          else if quietFor <=? tick_stable t - stableSince
               then inl (Ok calls)
               else continue stableSince
        else continue 0
      else continue stableSince
  end.

(** The loop from its [i]-th turn on, against the observations [world];
    [Some (i, r)]: it returned [r] in turn [i], after [i + 1] scans.
    [None]: [fuel] turns were not enough. *)
Fixpoint listHookCalls_loop (fuel : nat) (world : nat -> Tick) (dir : string)
    (wantAtLeast deadline : Z) (i : nat) (lastCount stableSince : Z)
  : option (nat * result (list hookCall)) :=
  match fuel with
  | O => None
  | S fuel' =>
      match turn (world i) dir wantAtLeast deadline lastCount stableSince with
      | inl r => Some (i, r)
      | inr (lastCount', stableSince') =>
          listHookCalls_loop fuel' world dir wantAtLeast deadline (S i)
            lastCount' stableSince'
      end
  end.

(** [listHookCalls(dir, wantAtLeast, timeout)] entered when the clock
    reads [start]. *)
Definition listHookCalls (fuel : nat) (world : nat -> Tick) (start : Z)
    (dir : string) (wantAtLeast timeout : Z)
  : option (nat * result (list hookCall)) :=
  listHookCalls_loop fuel world dir wantAtLeast (start + timeout) 0%nat 0 0.

(** The collector as the specification words it.  It tracks the previous
    count and the instant at which the count became stable: below the
    minimum the stability tracking is reset; at or above it a changed count
    resets the timer, an unchanged one starts it if it is not running and
    returns the sorted set once the quiet duration has passed; a turn that
    does not return fails when the deadline has passed. *)
Definition spec_turn (t : Tick) (dir : string) (minimumCount deadline : Z)
    (lastCount stableSince : Z) : result (list hookCall) + (Z * Z) :=
  match readHookCallsOnce (tick_fs t) dir with
  | Err e => inl (Err e)
  | Ok calls =>
      let n := Z.of_nat (length calls) in
      let continue (stableSince' : Z) : result (list hookCall) + (Z * Z) :=
        if deadline <? tick_deadline t
        then inl (Err (ErrTimedOut minimumCount dir n))
        else inr (n, stableSince') in
      if n <? minimumCount then continue 0
      else if negb (n =? lastCount) then continue 0
      else if stableSince =? 0 then continue (tick_stable t)
      else if quietFor <=? tick_stable t - stableSince then inl (Ok calls)
      else continue stableSince
  end.

Fixpoint collect_spec (fuel : nat) (world : nat -> Tick) (dir : string)
    (minimumCount deadline : Z) (i : nat) (lastCount stableSince : Z)
  : option (nat * result (list hookCall)) :=
  match fuel with
  | O => None
  | S fuel' =>
      match spec_turn (world i) dir minimumCount deadline lastCount stableSince with
      | inl r => Some (i, r)
      | inr (lastCount', stableSince') =>
          collect_spec fuel' world dir minimumCount deadline (S i)
            lastCount' stableSince'
      end
  end.

(** The count the scan of turn [m] finds, and the count the loop holds in
    [lastCount] when it enters turn [m]. *)
Definition count_at (world : nat -> Tick) (dir : string) (m : nat) : option Z :=
  match readHookCallsOnce (tick_fs (world m)) dir with
  | Ok calls => Some (Z.of_nat (length calls))
  | Err _ => None
  end.
Definition count_before (world : nat -> Tick) (dir : string) (m : nat) : option Z :=
  match m with
  | O => Some 0
  | S m' => count_at world dir m'
  end.

End collector.

(** A sorter that meets the contract of [sort.Slice]. *)
#[global] Instance seq_le_total : Total seq_le.
Proof. intros a b. unfold seq_le. lia. Qed.

#[global, program] Instance merge_sorter : SortSlice := {|
  sort_Slice := merge_sort seq_le;
|}.
Next Obligation. intros calls. apply merge_sort_Permutation. Qed.
Next Obligation. intros calls. apply (Sorted_merge_sort seq_le). Qed.

(** ** The validator: the checks at the end of [main] *)

Fixpoint equalStrings_from (a b : list string) : bool :=
  match a, b with
  | x :: a', y :: b' => if String.eqb x y then equalStrings_from a' b' else false
  | _, _ => true
  end.
(** [equalStrings]: the lengths first, then element by element. *)
Definition equalStrings (a b : list string) : bool :=
  if negb (length a =? length b)%nat then false else equalStrings_from a b.

(** What [main] prints before [os.Exit(1)]. *)
Inductive violation : Type :=
  | SeqMismatch (seq : Z) (seqStr path : string)
  | ExpectedEventMismatch (expected event : string) (seq : Z) (path : string)
  | UnexpectedSequence (got want : list string)
  | UnexpectedCount (n : nat) (got : list string) (wantn : nat).

Definition seq_check (c : hookCall) : bool :=
  negb (negb (String.eqb (SeqStr c) EmptyString)
        && negb (String.eqb (SeqStr c) (Itoa (Seq c)))).
Definition event_check (c : hookCall) : bool :=
  String.eqb (Expected c) (Event c).

(** The loop over [calls]: the first failing record stops the run. *)
Fixpoint check_calls (calls : list hookCall) (got : list string)
  : violation + list string :=
  match calls with
  | [] => inr got
  | c :: rest =>
      if negb (seq_check c) then inl (SeqMismatch (Seq c) (SeqStr c) (Path c))
      else if negb (event_check c)
      then inl (ExpectedEventMismatch (Expected c) (Event c) (Seq c) (Path c))
      else check_calls rest (got ++ [Event c])
  end.

(** [None]: every check passed and [main] prints OK. *)
Definition validate (calls : list hookCall) (want : list string)
  : option violation :=
  match check_calls calls [] with
  | inl v => Some v
  | inr got =>
      if negb (equalStrings got want) then Some (UnexpectedSequence got want)
      else if negb (length calls =? length want)%nat
      then Some (UnexpectedCount (length calls) got (length want))
      else None
  end.

(** The messages one run of the validator prints. *)
Definition reported (calls : list hookCall) (want : list string)
  : list violation :=
  match validate calls want with
  | Some v => [v]
  | None => []
  end.

(** The four checks as the specification lists them, each evaluated on its
    own and on every record, and every violation kept. *)
Definition seq_violations (c : hookCall) : list violation :=
  if seq_check c then [] else [SeqMismatch (Seq c) (SeqStr c) (Path c)].
Definition event_violations (c : hookCall) : list violation :=
  if event_check c then []
  else [ExpectedEventMismatch (Expected c) (Event c) (Seq c) (Path c)].
Definition order_violations (calls : list hookCall) (want : list string)
  : list violation :=
  if equalStrings (map Event calls) want then []
  else [UnexpectedSequence (map Event calls) want].
Definition count_violations (calls : list hookCall) (want : list string)
  : list violation :=
  if (length calls =? length want)%nat then []
  else [UnexpectedCount (length calls) (map Event calls) (length want)].

Definition all_violations (calls : list hookCall) (want : list string)
  : list violation :=
  concat (map seq_violations calls) ++
  concat (map event_violations calls) ++
  order_violations calls want ++
  count_violations calls want.

(** The same violations in the order in which [main] comes to them:
    record by record, then the order of the names, then the count. *)
Definition violations_in_run_order (calls : list hookCall) (want : list string)
  : list violation :=
  concat (map (fun c => seq_violations c ++ event_violations c) calls) ++
  order_violations calls want ++
  count_violations calls want.

Definition want_hooks : list string :=
  ["turn_started"; "exec_command_begin"; "exec_command_end"; "turn_complete"].

(** ** Concrete file systems, for the examples *)

(** The JSON text the hook script of [main] writes for one call. *)
Definition hook_record (seq expected event submission_id : string) : string :=
  "{" +:+ dq +:+ "seq" +:+ dq +:+ ":" +:+ dq +:+ seq +:+ dq +:+ "," +:+
  dq +:+ "expected" +:+ dq +:+ ":" +:+ dq +:+ expected +:+ dq +:+ "," +:+
  dq +:+ "event" +:+ dq +:+ ":" +:+ dq +:+ event +:+ dq +:+ "," +:+
  dq +:+ "submission_id" +:+ dq +:+ ":" +:+ dq +:+ submission_id +:+ dq +:+
  "}" +:+ nl.

Fixpoint lookup_file (path : string) (files : list (string * string))
  : option string :=
  match files with
  | [] => None
  | (p, b) :: rest => if String.eqb path p then Some b else lookup_file path rest
  end.

(** One directory [dir] whose listing is [entries], and the readable files
    [files] (path and content). *)
Definition fs_of (dir : string) (entries : list DirEntry)
    (files : list (string * string)) : FS :=
  {| ReadDir := fun d => if String.eqb d dir then Some entries else None;
     ReadFile := fun p => lookup_file p files |}.

Definition file (name : string) : DirEntry := {| Name := name; IsDir := false |}.
Definition subdir (name : string) : DirEntry := {| Name := name; IsDir := true |}.

(** ** Vocabulary for the statements about the collector *)

(** The record a directory entry gives rise to: none for a directory, for
    a stem that is no integer, and for a file that cannot be read or
    decoded. *)
Definition hook_of (fs : FS) (dir : string) (ent : DirEntry) : option hookCall :=
  if IsDir ent then None
  else
    seq ← Atoi (stem (Name ent));
    b ← ReadFile fs (Join dir (Name ent));
    parsed ← Unmarshal_hookCallJSON b;
    Some {| Seq := seq; SeqStr := jSeq parsed; Expected := jExpected parsed;
            Event := jEvent parsed; SubmissionID := jSubmissionID parsed;
            Path := Join dir (Name ent) |}.

(** A non-directory entry whose stem parses as an integer. *)
Definition is_record (ent : DirEntry) : bool :=
  negb (IsDir ent) && bool_decide (is_Some (Atoi (stem (Name ent)))).

(** A record file that cannot be read. *)
Definition unreadable (fs : FS) (dir : string) (ent : DirEntry) : bool :=
  is_record ent && bool_decide (ReadFile fs (Join dir (Name ent)) = None).

(** A record file whose content does not decode. *)
Definition malformed (fs : FS) (dir : string) (ent : DirEntry) : bool :=
  is_record ent &&
  match ReadFile fs (Join dir (Name ent)) with
  | Some b => bool_decide (Unmarshal_hookCallJSON b = None)
  | None => false
  end.

(** The error, if any, that the entry makes [readHookCallsOnce] return. *)
Definition entry_error (fs : FS) (dir : string) (ent : DirEntry) : option error :=
  if unreadable fs dir ent then Some (ErrReadFile (Join dir (Name ent)))
  else if malformed fs dir ent then Some (ErrParseHookRecord (Join dir (Name ent)))
  else None.

(** A decimal numeral as [strconv.Itoa] writes it: no plus sign and no
    leading zero, the single digit 0 apart. *)
Definition nonzero_digit (c : ascii) : bool :=
  (49 <=? byte_of c) && (byte_of c <=? 57).
Fixpoint all_digits (s : string) : bool :=
  match s with
  | EmptyString => true
  | String c r => is_digit c && all_digits r
  end.
Definition canonical (s : string) : bool :=
  match s with
  | String "0"%char EmptyString => true
  | String "-"%char (String d r) => nonzero_digit d && all_digits r
  | String d r => nonzero_digit d && all_digits r
  | EmptyString => false
  end.

(** The number a directory entry contributes, if it is a record file. *)
Definition seq_of_entry (ent : DirEntry) : option Z :=
  if IsDir ent then None else Atoi (stem (Name ent)).

(** ** Vocabulary for the statements about the polling loop *)

Section polling_vocabulary.
Context {sorter : SortSlice}.
Variables (world : nat -> Tick) (dir : string) (wantAtLeast : Z).

(** The stability timer of a loop that enters turn [i] holding the count
    [n] was started in turn [j]: the counts held on entering the turns [j]
    to [i] are all [n], and turn [j] is the first such turn. *)
Definition timer_started (j i : nat) (n : Z) : Prop :=
  (j < i)%nat
  /\ (forall m, (j <= m <= i)%nat -> count_before world dir m = Some n)
  /\ (j = 0%nat \/ exists j', j = S j' /\ count_before world dir j' <> Some n).

(** The scan of turn [k] finds the set [calls], which has at least
    [wantAtLeast] records, as many as every scan since before the timer was
    started, at least the quiet duration ago. *)
Definition stable_since_timer (k : nat) (calls : list hookCall) : Prop :=
  readHookCallsOnce (tick_fs (world k)) dir = Ok calls
  /\ wantAtLeast <= Z.of_nat (length calls)
  /\ exists j, (j < k)%nat
       /\ timer_started j (S k) (Z.of_nat (length calls))
       /\ quietFor <= tick_stable (world k) - tick_stable (world j).

(** What a return of the sorted set in turn [k] implies, whatever the clock
    reads: the count has been the same from the scan before some turn [j] to
    the scan of turn [k], and the clock advanced by the quiet duration
    between the two turns. *)
Definition stable_return (k : nat) (calls : list hookCall) : Prop :=
  readHookCallsOnce (tick_fs (world k)) dir = Ok calls
  /\ Sorted seq_le calls
  /\ wantAtLeast <= Z.of_nat (length calls)
  /\ exists j, (j < k)%nat
       /\ (forall m, (j <= m <= S k)%nat ->
             count_before world dir m = Some (Z.of_nat (length calls)))
       /\ quietFor <= tick_stable (world k) - tick_stable (world j).

(** The state with which the specification's loop enters turn [i]. *)
Definition entered (i : nat) (lastCount stableSince : Z) : Prop :=
  count_before world dir i = Some lastCount
  /\ (stableSince <> 0 ->
      wantAtLeast <= lastCount
      /\ exists j, (j < i)%nat /\ stableSince = tick_stable (world j)
           /\ forall m, (j <= m <= i)%nat -> count_before world dir m = Some lastCount).

(** The same state, timer included, when the clock never reads the zero
    instant: the timer is not running when the last scan changed the count
    or found it below the minimum, and otherwise it was started in the first
    turn [j] of the current run of equal counts. *)
Definition timer_state (i : nat) (lastCount stableSince : Z) : Prop :=
  count_before world dir i = Some lastCount
  /\ ((stableSince = 0
       /\ (i = 0%nat \/ lastCount < wantAtLeast
           \/ exists i', i = S i' /\ count_before world dir i' <> Some lastCount))
      \/ (stableSince <> 0 /\ wantAtLeast <= lastCount
          /\ exists j, timer_started j i lastCount
                       /\ stableSince = tick_stable (world j))).

End polling_vocabulary.

(** ** Scenarios of the specification's section 8, for the examples *)

Definition calls_dir : string := "/tmp/codex-hooks-e2e/hooks/calls".

Definition record_file (seq : Z) (expected event : string) : string * string :=
  (Join calls_dir (Itoa seq +:+ ".json"),
   hook_record (Itoa seq) expected event "sub-1").

Definition four_records : list (string * string) :=
  [record_file 0 "turn_started" "turn_started";
   record_file 1 "exec_command_begin" "exec_command_begin";
   record_file 2 "exec_command_end" "exec_command_end";
   record_file 3 "turn_complete" "turn_complete"].

(** The listing order 2.json, 0.json, 1.json. *)
Definition fs_listing_201 : FS :=
  fs_of calls_dir [file "2.json"; file "0.json"; file "1.json"] four_records.

(** A stray temporary file, a sub-directory and a record that is no JSON. *)
Definition fs_with_garbage : FS :=
  fs_of calls_dir
    [file "0.json"; file "1.json.tmp.4242"; subdir "7"; file "1.json"; file "2.json"]
    [record_file 0 "turn_started" "turn_started";
     (Join calls_dir "1.json", "{not json");
     record_file 2 "exec_command_end" "exec_command_end"].

Definition fs_two : FS :=
  fs_of calls_dir [file "0.json"; file "1.json"] four_records.
Definition fs_four : FS :=
  fs_of calls_dir [file "0.json"; file "1.json"; file "2.json"; file "3.json"]
    four_records.

Definition ms : Z := 1000000.

(** Turn [i] runs [25 * i] ms after [start]; the directory holds two
    records at first and four from 50 ms on. *)
Definition stability_world (start : Z) (i : nat) : Tick :=
  {| tick_fs := if (i <? 2)%nat then fs_two else fs_four;
     tick_stable := start + Z.of_nat i * pollInterval;
     tick_deadline := start + Z.of_nat i * pollInterval |}.

(** The directory never holds more than two records. *)
Definition starved_world (start : Z) (i : nat) : Tick :=
  {| tick_fs := fs_two;
     tick_stable := start + Z.of_nat i * pollInterval;
     tick_deadline := start + Z.of_nat i * pollInterval |}.

(** A record stored as 007.json whose content repeats the stem. *)
Definition fs_007 : FS :=
  fs_of calls_dir [file "007.json"]
    [(Join calls_dir "007.json", hook_record "007" "turn_started" "turn_started" "sub-1")].

(** A record stored as -1.json whose content repeats the stem: the stem
    has an explicit sign, and the cross-check passes. *)
Definition fs_minus_1 : FS :=
  fs_of calls_dir [file "-1.json"]
    [(Join calls_dir "-1.json", hook_record "-1" "turn_started" "turn_started" "sub-1")].

(** A record whose [seq] string contradicts its file name and whose event
    differs from the expected one. *)
Definition doubly_wrong_call : hookCall :=
  {| Seq := 0; SeqStr := "5"; Expected := "turn_started"; Event := "turn_complete";
     SubmissionID := "sub-1"; Path := Join calls_dir "0.json" |}.

(** A directory of four records of which the first is that record: the
    file 0.json holds the [seq] 5 and the event [turn_complete]. *)
Definition fs_doubly_wrong : FS :=
  fs_of calls_dir [file "0.json"; file "1.json"; file "2.json"; file "3.json"]
    [(Join calls_dir "0.json",
      hook_record "5" "turn_started" "turn_complete" "sub-1");
     record_file 1 "exec_command_begin" "exec_command_begin";
     record_file 2 "exec_command_end" "exec_command_end";
     record_file 3 "turn_complete" "turn_complete"].

(** Turn [i] runs [25 * i] ms after [start]; the directory holds those four
    records all along. *)
Definition doubly_wrong_world (start : Z) (i : nat) : Tick :=
  {| tick_fs := fs_doubly_wrong;
     tick_stable := start + Z.of_nat i * pollInterval;
     tick_deadline := start + Z.of_nat i * pollInterval |}.

(** The records the collector hands to the validator in that run. *)
Definition doubly_wrong_run : list hookCall :=
  [doubly_wrong_call;
   {| Seq := 1; SeqStr := "1"; Expected := "exec_command_begin";
      Event := "exec_command_begin"; SubmissionID := "sub-1";
      Path := Join calls_dir "1.json" |};
   {| Seq := 2; SeqStr := "2"; Expected := "exec_command_end";
      Event := "exec_command_end"; SubmissionID := "sub-1";
      Path := Join calls_dir "2.json" |};
   {| Seq := 3; SeqStr := "3"; Expected := "turn_complete";
      Event := "turn_complete"; SubmissionID := "sub-1";
      Path := Join calls_dir "3.json" |}].

(** A record that is no JSON (1.json) followed in the listing by a record
    file that cannot be read (2.json). *)
Definition fs_malformed_then_unreadable : FS :=
  fs_of calls_dir [file "0.json"; file "1.json"; file "2.json"]
    [record_file 0 "turn_started" "turn_started";
     (Join calls_dir "1.json", "{not json")].

(** Create-response requests, for the examples. *)
Definition post_responses (body : string) : Request :=
  {| Method := "POST"; URLPath := "/v1/responses"; Body := body |}.

Definition model_payload : string :=
  "{" +:+ dq +:+ "model" +:+ dq +:+ ":" +:+ dq +:+ "gpt-5.1-codex" +:+ dq +:+ "}".

(** ** Handlers of create-response requests that run concurrently

    [net/http] runs [ServeHTTP] in a goroutine per connection.  A handler
    is a sequence of steps; every step that touches [sseQueue] or
    [responseReqs] lies between a [s.mu.Lock()] and the deferred
    [s.mu.Unlock()] of [recordResponseRequest] or [popSSE].  One step of one
    handler is taken at a time, in the order a schedule gives; a handler
    whose next step is [Lock] on a locked mutex does not move. *)
Module Concurrent.

(** Where a handler stands. *)
Inductive pc : Type :=
  | RecLock                       (* recordResponseRequest: s.mu.Lock() *)
  | RecRead                       (* read s.responseReqs *)
  | RecWrite (old : list gomap)   (* s.responseReqs = append(old, body) *)
  | RecUnlock                     (* deferred s.mu.Unlock() *)
  | PopLock                       (* popSSE: s.mu.Lock() *)
  | PopLen                        (* len(s.sseQueue) == 0 *)
  | PopHead                       (* body := s.sseQueue[0] *)
  | PopTail (body : string)       (* s.sseQueue = s.sseQueue[1:] *)
  | PopUnlock (body : string) (ok : bool)   (* deferred s.mu.Unlock() *)
  | Finished (resp : Response)    (* the response is written *)
  | Panicked.                     (* index or slice bounds out of range *)

Record thread : Type := {
  payload : gomap;   (* the decoded request body, [parsed] in ServeHTTP *)
  at_pc : pc;
}.

Record config : Type := {
  locked : bool;             (* s.mu *)
  server : stubServer;       (* s.sseQueue and s.responseReqs *)
  threads : list thread;
}.

(** The operations on the shared state, named at the step that makes
    their effect. *)
Inductive op : Type :=
  | OpRecord (body : gomap)
  | OpPop.

(** The handler is between a [Lock] and its [Unlock]. *)
Definition holding (p : pc) : bool :=
  match p with
  | RecRead | RecWrite _ | RecUnlock
  | PopLen | PopHead | PopTail _ | PopUnlock _ _ => true
  | RecLock | PopLock | Finished _ | Panicked => false
  end.

Definition response_of (res : string * bool) : Response :=
  if negb res.2 then exhausted_response else stream_response res.1.

(** One step of a handler: its new place, the mutex, the shared state, and
    the operation the step completed, if any. *)
Definition thread_step (t : thread) (l : bool) (s : stubServer)
  : thread * bool * stubServer * option op :=
  let goto (p : pc) := {| payload := payload t; at_pc := p |} in
  match at_pc t with
  | RecLock => if l then (t, l, s, None) else (goto RecRead, true, s, None)
  | RecRead => (goto (RecWrite (responseReqs s)), l, s, None)
  | RecWrite old =>
      (goto RecUnlock, l,
       {| sseQueue := sseQueue s; responseReqs := old ++ [payload t] |},
       Some (OpRecord (payload t)))
  | RecUnlock => (goto PopLock, false, s, None)
  | PopLock => if l then (t, l, s, None) else (goto PopLen, true, s, None)
  | PopLen =>
      if (length (sseQueue s) =? 0)%nat
      then (goto (PopUnlock EmptyString false), l, s, Some OpPop)
      else (goto PopHead, l, s, None)
  | PopHead =>
      match sseQueue s with
      | body :: _ => (goto (PopTail body), l, s, None)
      | [] => (goto Panicked, l, s, None)
      end
  | PopTail body =>
      match sseQueue s with
      | _ :: rest =>
          (goto (PopUnlock body true), l,
           {| sseQueue := rest; responseReqs := responseReqs s |}, Some OpPop)
      | [] => (goto Panicked, l, s, None)
      end
  | PopUnlock body ok => (goto (Finished (response_of (body, ok))), false, s, None)
  | Finished _ | Panicked => (t, l, s, None)
  end.

(** Handler [i] takes a step. *)
Definition step (i : nat) (c : config) : config * option (nat * op) :=
  match threads c !! i with
  | None => (c, None)
  | Some t =>
      let '(t', l', s', ev) := thread_step t (locked c) (server c) in
      ({| locked := l'; server := s'; threads := <[i := t']> (threads c) |},
       match ev with Some o => Some (i, o) | None => None end)
  end.

(** A schedule run from [c]; [hist] collects the completed operations in
    the order of their completion. *)
Fixpoint run (sched : list nat) (c : config) (hist : list (nat * op))
  : config * list (nat * op) :=
  match sched with
  | [] => (c, hist)
  | i :: rest =>
      let '(c', ev) := step i c in
      run rest c' (hist ++ match ev with Some e => [e] | None => [] end)
  end.

(** The operations run one at a time, by the sequential [popSSE] and
    [recordResponseRequest]. *)
Definition apply_op (o : op) (s : stubServer) : stubServer :=
  match o with
  | OpRecord body => (recordResponseRequest body s).2
  | OpPop => (popSSE s).2
  end.
Definition replay (hist : list (nat * op)) (s : stubServer) : stubServer :=
  foldl (fun s e => apply_op e.2 s) s hist.

(** The handler of a create-response request after it decoded the body. *)
Definition handler (raw : string) : thread :=
  let parsed := Json.Unmarshal_map raw in
  {| payload := parsed;
     at_pc := if negb (length parsed =? 0)%nat then RecLock else PopLock |}.

Definition init (s : stubServer) (bodies : list string) : config :=
  {| locked := false; server := s; threads := map handler bodies |}.

(** The pops and the recorded payloads among completed operations. *)
Fixpoint pops_in (hist : list (nat * op)) : nat :=
  match hist with
  | [] => 0%nat
  | (_, OpPop) :: rest => S (pops_in rest)
  | (_, OpRecord _) :: rest => pops_in rest
  end.
Definition records_in (hist : list (nat * op)) : list gomap :=
  omap (fun e => match e.2 with OpRecord body => Some body | OpPop => None end) hist.

(** What a handler standing at its [at_pc] knows: in a critical section,
    that the shared state is as it read it; outside, which of its operations
    are completed.  A handler that has its answer got it from [popSSE]
    applied to the state the earlier operations [h1] had made. *)
Definition local_ok (s0 s : stubServer) (hist : list (nat * op)) (i : nat)
    (t : thread) : Prop :=
  match at_pc t with
  | RecLock | RecRead => payload t <> [] /\ forall o, (i, o) ∉ hist
  | RecWrite old =>
      old = responseReqs s /\ payload t <> [] /\ forall o, (i, o) ∉ hist
  | RecUnlock | PopLock | PopLen =>
      ((i, OpPop) ∉ hist) /\ (payload t <> [] -> (i, OpRecord (payload t)) ∈ hist)
  | PopHead =>
      sseQueue s <> []
      /\ ((i, OpPop) ∉ hist) /\ (payload t <> [] -> (i, OpRecord (payload t)) ∈ hist)
  | PopTail body =>
      (exists rest, sseQueue s = body :: rest)
      /\ ((i, OpPop) ∉ hist) /\ (payload t <> [] -> (i, OpRecord (payload t)) ∈ hist)
  | PopUnlock body ok =>
      exists h1 h2, hist = h1 ++ (i, OpPop) :: h2
        /\ (popSSE (replay h1 s0)).1 = (body, ok)
        /\ (payload t <> [] -> (i, OpRecord (payload t)) ∈ h1)
  | Finished resp =>
      exists h1 h2, hist = h1 ++ (i, OpPop) :: h2
        /\ resp = response_of (popSSE (replay h1 s0)).1
        /\ (payload t <> [] -> (i, OpRecord (payload t)) ∈ h1)
  | Panicked => False
  end.

(** What holds of every configuration a schedule reaches from [init s0 _],
    [hist] being the operations completed so far. *)
Record invariant (s0 : stubServer) (c : config) (hist : list (nat * op)) : Prop := {
  inv_exclusive : forall i j ti tj,
    threads c !! i = Some ti -> threads c !! j = Some tj ->
    holding (at_pc ti) = true -> holding (at_pc tj) = true -> i = j;
  inv_locked : locked c = true <->
    exists i t, threads c !! i = Some t /\ holding (at_pc t) = true;
  inv_replay : server c = replay hist s0;
  inv_local : forall i t, threads c !! i = Some t ->
    local_ok s0 (server c) hist i t;
}.

End Concurrent.

(** ** A client of the event stream *)

(** The lines of a text, split at line feeds: the first line and the ones
    after it. *)
Fixpoint lines_from (s : string) : string * list string :=
  match s with
  | EmptyString => (EmptyString, [])
  | String c r =>
      let '(l, ls) := lines_from r in
      if Ascii.eqb c "010"%char then (EmptyString, l :: ls) else (String c l, ls)
  end.
Definition lines (s : string) : list string :=
  let '(l, ls) := lines_from s in l :: ls.

Definition drop_prefix (pre s : string) : string :=
  String.substring (String.length pre) (String.length s - String.length pre) s.

(** The value of the field [name] on a line: what follows the colon, less
    one leading space. *)
Definition field_value (name line : string) : option string :=
  if HasPrefix line (name +:+ ":") then
    let v := drop_prefix (name +:+ ":") line in
    Some (if HasPrefix v " " then drop_prefix " " v else v)
  else None.

(** Modelled from the spec: the generic SSE client of the round-trip
    property of section 8, which is no code of the repository.  It reads the
    wire shape of section 6: a frame is an [event:] line, optionally a
    [data:] line, and a blank line that ends it; several data lines join
    with a line feed, other lines are ignored, and text after the last blank
    line is an unfinished frame and is dropped.  [kind] and [data] are the
    fields read since the last blank line. *)
Fixpoint read_frames (ls : list string) (kind data : option string)
  : list (option string * option string) :=
  match ls with
  | [] => []
  | l :: rest =>
      if String.eqb l EmptyString then
        match kind, data with
        | None, None => read_frames rest None None
        | _, _ => (kind, data) :: read_frames rest None None
        end
      else
        match field_value "event" l, field_value "data" l with
        | Some k, _ => read_frames rest (Some k) data
        | None, Some d =>
            read_frames rest kind
              (Some match data with
                    | Some d0 => d0 +:+ nl +:+ d
                    | None => d
                    end)
        | None, None => read_frames rest kind data
        end
  end.

Definition sse_parse (body : string) : list (option string * option string) :=
  read_frames (lines body) None None.

(** The events a client decodes from a streamed body: the kind of each
    frame and the fields of its data, read as a JSON object. *)
Definition client_read (body : string) : list (string * gomap) :=
  map (fun '(kind, data) =>
         (default EmptyString kind,
          match data with
          | Some text => Json.Unmarshal_map text
          | None => []
          end))
      (sse_parse body).

(** The client read the event [ev]: the same kind, and the same fields
    with the same values (the order of keys in a map is immaterial). *)
Definition same_event (read : string * gomap) (ev : gomap) : Prop :=
  read.1 = event_kind ev
  /\ Json.canon (Json.JObject read.2) = Json.canon (Json.JObject ev).

(** The fields an event carries besides its kind. *)
Definition payload_fields (ev : gomap) : gomap :=
  filter (fun kv => kv.1 <> "type") ev.

(** The exchange of the specification's round-trip property. *)
Definition evCompletedBare (id : string) : gomap :=
  [("type", Json.JString "response.completed");
   ("response", Json.JObject [("id", Json.JString id)])].
Definition round_trip_exchange : list gomap :=
  [evResponseCreated "resp-1"; evCompletedBare "resp-1"].

(** The two exchanges [main] queues; [toolArgs] is the marshalled
    arguments of the shell call. *)
Definition toolArgs (targetFile : string) : string :=
  Json.marshal (Json.JObject
    [("command", Json.JString ("echo hook-ok > " +:+ targetFile));
     ("timeout_ms", Json.JInt 1000)]).
Definition main_exchange_1 (targetFile : string) : list gomap :=
  [evResponseCreated "resp-1";
   evFunctionCallDone "call-1" "shell_command" (toolArgs targetFile);
   evCompleted "resp-1"].
Definition main_exchange_2 : list gomap :=
  [evResponseCreated "resp-2";
   evAssistantMessageDone "msg-1" "done";
   evCompleted "resp-2"].

(** A text without a line feed. *)
Fixpoint no_lf (s : string) : bool :=
  match s with
  | EmptyString => true
  | String c r => negb (Ascii.eqb c "010"%char) && no_lf r
  end.

(** A ScriptedEvent as a Go map: distinct keys, the kind under "type". *)
Definition scripted_event (ev : gomap) (kind : string) : Prop :=
  NoDup ev.*1 /\ Json.get "type" ev = Some (Json.JString kind).

(** The frame of an event of kind [kind] whose payload is [data], if it
    has one. *)
Definition frame_text (kind : string) (data : option string) : string :=
  "event: " +:+ kind +:+ nl +:+
  match data with
  | None => nl
  | Some text => "data: " +:+ text +:+ nl +:+ nl
  end.

(** The payload an event puts on the wire: its whole map, when it has
    fields besides its kind. *)
Definition frame_data (ev : gomap) : option string :=
  match payload_fields ev with
  | [] => None
  | _ => Some (Json.marshal (Json.JObject ev))
  end.

(** ** The environment of the child process: [filteredEnv] *)

(** [strings.IndexByte]: the index of the first byte [c] of [s], or -1. *)
Fixpoint IndexByte (s : string) (c : ascii) : Z :=
  match s with
  | EmptyString => -1
  | String x r =>
      if Ascii.eqb x c then 0
      else let i := IndexByte r c in if i =? -1 then -1 else i + 1
  end.

(** The map [block] of [filteredEnv], used as a set of names. *)
Definition block : gset string :=
  {[ "CODEX_SANDBOX_NETWORK_DISABLED"; "CODEX_SANDBOX" ]}.

(** The name [k] the loop computes for the entry [kv]: what precedes the
    first equals sign, the whole entry when it has none. *)
Definition env_key (kv : string) : string :=
  let idx := IndexByte kv "="%char in
  if negb (idx =? -1) then String.substring 0 (Z.to_nat idx) kv else kv.

(** The loop of [filteredEnv] over the remaining entries, [out] being the
    entries appended so far. *)
Fixpoint filteredEnv_loop (env out : list string) : list string :=
  match env with
  | [] => out
  | kv :: rest =>
      if bool_decide (env_key kv ∈ block) then filteredEnv_loop rest out
      else filteredEnv_loop rest (out ++ [kv])
  end.
Definition filteredEnv (env : list string) : list string :=
  filteredEnv_loop env [].

(** The environment [main] gives to [codex exec]. *)
Definition child_env (environ : list string) (codexHome : string) : list string :=
  filteredEnv (environ ++ ["CODEX_HOME=" +:+ codexHome; "OPENAI_API_KEY=dummy"]).

(** An environment entry that sets the variable [name]. *)
Definition sets_variable (name kv : string) : Prop :=
  kv = name \/ exists value, kv = name +:+ "=" +:+ value.

(** Of the entries of [env] whose name is [name], the last one: os/exec
    hands to the child, of the entries of one name, the last only. *)
Definition last_entry (name : string) (env : list string) : option string :=
  last (filter (fun kv => env_key kv = name) env).

(** ** [shellQuote] *)

(** [strings.ContainsRune] for a rune below 0x80, which is one byte. *)
Definition ContainsRune (s : string) (c : ascii) : bool :=
  negb (IndexByte s c =? -1).

(** [strings.ReplaceAll(s, old, new)] for an [old] of one byte. *)
Fixpoint ReplaceAll (s : string) (old : ascii) (new : string) : string :=
  match s with
  | EmptyString => EmptyString
  | String c r =>
      (if Ascii.eqb c old then new else String c EmptyString)
      +:+ ReplaceAll r old new
  end.

(** The five bytes that stand for one single quote: close the quotes, a
    single quote between double quotes, open the quotes again. *)
Definition quoted_quote : string := "'" +:+ dq +:+ "'" +:+ dq +:+ "'".

Definition shellQuote (s : string) : string :=
  if String.eqb s EmptyString then "''"
  else if negb (ContainsRune s "'"%char) then "'" +:+ s +:+ "'"
  else "'" +:+ ReplaceAll s "'"%char quoted_quote +:+ "'".

(** The command of the scripted tool call, as [main] builds it. *)
Definition shell_command (targetFile : string) : string :=
  "echo hook-ok > " +:+ shellQuote targetFile.

(** How a POSIX shell reads quoted text (Shell Command Language, 2.2
    Quoting): between single quotes every byte stands for itself; between
    double quotes every byte but the dollar sign, the backquote and the
    backslash does; quoted parts that touch make one word.  Text that needs
    more of the shell than that (bytes outside quotes, expansions and
    backslashes between double quotes, an unfinished quote) is not read:
    [None]. *)
Inductive quoting : Type := Unquoted | SingleQuoted | DoubleQuoted.

Fixpoint sh_word (q : quoting) (s : string) : option string :=
  match s with
  | EmptyString =>
      match q with
      | Unquoted => Some EmptyString
      | _ => None
      end
  | String c r =>
      match q with
      | Unquoted =>
          if Ascii.eqb c "'"%char then sh_word SingleQuoted r
          else if Ascii.eqb c "034"%char then sh_word DoubleQuoted r
          else None
      | SingleQuoted =>
          if Ascii.eqb c "'"%char then sh_word Unquoted r
          else String c <$> sh_word SingleQuoted r
      | DoubleQuoted =>
          if Ascii.eqb c "034"%char then sh_word Unquoted r
          else if Ascii.eqb c "$"%char || Ascii.eqb c "`"%char || Ascii.eqb c "\"%char
          then None
          else String c <$> sh_word DoubleQuoted r
      end
  end.

(** ** More vocabulary for the stub server *)

(** The exchange a response streams, if it streams one. *)
Definition streamed (resp : Response) : option string :=
  if String.eqb (ContentType resp) "text/event-stream"
  then Some (Written resp) else None.

Definition models_body : string := "{" +:+ dq +:+ "models" +:+ dq +:+ ":[]}".
Definition summary_body : string :=
  "{" +:+ dq +:+ "summary" +:+ dq +:+ ":" +:+ dq +:+ "ok" +:+ dq +:+ "}".

(** ** The files of the hook script *)

(** A text without a dot and without a path separator, such as the
    process number the shell puts for [$$]. *)
Fixpoint no_dot_slash (s : string) : bool :=
  match s with
  | EmptyString => true
  | String c r =>
      negb (Ascii.eqb c "."%char) && negb (Ascii.eqb c "/"%char) && no_dot_slash r
  end.

(** The names the hook script gives to the record of the call numbered
    [seq]: the file it writes first, [$seq.json.tmp.$$], and the name it
    moves it to, [$seq.json]. *)
Definition record_name (seq : string) : string := seq +:+ ".json".
Definition temp_name (seq pid : string) : string := seq +:+ ".json.tmp." +:+ pid.

(** ** Vocabulary for the runs of concurrent handlers to their end *)

Module Fairness.
Import Concurrent.

(** The steps a handler standing at [p] has still to take, at most. *)
Definition remaining (p : pc) : nat :=
  match p with
  | RecLock => 9
  | RecRead => 8
  | RecWrite _ => 7
  | RecUnlock => 6
  | PopLock => 5
  | PopLen => 4
  | PopHead => 3
  | PopTail _ => 2
  | PopUnlock _ _ => 1
  | Finished _ | Panicked => 0
  end%nat.

Definition work (c : config) : nat :=
  sum_list (map (fun t => remaining (at_pc t)) (threads c)).

(** The schedule that gives every one of [n] handlers one step in turn,
    [rounds] times over. *)
Definition round_robin (n rounds : nat) : list nat :=
  concat (replicate rounds (seq 0 n)).

Definition finished (t : thread) : bool :=
  match at_pc t with
  | Finished _ => true
  | _ => false
  end.

(** The handler completed its [popSSE]. *)
Definition popped (p : pc) : bool :=
  match p with
  | PopUnlock _ _ | Finished _ => true
  | _ => false
  end.

(** The handler is past the append of [recordResponseRequest], if it had
    one to make. *)
Definition past_record (p : pc) : bool :=
  match p with
  | RecLock | RecRead | RecWrite _ => false
  | _ => true
  end.

(** The payload the handler has appended to the log, if any. *)
Definition recorded (t : thread) : option gomap :=
  if past_record (at_pc t) then
    match payload t with
    | [] => None
    | _ => Some (payload t)
    end
  else None.

(** The handlers in the order in which they completed their [popSSE]. *)
Definition pop_order (hist : list (nat * op)) : list nat :=
  omap (fun e => match e.2 with OpPop => Some e.1 | OpRecord _ => None end) hist.

(** The answer to the handler that pops at position [k] of the queue the
    server started with. *)
Definition answer_at (s0 : stubServer) (k : nat) : Response :=
  match sseQueue s0 !! k with
  | Some body => stream_response body
  | None => exhausted_response
  end.

(** The answers written so far, by handler. *)
Definition answers (c : config) : list Response :=
  omap (fun t => match at_pc t with Finished resp => Some resp | _ => None end)
       (threads c).

(** The non-empty payloads among the decoded request bodies. *)
Definition logged_payloads (bodies : list string) : list gomap :=
  omap (fun raw => match Json.Unmarshal_map raw with
                   | [] => None
                   | parsed => Some parsed
                   end) bodies.

(** What the completed operations and the places of the handlers have to
    do with each other. *)
Record counting (bodies : list string) (c : config) (hist : list (nat * op))
  : Prop := {
  cnt_payload : map payload (threads c) = map Json.Unmarshal_map bodies;
  cnt_nodup : NoDup (pop_order hist);
  cnt_pops : forall i, i ∈ pop_order hist <->
    exists t, threads c !! i = Some t /\ popped (at_pc t) = true;
  cnt_records : records_in hist ≡ₚ omap recorded (threads c);
}.

End Fairness.

(** ** Vocabulary for the payloads on the wire *)

(** Every number literal kept as text in the value is free of line feeds
    (the literals [Json.parse_number] accepts all are). *)
Fixpoint lf_free_literals (v : Json.value) : bool :=
  match v with
  | Json.JFloat lit => no_lf lit
  | Json.JArray elems => forallb lf_free_literals elems
  | Json.JObject kvs => forallb (fun kv => lf_free_literals kv.2) kvs
  | _ => true
  end.

(** What a client finds in the frame of the event [ev]: its kind and,
    unless the map has exactly one entry, its data. *)
Definition frame_of (ev : gomap) : option string * option string :=
  (Some (event_kind ev),
   if (length ev =? 1)%nat then None else Some (Json.marshal (Json.JObject ev))).

(** ** Vocabulary for the records of the hook script *)

(** ASCII text: every byte is below 0x80.  encoding/json writes and reads
    such text byte by byte; of other text it replaces what is no UTF-8. *)
Definition ascii_byte (c : ascii) : bool := byte_of c <? 128.
Fixpoint ascii_text (s : string) : bool :=
  match s with
  | EmptyString => true
  | String c r => ascii_byte c && ascii_text r
  end.

(** The first [k] bytes of the text are there and none of them is ASCII,
    as the bytes of a rune after its first are. *)
Fixpoint high_bytes (k : nat) (s : string) : bool :=
  match k, s with
  | O, _ => true
  | S k', String c r => negb (ascii_byte c) && high_bytes k' r
  | S _, EmptyString => false
  end.

(** Text that stands for itself between the quotes of a JSON string: ASCII
    without a control byte, a double quote or a backslash.  The hook script
    writes its four values with [printf], without escaping. *)
Definition json_plain_byte (c : ascii) : bool :=
  (32 <=? byte_of c) && ascii_byte c
  && negb (byte_of c =? 34) && negb (byte_of c =? 92).
Fixpoint json_plain (s : string) : bool :=
  match s with
  | EmptyString => true
  | String c r => json_plain_byte c && json_plain r
  end.

(** The hooks of a run in the order in which they fired: the name of each
    and the submission it belongs to. *)
Abbreviation firing := (list (string * string)).

(** The directory entry of the record of call number [i]. *)
Definition record_entry (i : nat) : DirEntry :=
  file (record_name (Itoa (Z.of_nat i))).

(** The hook script ran once for each hook that fired, numbered from [i]
    on in the order of firing, and found the event it expected: the content
    of the record files. *)
Fixpoint written_by_hooks (fs : FS) (dir : string) (i : nat) (fired : firing)
  : Prop :=
  match fired with
  | [] => True
  | (name, sub) :: rest =>
      ReadFile fs (Join dir (Name (record_entry i)))
      = Some (hook_record (Itoa (Z.of_nat i)) name name sub)
      /\ written_by_hooks fs dir (S i) rest
  end.

(** The records the collector should return for them. *)
Fixpoint expected_calls (dir : string) (i : nat) (fired : firing)
  : list hookCall :=
  match fired with
  | [] => []
  | (name, sub) :: rest =>
      {| Seq := Z.of_nat i; SeqStr := Itoa (Z.of_nat i);
         Expected := name; Event := name; SubmissionID := sub;
         Path := Join dir (Name (record_entry i)) |}
      :: expected_calls dir (S i) rest
  end.

(** A record that is consistent in itself: its [seq], when it has one, is
    the number of its file, and it saw the event it expected. *)
Definition consistent (c : hookCall) : Prop :=
  (SeqStr c = EmptyString \/ SeqStr c = Itoa (Seq c)) /\ Expected c = Event c.

(** ** Vocabulary for JSON texts read back *)

(** A value without number literals kept as text: what the program
    marshals holds integers only. *)
Fixpoint float_free (v : Json.value) : bool :=
  match v with
  | Json.JFloat _ => false
  | Json.JArray elems => forallb float_free elems
  | Json.JObject kvs => forallb (fun kv => float_free kv.2) kvs
  | _ => true
  end.

(** Every string and every key of the value is ASCII text. *)
Fixpoint ascii_strings (v : Json.value) : bool :=
  match v with
  | Json.JFloat lit => ascii_text lit
  | Json.JString s => ascii_text s
  | Json.JArray elems => forallb ascii_strings elems
  | Json.JObject kvs =>
      forallb (fun kv => ascii_text kv.1 && ascii_strings kv.2) kvs
  | _ => true
  end.

(** Every integer of the value is one that a float64 holds exactly, as a
    decoder that reads numbers into float64 keeps it: its magnitude is at
    most 2^53. *)
Fixpoint exact_ints (v : Json.value) : bool :=
  match v with
  | Json.JInt n => (- 9007199254740992 <=? n) && (n <=? 9007199254740992)
  | Json.JArray elems => forallb exact_ints elems
  | Json.JObject kvs => forallb (fun kv => exact_ints kv.2) kvs
  | _ => true
  end.

(** The keys of every object of the value are distinct, as those of a Go
    map are. *)
Fixpoint distinct_keys (v : Json.value) : bool :=
  match v with
  | Json.JArray elems => forallb distinct_keys elems
  | Json.JObject kvs =>
      bool_decide (NoDup kvs.*1) && forallb (fun kv => distinct_keys kv.2) kvs
  | _ => true
  end.

(** A value that is written and read back unchanged: no number literal
    kept as text, ASCII strings and keys, integers that a float64 holds
    exactly, distinct keys in every object, and a nesting of at most
    [Json.maxNestingDepth]. *)
Definition portable (v : Json.value) : bool :=
  float_free v && ascii_strings v && exact_ints v && distinct_keys v
  && (Json.depth v <=? Json.maxNestingDepth).

(** What may follow a value inside a text: nothing, a comma, or a closing
    bracket or brace. *)
Definition ends_value (rest : string) : Prop :=
  rest = EmptyString
  \/ exists r, rest = String ","%char r \/ rest = String "]"%char r
               \/ rest = String "}"%char r.

(** The bytes a marshalled value can start with. *)
Definition value_start (c : ascii) : Prop :=
  In c ["n"; "t"; "f"; "-"; "0"; "1"; "2"; "3"; "4"; "5"; "6"; "7"; "8"; "9";
        "034"; "["; "{"]%char.

(** The text of one member of an object. *)
Definition member_text (kv : string * Json.value) : string :=
  Json.quote kv.1 +:+ ":" +:+ Json.marshal kv.2.

(** The same key with the canonical form of its value. *)
Definition canon_member (kv : string * Json.value) : string * Json.value :=
  (kv.1, Json.canon kv.2).

(** The value [v], without number literals kept as text and with ASCII
    strings, marshalled and followed by [rest], is read back as its
    canonical form, and [rest] is left. *)
Definition reads_back (v : Json.value) : Prop :=
  float_free v = true -> ascii_strings v = true -> forall fuel rest,
    (2 * String.length (Json.marshal v) <= fuel)%nat -> ends_value rest ->
    Json.parse_value fuel (Json.marshal v +:+ rest) = Some (Json.canon v, rest).

(** The keys of the list never decrease. *)
Definition keys_sorted {A} (l : list (string * A)) : Prop :=
  Sorted (fun a b => String.leb a.1 b.1 = true) l.

(** An event that a client can read back: a Go map that is [portable],
    with a kind free of line feeds and at least one field besides it, so
    that [sse] writes its data. *)
Definition readable_event (ev : gomap) : Prop :=
  portable (Json.JObject ev) = true
  /\ no_lf (event_kind ev) = true
  /\ length ev <> 1%nat.

(** * Properties *)

(** ** The stub server, one request at a time *)

Lemma create_response_not_list_models r :
  is_create_response r = true -> is_list_models r = false.
Proof.
  unfold is_create_response, is_list_models.
  destruct (String.eqb_spec (Method r) "POST") as [->|]; [done|].
  by rewrite andb_false_l.
Qed.

(** What [ServeHTTP] does with a create-response request, in one equation. *)
Lemma ServeHTTP_create r s :
  is_create_response r = true ->
  ServeHTTP r s =
    match sseQueue s with
    | [] => (exhausted_response,
             {| sseQueue := []; responseReqs := log_after (responseReqs s) (Body r) |})
    | body :: rest =>
        (stream_response body,
         {| sseQueue := rest; responseReqs := log_after (responseReqs s) (Body r) |})
    end.
Proof.
  intros Hc. unfold ServeHTTP, log_after.
  rewrite (create_response_not_list_models r Hc), Hc.
  unfold mbind, Srv_bind, mret, Srv_ret, recordResponseRequest, popSSE.
  destruct s as [q log]; simpl.
  destruct (length (Json.Unmarshal_map (Body r)) =? 0)%nat; simpl;
    destruct q; reflexivity.
Qed.

Lemma serve_all_create rs : forall q log,
  Forall (fun r => is_create_response r = true) rs ->
  serve_all rs {| sseQueue := q; responseReqs := log |} =
    (map stream_response (take (length rs) q)
       ++ replicate (length rs - length q) exhausted_response,
     {| sseQueue := drop (length rs) q;
        responseReqs := foldl log_after log (map Body rs) |}).
Proof.
  induction rs as [|r rs IH]; intros q log Hrs.
  - simpl. by rewrite drop_0.
  - inversion Hrs as [|? ? Hr Hrs']; subst.
    cbn [serve_all]. unfold mbind, Srv_bind at 1.
    rewrite (ServeHTTP_create r _ Hr). cbn [sseQueue responseReqs].
    destruct q as [|b q]; unfold Srv_bind; rewrite IH by done;
      unfold mret, Srv_ret; simpl.
    + by rewrite take_nil, drop_nil, Nat.sub_0_r.
    + done.
Qed.

(** The answers to the queued exchanges streamed these exchanges, in
    their order. *)
Lemma streamed_queue (q : list string) :
  omap streamed (map stream_response q) = q.
Proof. induction q as [|body q IH]; [done|]. cbn. by rewrite IH. Qed.

(** C4. A server provisioned with the exchanges [q] that handles
    [length q + 1] create-response requests one after the other answers the
    first [length q] of them with the queued exchanges in queue order, each
    exactly once: answer number [i] has status 200 and the event-stream
    content type, its body is the [i]-th exchange, and it is flushed.  The
    last request gets the exhaustion error, status 500 with the diagnostic
    body as plain text, and the queue is empty afterwards. *)
Theorem queue_exhaustion_fifo (q : list string) (log : list gomap)
    (rs : list Request) :
  Forall (fun r => is_create_response r = true) rs ->
  length rs = S (length q) ->
  let run := serve_all rs {| sseQueue := q; responseReqs := log |} in
  run.1 = map (fun body => {| StatusCode := 200;
                              ContentType := "text/event-stream";
                              Written := body; Flushed := true |}) q
          ++ [{| StatusCode := 500;
                 ContentType := "text/plain; charset=utf-8";
                 Written := "no queued SSE responses" +:+ nl;
                 Flushed := false |}]
  /\ omap streamed run.1 = q
  /\ map Written run.1 = q ++ ["no queued SSE responses" +:+ nl]
  /\ map StatusCode run.1 = replicate (length q) 200 ++ [500]
  /\ sseQueue run.2 = [].
Proof.
  intros Hrs Hlen run. subst run. rewrite serve_all_create by done.
  rewrite Hlen. cbn [fst snd sseQueue].
  rewrite take_ge, drop_ge by lia.
  replace (S (length q) - length q)%nat with 1%nat by lia.
  cbn [replicate]. split; [done|]. split; [|split; [|split; [|done]]].
  - by rewrite omap_app, streamed_queue, app_nil_r.
  - rewrite map_app, map_map. cbn [map stream_response Written]. by rewrite map_id.
  - rewrite map_app, map_map. cbn [map stream_response StatusCode]. f_equal.
    clear. induction q as [|body q IH]; [done|]. cbn. by rewrite IH.
Qed.

Lemma queue_exhaustion_fifo_witness :
  let rs := [post_responses "{}"; post_responses "{}"; post_responses "{}"] in
  let run := serve_all rs {| sseQueue := ["first"; "second"]; responseReqs := [] |} in
  run.1 = [{| StatusCode := 200; ContentType := "text/event-stream";
              Written := "first"; Flushed := true |};
           {| StatusCode := 200; ContentType := "text/event-stream";
              Written := "second"; Flushed := true |};
           {| StatusCode := 500; ContentType := "text/plain; charset=utf-8";
              Written := "no queued SSE responses" +:+ nl; Flushed := false |}]
  /\ omap streamed run.1 = ["first"; "second"]
  /\ map Written run.1 = ["first"; "second"; "no queued SSE responses" +:+ nl]
  /\ map StatusCode run.1 = [200; 200; 500]
  /\ sseQueue run.2 = [].
Proof.
  apply (queue_exhaustion_fifo ["first"; "second"] []
           [post_responses "{}"; post_responses "{}"; post_responses "{}"]).
  - repeat constructor.
  - reflexivity.
Defined.



(** C9. A create-response request with a non-empty decoded body records it
    before the queue is popped: with an empty queue the answer is the
    exhaustion error and the log has nevertheless grown by the payload, so
    the state after the error differs from the state before it. *)
Theorem exhaustion_still_records (r : Request) (log : list gomap) :
  is_create_response r = true ->
  Json.Unmarshal_map (Body r) <> [] ->
  let parsed := Json.Unmarshal_map (Body r) in
  let s := {| sseQueue := []; responseReqs := log |} in
  ServeHTTP r s = ('(body, ok) ← popSSE; mret exhausted_response)
                    (recordResponseRequest parsed s).2
  /\ ServeHTTP r s =
       (exhausted_response, {| sseQueue := []; responseReqs := log ++ [parsed] |})
  /\ (ServeHTTP r s).2 <> s.
Proof.
  intros Hc Hne parsed s.
  assert (Heq : ServeHTTP r s =
    (exhausted_response, {| sseQueue := []; responseReqs := log ++ [parsed] |})).
  { rewrite (ServeHTTP_create r s Hc). subst s. cbn [sseQueue responseReqs].
    unfold log_after. fold parsed. change (parsed <> []) in Hne.
    clearbody parsed. by destruct parsed. }
  split; [|split].
  - rewrite Heq. reflexivity.
  - exact Heq.
  - rewrite Heq. cbn [snd]. subst s. intros [=Habs].
    apply (f_equal length) in Habs. rewrite length_app in Habs. simpl in Habs. lia.
Qed.

Lemma exhaustion_still_records_witness :
  ServeHTTP (post_responses model_payload) {| sseQueue := []; responseReqs := [] |}
  = (exhausted_response,
     {| sseQueue := [];
        responseReqs := [[("model", Json.JString "gpt-5.1-codex")]] |}).
Proof.
  apply (exhaustion_still_records (post_responses model_payload) []).
  - reflexivity.
  - vm_compute. discriminate.
Defined.

(** ** One scan of the collector *)

Section scan.
Context {sorter : SortSlice}.
Implicit Types (fs : FS) (dir : string) (ent : DirEntry)
         (entries : list DirEntry) (calls : list hookCall).

Lemma hook_of_not_record fs dir ent : is_record ent = false -> hook_of fs dir ent = None.
Proof.
  unfold is_record, hook_of. destruct (IsDir ent); [done|]. simpl.
  destruct (Atoi _); [|done]. intros Hb.
  apply bool_decide_eq_false in Hb. by destruct Hb.
Qed.

Lemma hook_of_Some fs dir ent c :
  hook_of fs dir ent = Some c ->
  IsDir ent = false /\ Atoi (stem (Name ent)) = Some (Seq c)
  /\ Path c = Join dir (Name ent)
  /\ exists b parsed, ReadFile fs (Join dir (Name ent)) = Some b
       /\ Unmarshal_hookCallJSON b = Some parsed
       /\ SeqStr c = jSeq parsed /\ Expected c = jExpected parsed
       /\ Event c = jEvent parsed /\ SubmissionID c = jSubmissionID parsed.
Proof.
  unfold hook_of. destruct (IsDir ent); [done|].
  destruct (Atoi _) as [seq|]; [|done]. simpl.
  destruct (ReadFile fs _) as [b|]; [|done]. simpl.
  destruct (Unmarshal_hookCallJSON b) as [parsed|] eqn:Hp; [|done]. simpl.
  intros [= <-]. simpl. eauto 12.
Qed.

(** One turn of the loop, by the kind of entry. *)
Lemma read_entries_cons fs dir ent entries calls :
  read_entries fs dir (ent :: entries) calls =
    match entry_error fs dir ent with
    | Some e => Err e
    | None =>
        read_entries fs dir entries
          (calls ++ match hook_of fs dir ent with Some c => [c] | None => [] end)
    end.
Proof.
  cbn [read_entries]. unfold entry_error, unreadable, malformed, is_record, hook_of.
  destruct (IsDir ent); simpl; [by rewrite app_nil_r|].
  destruct (Atoi (stem (Name ent))) as [seq|]; simpl; [|by rewrite app_nil_r].
  destruct (ReadFile fs _) as [b|]; simpl; [|done].
  destruct (Unmarshal_hookCallJSON b); simpl; done.
Qed.

(** The whole loop: the first entry that fails decides, otherwise every
    record is appended in listing order. *)
Lemma read_entries_spec fs dir entries : forall calls,
  read_entries fs dir entries calls =
    match head (omap (entry_error fs dir) entries) with
    | Some e => Err e
    | None => Ok (calls ++ omap (hook_of fs dir) entries)
    end.
Proof.
  induction entries as [|ent entries IH]; intros calls.
  - simpl. by rewrite app_nil_r.
  - rewrite read_entries_cons. cbn [omap list_omap].
    destruct (entry_error fs dir ent) as [e|] eqn:He; [done|].
    rewrite IH. destruct (head _); [done|].
    destruct (hook_of fs dir ent); by rewrite <- app_assoc.
Qed.

Lemma readHookCallsOnce_spec fs dir entries :
  ReadDir fs dir = Some entries ->
  readHookCallsOnce fs dir =
    match head (omap (entry_error fs dir) entries) with
    | Some e => Err e
    | None => Ok (sort_Slice (omap (hook_of fs dir) entries))
    end.
Proof.
  intros Hd. unfold readHookCallsOnce. rewrite Hd, read_entries_spec.
  by destruct (head _).
Qed.

(** Sorted lists of records with the same elements list the same sequence
    numbers, and are equal when no number repeats. *)
Lemma sorted_seq_unique calls1 calls2 :
  Sorted seq_le calls1 -> Sorted seq_le calls2 -> calls1 ≡ₚ calls2 ->
  map Seq calls1 = map Seq calls2.
Proof.
  intros H1 H2 Hp.
  apply (Sorted_unique Z.le).
  - eapply (Sorted_fmap Seq seq_le Z.le); [|exact H1]. done.
  - eapply (Sorted_fmap Seq seq_le Z.le); [|exact H2]. done.
  - by apply fmap_Permutation.
Qed.

Lemma NoDup_map_Seq_inj calls c1 c2 :
  NoDup (map Seq calls) -> c1 ∈ calls -> c2 ∈ calls -> Seq c1 = Seq c2 -> c1 = c2.
Proof.
  induction calls as [|c calls IH]; intros Hnd H1 H2 Heq.
  - by apply elem_of_nil in H1.
  - simpl in Hnd. apply NoDup_cons in Hnd as [Hnotin Hnd].
    apply elem_of_cons in H1 as [->|H1]; apply elem_of_cons in H2 as [->|H2].
    + done.
    + exfalso. apply Hnotin. rewrite Heq. apply list_elem_of_fmap. eauto.
    + exfalso. apply Hnotin. rewrite <- Heq. apply list_elem_of_fmap. eauto.
    + by apply IH.
Qed.

Lemma sorted_calls_unique calls1 calls2 :
  NoDup (map Seq calls1) ->
  Sorted seq_le calls1 -> Sorted seq_le calls2 -> calls1 ≡ₚ calls2 ->
  calls1 = calls2.
Proof.
  intros Hnd H1 H2 Hp.
  assert (Transitive seq_le) by (intros a b c; unfold seq_le; lia).
  apply (Sorted_unique_strong seq_le); [|done..].
  intros x1 x2 Hx1 Hx2 Hle1 Hle2. rewrite <- Hp in Hx2.
  apply (NoDup_map_Seq_inj calls1); [done..|]. unfold seq_le in *. lia.
Qed.

Lemma entry_error_None_hook fs dir ent :
  entry_error fs dir ent = None ->
  hook_of fs dir ent = None <-> is_record ent = false.
Proof.
  intros He. split; [|apply hook_of_not_record].
  revert He. unfold entry_error, unreadable, malformed, hook_of, is_record.
  destruct (IsDir ent); [done|]. simpl.
  destruct (Atoi _) as [seq|]; simpl; [|done].
  destruct (ReadFile fs _) as [b|]; simpl; [|done].
  destruct (Unmarshal_hookCallJSON b); simpl; done.
Qed.

Lemma seq_of_hooks fs dir entries :
  (forall ent, ent ∈ entries -> entry_error fs dir ent = None) ->
  map Seq (omap (hook_of fs dir) entries) = omap seq_of_entry entries
  /\ map Path (omap (hook_of fs dir) entries)
     = map (fun ent => Join dir (Name ent)) (filter (fun ent => is_record ent = true) entries).
Proof.
  induction entries as [|ent entries IH]; intros Hok; [done|].
  destruct IH as [IH1 IH2]; [intros e He; apply Hok; by right|].
  specialize (Hok ent (list_elem_of_here _ _)).
  pose proof (entry_error_None_hook fs dir ent Hok) as Hiff.
  cbn [omap list_omap]. rewrite filter_cons.
  destruct (hook_of fs dir ent) as [c|] eqn:Hc.
  - apply hook_of_Some in Hc as Hc'. destruct Hc' as (Hd & Ha & Hp & _).
    assert (is_record ent = true) as Hr.
    { destruct (is_record ent) eqn:E; [done|].
      destruct Hiff as [_ Hi]. by specialize (Hi eq_refl). }
    rewrite decide_True by done. unfold seq_of_entry at 1. rewrite Hd, Ha.
    simpl. by rewrite IH1, IH2, Hp.
  - assert (is_record ent = false) as Hr by (by apply Hiff).
    rewrite decide_False by (by rewrite Hr). unfold seq_of_entry at 1.
    unfold is_record in Hr. destruct (IsDir ent); simpl in *; [done|].
    apply bool_decide_eq_false in Hr. destruct (Atoi _); [|done].
    destruct Hr. by eexists.
Qed.

(** C5. When every record file of the listing can be read and decoded, one
    scan returns exactly the records of the non-directory entries whose
    stem parses as an integer (every other entry is skipped), sorted by the
    number decoded from the file name; the numbers returned are the sorted
    stems whatever order the listing has, and the records themselves are the
    same for every listing order when no number repeats. *)
Theorem readHookCallsOnce_sorted_records fs dir entries :
  ReadDir fs dir = Some entries ->
  (forall ent, ent ∈ entries -> entry_error fs dir ent = None) ->
  exists calls,
    readHookCallsOnce fs dir = Ok calls
    /\ calls ≡ₚ omap (hook_of fs dir) entries
    /\ map Path calls ≡ₚ
         map (fun ent => Join dir (Name ent))
             (filter (fun ent => is_record ent = true) entries)
    /\ Sorted seq_le calls
    /\ map Seq calls = merge_sort Z.le (omap seq_of_entry entries)
    /\ (forall fs' entries' calls',
          ReadDir fs' dir = Some entries' ->
          entries' ≡ₚ entries ->
          (forall p, ReadFile fs' p = ReadFile fs p) ->
          readHookCallsOnce fs' dir = Ok calls' ->
          map Seq calls' = map Seq calls
          /\ (NoDup (map Seq calls) -> calls' = calls)).
Proof.
  intros Hd Hok.
  assert (Hhead : head (omap (entry_error fs dir) entries) = None).
  { assert (omap (entry_error fs dir) entries = []) as ->; [|done].
    clear Hd. induction entries as [|ent entries IH]; [done|].
    cbn [omap list_omap]. rewrite Hok by left. apply IH.
    intros e He. apply Hok. by right. }
  exists (sort_Slice (omap (hook_of fs dir) entries)).
  pose proof (sort_Slice_perm (omap (hook_of fs dir) entries)) as Hperm.
  pose proof (sort_Slice_sorted (omap (hook_of fs dir) entries)) as Hsorted.
  destruct (seq_of_hooks fs dir entries Hok) as [Hseq Hpath].
  split; [by rewrite (readHookCallsOnce_spec fs dir entries Hd), Hhead|].
  split; [done|]. split; [by rewrite Hperm, Hpath|]. split; [done|]. split.
  - apply (Sorted_unique Z.le).
    + eapply (Sorted_fmap Seq seq_le Z.le); [|exact Hsorted]. done.
    + apply (Sorted_merge_sort Z.le).
    + rewrite merge_sort_Permutation, <- Hseq. by apply fmap_Permutation.
  - intros fs' entries' calls' Hd' Hpe Hrf Hres'.
    assert (Hhook : forall ent, hook_of fs' dir ent = hook_of fs dir ent).
    { intros ent. unfold hook_of. by rewrite Hrf. }
    assert (Herr : forall ent, entry_error fs' dir ent = entry_error fs dir ent).
    { intros ent. unfold entry_error, unreadable, malformed. by rewrite Hrf. }
    rewrite (readHookCallsOnce_spec fs' dir entries' Hd') in Hres'.
    destruct (head (omap (entry_error fs' dir) entries')); [done|].
    injection Hres' as <-.
    assert (Hp2 : sort_Slice (omap (hook_of fs' dir) entries')
                  ≡ₚ sort_Slice (omap (hook_of fs dir) entries)).
    { rewrite !sort_Slice_perm.
      rewrite (list_omap_ext (hook_of fs' dir) (hook_of fs dir) entries' entries');
        [by rewrite Hpe|]. apply Forall2_same_length_lookup_2; [done|].
      intros i x y Hx Hy. rewrite Hx in Hy. injection Hy as <-. apply Hhook. }
    split.
    + apply sorted_seq_unique; [apply sort_Slice_sorted..|done].
    + intros Hnd. symmetry. apply sorted_calls_unique; [done|done| |done].
      apply sort_Slice_sorted.
Qed.

(** The first entry of a listing that makes the scan fail. *)
Lemma first_failure_split fs dir entries ent :
  ent ∈ entries -> is_Some (entry_error fs dir ent) ->
  exists pre bad post err,
    entries = pre ++ bad :: post
    /\ (forall e, e ∈ pre -> entry_error fs dir e = None)
    /\ entry_error fs dir bad = Some err
    /\ head (omap (entry_error fs dir) entries) = Some err.
Proof.
  induction entries as [|x entries IH]; intros Hin Herr.
  - by apply elem_of_nil in Hin.
  - destruct (entry_error fs dir x) as [err|] eqn:Hx.
    + exists [], x, entries, err. cbn [omap list_omap]. rewrite Hx.
      repeat split; try done. intros e He. by apply elem_of_nil in He.
    + apply elem_of_cons in Hin as [->|Hin].
      { rewrite Hx in Herr. by destruct Herr. }
      destruct (IH Hin Herr) as (pre & bad & post & err & -> & Hpre & Hbad & Hhd).
      exists (x :: pre), bad, post, err. cbn [omap list_omap]. rewrite Hx.
      repeat split; try done.
      intros e He. apply elem_of_cons in He as [->|He]; auto.
Qed.

(** An error stops the loop of [listHookCalls] in the turn of the scan
    that produced it. *)
Lemma listHookCalls_loop_scan_error fuel world dir wantAtLeast deadline i
    lastCount stableSince e :
  readHookCallsOnce (tick_fs (world i)) dir = Err e ->
  listHookCalls_loop (S fuel) world dir wantAtLeast deadline i lastCount stableSince
  = Some (i, Err e).
Proof. intros He. cbn [listHookCalls_loop]. unfold turn. by rewrite He. Qed.

(** The error of the first record file that fails is the error of the
    scan. *)
Lemma first_failure_head fs dir pre bad post err :
  (forall e, e ∈ pre -> entry_error fs dir e = None) ->
  entry_error fs dir bad = Some err ->
  head (omap (entry_error fs dir) (pre ++ bad :: post)) = Some err.
Proof.
  intros Hpre Hbad. rewrite omap_app.
  assert (omap (entry_error fs dir) pre = []) as ->.
  { induction pre as [|x pre IH]; [done|].
    cbn [omap list_omap]. rewrite (Hpre x) by left.
    apply IH. intros e He. apply Hpre. by right. }
  cbn [app omap list_omap]. by rewrite Hbad.
Qed.

(** A record file whose content does not decode was read: its error is
    the parse error of its path. *)
Lemma malformed_entry_error fs dir ent :
  malformed fs dir ent = true ->
  entry_error fs dir ent = Some (ErrParseHookRecord (Join dir (Name ent))).
Proof.
  intros Hbad. unfold entry_error. rewrite Hbad.
  unfold malformed in Hbad. unfold unreadable.
  destruct (is_record ent); [|done].
  destruct (ReadFile fs (Join dir (Name ent))); [|done].
  by rewrite bool_decide_eq_false_2.
Qed.

(** C7. A scan that meets a record file whose content does not decode
    fails, and [listHookCalls] returns the error of the scan in the turn of
    that very scan, without another scan.  The error is that of the first
    record file of the listing that fails: the malformed file itself, with
    the parse error that names its path, whenever no record file before it
    in the listing fails, whatever follows it (an unreadable file
    included); otherwise the read error or the parse error that names the
    path of the earlier file.  When the record files can all be read, it is
    the parse error of the first malformed file. *)
Theorem malformed_record_is_fatal fs dir entries ent :
  ReadDir fs dir = Some entries ->
  ent ∈ entries ->
  malformed fs dir ent = true ->
  (exists pre bad post err,
      entries = pre ++ bad :: post
      /\ (forall e, e ∈ pre -> entry_error fs dir e = None)
      /\ entry_error fs dir bad = Some err
      /\ (err = ErrReadFile (Join dir (Name bad))
          \/ err = ErrParseHookRecord (Join dir (Name bad)))
      /\ readHookCallsOnce fs dir = Err err
      /\ forall fuel world wantAtLeast deadline i lastCount stableSince,
           tick_fs (world i) = fs ->
           listHookCalls_loop (S fuel) world dir wantAtLeast deadline i
             lastCount stableSince
           = Some (i, Err err))
  /\ (forall pre post,
        entries = pre ++ ent :: post ->
        (forall e, e ∈ pre -> entry_error fs dir e = None) ->
        readHookCallsOnce fs dir = Err (ErrParseHookRecord (Join dir (Name ent)))
        /\ forall fuel world wantAtLeast deadline i lastCount stableSince,
             tick_fs (world i) = fs ->
             listHookCalls_loop (S fuel) world dir wantAtLeast deadline i
               lastCount stableSince
             = Some (i, Err (ErrParseHookRecord (Join dir (Name ent)))))
  /\ ((forall e, e ∈ entries -> unreadable fs dir e = false) ->
      exists pre bad post,
        entries = pre ++ bad :: post
        /\ malformed fs dir bad = true
        /\ (forall e, e ∈ pre -> malformed fs dir e = false)
        /\ readHookCallsOnce fs dir = Err (ErrParseHookRecord (Join dir (Name bad)))
        /\ forall fuel world wantAtLeast deadline i lastCount stableSince,
             tick_fs (world i) = fs ->
             listHookCalls_loop (S fuel) world dir wantAtLeast deadline i
               lastCount stableSince
             = Some (i, Err (ErrParseHookRecord (Join dir (Name bad))))).
Proof.
  intros Hd Hin Hbad.
  pose proof (malformed_entry_error fs dir ent Hbad) as Hent.
  assert (is_Some (entry_error fs dir ent)) as Herr by (by rewrite Hent).
  destruct (first_failure_split fs dir entries ent Hin Herr)
    as (pre & bad & post & err & Hsplit & Hpre & Hfail & Hhd).
  assert (Hres : readHookCallsOnce fs dir = Err err)
    by (by rewrite (readHookCallsOnce_spec fs dir entries Hd), Hhd).
  split; [|split].
  - exists pre, bad, post, err. repeat split; try done.
    + unfold entry_error in Hfail.
      destruct (unreadable fs dir bad); [left; congruence|].
      destruct (malformed fs dir bad); [right; congruence|done].
    + intros fuel world wantAtLeast deadline i lastCount stableSince <-.
      by apply listHookCalls_loop_scan_error.
  - intros pre' post' Hsplit' Hpre'.
    assert (Hres' : readHookCallsOnce fs dir
                    = Err (ErrParseHookRecord (Join dir (Name ent)))).
    { rewrite (readHookCallsOnce_spec fs dir entries Hd), Hsplit'.
      by rewrite (first_failure_head fs dir pre' ent post' _ Hpre' Hent). }
    split; [done|].
    intros fuel world wantAtLeast deadline i lastCount stableSince <-.
    by apply listHookCalls_loop_scan_error.
  - intros Hreadable. exists pre, bad, post.
    assert (unreadable fs dir bad = false) as Hr.
    { apply Hreadable. rewrite Hsplit. apply elem_of_app. right. by left. }
    unfold entry_error in Hfail. rewrite Hr in Hfail.
    destruct (malformed fs dir bad) eqn:Hm; [|done]. injection Hfail as <-.
    repeat split; try done.
    + intros e He. specialize (Hpre e He). unfold entry_error in Hpre.
      destruct (unreadable fs dir e); [done|]. by destruct (malformed fs dir e).
    + intros fuel world wantAtLeast deadline i lastCount stableSince <-.
      by apply listHookCalls_loop_scan_error.
Qed.

End scan.

(** ** The polling loop *)

Section polling.
Context {sorter : SortSlice}.
Variables (world : nat -> Tick) (dir : string) (wantAtLeast deadline : Z).

Local Abbreviation loop fuel := (listHookCalls_loop fuel world dir wantAtLeast deadline).
Local Abbreviation spec fuel := (collect_spec fuel world dir wantAtLeast deadline).

(** Below the minimum the code leaves [stableSince] as it is where the
    specification resets it; the difference is never observed, because the
    first count at or above the minimum differs from [lastCount]. *)
Lemma turn_refines t lastCount stableSince stableSince' :
  stableSince = stableSince' \/ lastCount < wantAtLeast ->
  match turn t dir wantAtLeast deadline lastCount stableSince,
        spec_turn t dir wantAtLeast deadline lastCount stableSince' with
  | inl r, inl r' => r = r'
  | inr (n, s), inr (n', s') => n = n' /\ (s = s' \/ n < wantAtLeast)
  | _, _ => False
  end.
Proof.
  intros Hrel. unfold turn, spec_turn.
  destruct (readHookCallsOnce (tick_fs t) dir) as [calls|e]; [|done].
  set (n := Z.of_nat (length calls)).
  destruct (Z.leb_spec wantAtLeast n) as [Hge|Hlt];
    destruct (Z.ltb_spec n wantAtLeast) as [Hlt'|Hge']; try lia.
  - destruct (Z.eqb_spec n lastCount) as [Heq|Hne]; simpl.
    + assert (stableSince = stableSince') as <- by lia.
      destruct (stableSince =? 0); [by destruct (deadline <? _); auto|].
      destruct (quietFor <=? _); [done|]. by destruct (deadline <? _); auto.
    + by destruct (deadline <? _); auto.
  - by destruct (deadline <? _); auto.
Qed.

Lemma loop_refines fuel : forall i lastCount stableSince stableSince',
  stableSince = stableSince' \/ lastCount < wantAtLeast ->
  loop fuel i lastCount stableSince = spec fuel i lastCount stableSince'.
Proof.
  induction fuel as [|fuel IH]; intros i lc ss ss' Hrel; [done|].
  cbn [listHookCalls_loop collect_spec].
  pose proof (turn_refines (world i) lc ss ss' Hrel) as Ht.
  destruct (turn _ _ _ _ _ _) as [r|[n s]], (spec_turn _ _ _ _ _ _) as [r'|[n' s']];
    try done.
  - by subst.
  - destruct Ht as [<- Ht]. by apply IH.
Qed.

Lemma entered_start : entered world dir wantAtLeast 0 0 0.
Proof. split; [done|]. by intros []. Qed.

Lemma spec_turn_entered i lastCount stableSince n s :
  entered world dir wantAtLeast i lastCount stableSince ->
  spec_turn (world i) dir wantAtLeast deadline lastCount stableSince = inr (n, s) ->
  entered world dir wantAtLeast (S i) n s /\ tick_deadline (world i) <= deadline.
Proof.
  intros [Hlc Hss]. unfold spec_turn, entered. cbn [count_before]. unfold count_at.
  destruct (readHookCallsOnce (tick_fs (world i)) dir) as [calls|e] eqn:Hscan; [|done].
  set (k := Z.of_nat (length calls)).
  assert (Hcont : forall s0 n0 s1,
    (if deadline <? tick_deadline (world i)
     then inl (Err (ErrTimedOut wantAtLeast dir k))
     else inr (k, s0)) = (inr (n0, s1) : result (list hookCall) + (Z * Z)) ->
    n0 = k /\ s1 = s0 /\ tick_deadline (world i) <= deadline).
  { intros s0 n0 s1. destruct (Z.ltb_spec deadline (tick_deadline (world i)));
      [done|]. intros [= <- <-]. auto. }
  destruct (Z.ltb_spec k wantAtLeast) as [Hlt|Hge].
  { intros (-> & -> & Hd)%Hcont. by repeat split. }
  destruct (Z.eqb_spec k lastCount) as [Heq|Hne]; simpl.
  2:{ intros (-> & -> & Hd)%Hcont. by repeat split. }
  destruct (Z.eqb_spec stableSince 0) as [Hz|Hnz].
  - intros (-> & -> & Hd)%Hcont. repeat split; try done.
    exists i. repeat split; [lia|].
    intros m Hm. assert (m = i \/ m = S i) as [->| ->] by lia.
    + by rewrite Hlc, Heq.
    + simpl. unfold count_at. by rewrite Hscan.
  - destruct (quietFor <=? _); [done|].
    intros (-> & -> & Hd)%Hcont. repeat split; try done.
    destruct (Hss Hnz) as (Hw & j & Hj & Hsj & Hrun).
    exists j. repeat split; [lia|done|].
    intros m Hm. destruct (decide (m = S i)) as [->|Hne].
    + simpl. unfold count_at. by rewrite Hscan.
    + rewrite Heq. apply Hrun. lia.
Qed.

Lemma readHookCallsOnce_sorted fs calls :
  readHookCallsOnce fs dir = Ok calls -> Sorted seq_le calls.
Proof.
  unfold readHookCallsOnce. destruct (ReadDir fs dir); [|done].
  destruct (read_entries _ _ _ _); [|done]. intros [= <-]. apply sort_Slice_sorted.
Qed.

Lemma readHookCallsOnce_no_timeout fs w d n :
  readHookCallsOnce fs dir <> Err (ErrTimedOut w d n).
Proof.
  unfold readHookCallsOnce. destruct (ReadDir fs dir) as [entries|]; [|done].
  rewrite read_entries_spec.
  destruct (head _) as [e|] eqn:He; [|done].
  apply head_Some_elem_of, list_elem_of_omap in He as (ent & _ & He).
  unfold entry_error in He. intros [= ->].
  destruct (unreadable _ _ _); [done|]. by destruct (malformed _ _ _).
Qed.

Lemma spec_turn_returns i lastCount stableSince r :
  entered world dir wantAtLeast i lastCount stableSince ->
  spec_turn (world i) dir wantAtLeast deadline lastCount stableSince = inl r ->
  match r with
  | Ok calls => stable_return world dir wantAtLeast i calls
  | Err (ErrTimedOut w d n) =>
      w = wantAtLeast /\ d = dir /\ count_at world dir i = Some n
      /\ deadline < tick_deadline (world i)
  | Err e => readHookCallsOnce (tick_fs (world i)) dir = Err e
  end.
Proof.
  intros [Hlc Hss]. unfold spec_turn, stable_return, count_at.
  destruct (readHookCallsOnce (tick_fs (world i)) dir) as [calls|e] eqn:Hscan.
  2:{ intros [= <-]. destruct e; try done.
      by apply readHookCallsOnce_no_timeout in Hscan. }
  set (k := Z.of_nat (length calls)).
  assert (Hcont : forall s0,
    (if deadline <? tick_deadline (world i)
     then inl (Err (ErrTimedOut wantAtLeast dir k))
     else inr (k, s0)) = (inl r : result (list hookCall) + (Z * Z)) ->
    r = Err (ErrTimedOut wantAtLeast dir k) /\ deadline < tick_deadline (world i)).
  { intros s0. destruct (Z.ltb_spec deadline (tick_deadline (world i)));
      [|done]. by intros [= <-]. }
  destruct (Z.ltb_spec k wantAtLeast) as [Hlt|Hge]; [by intros [-> ?]%Hcont|].
  destruct (Z.eqb_spec k lastCount) as [Heq|Hne]; simpl; [|by intros [-> ?]%Hcont].
  destruct (Z.eqb_spec stableSince 0) as [Hz|Hnz]; [by intros [-> ?]%Hcont|].
  destruct (Z.leb_spec quietFor (tick_stable (world i) - stableSince)) as [Hq|Hq];
    [|by intros [-> ?]%Hcont].
  intros [= <-]. destruct (Hss Hnz) as (Hw & j & Hj & Hsj & Hrun).
  repeat split; try done.
  - by eapply readHookCallsOnce_sorted.
  - exists j. repeat split; [done| |by rewrite <- Hsj].
    intros m Hm. destruct (decide (m = S i)) as [->|Hne].
    + simpl. unfold count_at. by rewrite Hscan.
    + fold k. rewrite Heq. apply Hrun. lia.
Qed.

Lemma spec_result fuel : forall i lastCount stableSince k r,
  entered world dir wantAtLeast i lastCount stableSince ->
  (forall m, (m < i)%nat -> tick_deadline (world m) <= deadline) ->
  spec fuel i lastCount stableSince = Some (k, r) ->
  (i <= k)%nat
  /\ (forall m, (m < k)%nat -> tick_deadline (world m) <= deadline)
  /\ match r with
     | Ok calls => stable_return world dir wantAtLeast k calls
     | Err (ErrTimedOut w d n) =>
         w = wantAtLeast /\ d = dir /\ count_at world dir k = Some n
         /\ deadline < tick_deadline (world k)
     | Err e => readHookCallsOnce (tick_fs (world k)) dir = Err e
     end.
Proof.
  induction fuel as [|fuel IH]; intros i lc ss k r Hent Hpast; [done|].
  cbn [collect_spec].
  destruct (spec_turn _ _ _ _ _ _) as [r'|[n s]] eqn:Ht.
  - intros [= <- <-]. split; [done|]. split; [done|].
    by apply (spec_turn_returns i lc ss).
  - intros Hrun. apply spec_turn_entered in Ht as [Hent' Hd]; [|done].
    apply IH in Hrun as (Hik & Hpast' & Hr); [|done|].
    + split; [lia|done].
    + intros m Hm. destruct (decide (m = i)) as [->|]; [done|]. apply Hpast. lia.
Qed.

(** A turn whose deadline test reads a clock past the deadline returns. *)
Lemma turn_past_deadline i lastCount stableSince :
  deadline < tick_deadline (world i) ->
  exists r, turn (world i) dir wantAtLeast deadline lastCount stableSince = inl r.
Proof.
  intros Hd. unfold turn.
  destruct (readHookCallsOnce _ _) as [calls|e]; [|by eexists].
  apply Z.ltb_lt in Hd. rewrite Hd.
  destruct (_ <=? _); [|by eexists].
  destruct (_ =? lastCount); [|by eexists].
  destruct (_ =? 0); [by eexists|]. destruct (_ <=? _); by eexists.
Qed.

Lemma loop_terminates (bound : nat) :
  (forall i, (bound <= i)%nat -> deadline < tick_deadline (world i)) ->
  forall fuel i lastCount stableSince,
    (bound - i < fuel)%nat ->
    exists k r, loop fuel i lastCount stableSince = Some (k, r)
                /\ (k <= Nat.max bound i)%nat.
Proof.
  intros Hclock. induction fuel as [|fuel IH]; intros i lc ss Hfuel; [lia|].
  cbn [listHookCalls_loop].
  destruct (turn _ _ _ _ _ _) as [r|[n s]] eqn:Ht.
  - exists i, r. split; [done|lia].
  - destruct (decide (bound <= i)%nat) as [Hbi|Hbi].
    + destruct (turn_past_deadline i lc ss (Hclock i Hbi)) as [r Hr]. congruence.
    + destruct (IH (S i) n s) as (k & r & Hk & Hle); [lia|].
      exists k, r. split; [done|lia].
Qed.

(** Fuel only bounds the number of turns. *)
Lemma spec_index fuel : forall i lastCount stableSince k r,
  spec fuel i lastCount stableSince = Some (k, r) -> (i <= k < i + fuel)%nat.
Proof.
  induction fuel as [|fuel IH]; intros i lc ss k r; [done|].
  cbn [collect_spec]. destruct (spec_turn _ _ _ _ _ _) as [r'|[n s]].
  - intros [= <- <-]. lia.
  - intros H%IH. lia.
Qed.

Lemma spec_more_fuel fuel : forall i lastCount stableSince x,
  spec fuel i lastCount stableSince = Some x ->
  spec (S fuel) i lastCount stableSince = Some x.
Proof.
  induction fuel as [|fuel IH]; intros i lc ss x; [done|].
  intros H. cbn [collect_spec] in H. change (spec (S (S fuel)) i lc ss) with
    (match spec_turn (world i) dir wantAtLeast deadline lc ss with
     | inl r => Some (i, r)
     | inr (lc', ss') => spec (S fuel) (S i) lc' ss'
     end).
  destruct (spec_turn _ _ _ _ _ _) as [r'|[n s]]; [done|]. by apply IH.
Qed.

Section exact.
(** The clock never reads the zero instant, which [stableSince] uses for
    "not set". *)
Hypothesis clock_set : forall m, tick_stable (world m) <> 0.

Lemma timer_state_start : timer_state world dir wantAtLeast 0 0 0.
Proof. split; [done|]. left. auto. Qed.

Lemma timer_started_unique j j' i n :
  timer_started world dir j i n -> timer_started world dir j' i n -> j = j'.
Proof.
  intros (Hj & Hrun & Hmin) (Hj' & Hrun' & Hmin').
  destruct (Nat.lt_trichotomy j j') as [Hlt|[->|Hlt]]; [|done|].
  - destruct Hmin' as [->|(p & -> & Hp)]; [lia|]. destruct Hp. apply Hrun. lia.
  - destruct Hmin as [->|(p & -> & Hp)]; [lia|]. destruct Hp. apply Hrun'. lia.
Qed.

Lemma spec_turn_timer_state i lastCount stableSince n s :
  timer_state world dir wantAtLeast i lastCount stableSince ->
  spec_turn (world i) dir wantAtLeast deadline lastCount stableSince = inr (n, s) ->
  timer_state world dir wantAtLeast (S i) n s.
Proof.
  intros [Hlc Hss]. unfold spec_turn, timer_state. cbn [count_before]. unfold count_at.
  destruct (readHookCallsOnce (tick_fs (world i)) dir) as [calls|e] eqn:Hscan; [|done].
  set (k := Z.of_nat (length calls)).
  assert (Hcont : forall s0 n0 s1,
    (if deadline <? tick_deadline (world i)
     then inl (Err (ErrTimedOut wantAtLeast dir k))
     else inr (k, s0)) = (inr (n0, s1) : result (list hookCall) + (Z * Z)) ->
    n0 = k /\ s1 = s0).
  { intros s0 n0 s1. destruct (deadline <? _); [done|]. by intros [= <- <-]. }
  assert (Hnext : count_before world dir (S i) = Some k)
    by (simpl; unfold count_at; by rewrite Hscan).
  destruct (Z.ltb_spec k wantAtLeast) as [Hlt|Hge].
  { intros (-> & ->)%Hcont. split; [done|]. left. auto. }
  destruct (Z.eqb_spec k lastCount) as [Heq|Hne]; simpl.
  2:{ intros (-> & ->)%Hcont. split; [done|]. left. split; [done|].
      right. right. exists i. split; [done|]. rewrite Hlc. congruence. }
  destruct (Z.eqb_spec stableSince 0) as [Hz|Hnz].
  - intros (-> & ->)%Hcont. split; [done|]. right.
    split; [apply clock_set|]. split; [done|]. exists i. split; [|done].
    split; [lia|]. split.
    + intros m Hm. assert (m = i \/ m = S i) as [->| ->] by lia;
        [by rewrite Hlc, Heq|done].
    + destruct Hss as [(_ & Hoff)|(Hnz & _)]; [|done].
      destruct Hoff as [->|[Hlt|(i' & -> & Hi')]]; [by left|lia|].
      right. exists i'. split; [done|]. by rewrite Heq.
  - destruct (quietFor <=? _); [done|].
    intros (-> & ->)%Hcont. split; [done|]. right.
    destruct Hss as [(Hz & _)|(_ & Hw & j & (Hj & Hrun & Hmin) & Hsj)]; [done|].
    split; [done|]. split; [done|]. exists j. split; [|done].
    split; [lia|]. split.
    + intros m Hm. destruct (decide (m = S i)) as [->|Hne]; [done|].
      rewrite Heq. apply Hrun. lia.
    + by rewrite Heq.
Qed.

(** In a turn entered in such a state the sorted set is returned exactly
    when the count is at or above the minimum and has been the same since
    the timer was started, at least the quiet duration ago. *)
Lemma spec_turn_stable_iff i lastCount stableSince calls :
  timer_state world dir wantAtLeast i lastCount stableSince ->
  spec_turn (world i) dir wantAtLeast deadline lastCount stableSince = inl (Ok calls)
  <-> stable_since_timer world dir wantAtLeast i calls.
Proof.
  intros [Hlc Hss]. unfold spec_turn, stable_since_timer.
  destruct (readHookCallsOnce (tick_fs (world i)) dir) as [calls'|e] eqn:Hscan.
  2:{ split; [done|]. by intros [? _]. }
  set (k := Z.of_nat (length calls')).
  assert (Hnext : count_before world dir (S i) = Some k)
    by (simpl; unfold count_at; by rewrite Hscan).
  assert (Hcont : forall s0,
    (if deadline <? tick_deadline (world i)
     then inl (Err (ErrTimedOut wantAtLeast dir k))
     else inr (k, s0)) <> (inl (Ok calls) : result (list hookCall) + (Z * Z))).
  { intros s0. by destruct (deadline <? _). }
  assert (Hk : forall j, timer_started world dir j (S i) (Z.of_nat (length calls)) ->
               Ok calls' = Ok calls -> (j < S i)%nat ->
               count_before world dir i = Some k).
  { intros j (_ & Hrun & _) [= ->] Hj. apply Hrun. lia. }
  destruct (Z.ltb_spec k wantAtLeast) as [Hlt|Hge].
  { split; [by intros ?%Hcont|]. intros ([= ->] & Hw & _). subst k. lia. }
  destruct (Z.eqb_spec k lastCount) as [Heq|Hne]; simpl.
  2:{ split; [by intros ?%Hcont|].
      intros (Hc & _ & j & Hj & Hst & _). destruct Hne.
      specialize (Hk j Hst Hc ltac:(lia)). rewrite Hlc in Hk. congruence. }
  destruct Hss as [(-> & Hoff)|(Hnz & Hw & j & Hst & Hsj)].
  - simpl. split; [by intros ?%Hcont|].
    intros ([= <-] & _ & j & Hj & (_ & Hrun & _) & _). fold k in Hrun.
    destruct Hoff as [->|[Hlt|(i' & -> & Hi')]]; [lia|lia|].
    destruct Hi'. rewrite <- Heq. apply Hrun. lia.
  - destruct (Z.eqb_spec stableSince 0) as [|_]; [done|].
    assert (Hst' : timer_started world dir j (S i) k).
    { destruct Hst as (Hj & Hrun & Hmin). split; [lia|]. split.
      - intros m Hm. destruct (decide (m = S i)) as [->|]; [done|].
        rewrite Heq. apply Hrun. lia.
      - by rewrite Heq. }
    destruct (Z.leb_spec quietFor (tick_stable (world i) - stableSince)) as [Hq|Hq].
    + split.
      * intros [= <-]. split; [done|]. split; [done|].
        exists j. destruct Hst as (Hj & _). split; [done|]. split; [done|]. lia.
      * intros ([= <-] & _). done.
    + split; [by intros ?%Hcont|].
      intros ([= <-] & _ & j' & Hj' & Hst'' & Hquiet). fold k in Hst''.
      rewrite (timer_started_unique j j' (S i) k Hst' Hst'') in Hsj. lia.
Qed.

Lemma spec_unroll k : forall i lastCount stableSince,
  timer_state world dir wantAtLeast i lastCount stableSince ->
  spec k i lastCount stableSince = None ->
  exists lastCount' stableSince',
    timer_state world dir wantAtLeast (k + i) lastCount' stableSince'
    /\ forall fuel, spec (k + fuel) i lastCount stableSince
                    = spec fuel (k + i) lastCount' stableSince'.
Proof.
  induction k as [|k IH]; intros i lc ss Hst Hnone; [by exists lc, ss|].
  cbn [collect_spec] in Hnone.
  destruct (spec_turn (world i) dir wantAtLeast deadline lc ss) as [r|[n s]] eqn:Ht;
    [done|].
  destruct (IH (S i) n s) as (lc' & ss' & Hst' & Hrun);
    [by eapply spec_turn_timer_state|done|].
  exists lc', ss'. replace (S k + i)%nat with (k + S i)%nat by lia.
  split; [done|]. intros fuel. rewrite <- Hrun.
  change (S k + fuel)%nat with (S (k + fuel)). cbn [collect_spec]. by rewrite Ht.
Qed.

(** The loop returns the sorted set in turn [k] exactly when it is still
    running on entering turn [k] and the set is stable there. *)
Lemma spec_stable_iff k calls :
  spec (S k) 0%nat 0 0 = Some (k, Ok calls)
  <-> spec k 0%nat 0 0 = None /\ stable_since_timer world dir wantAtLeast k calls.
Proof.
  split.
  - intros Hres.
    assert (Hnone : spec k 0%nat 0 0 = None).
    { destruct (spec k 0%nat 0 0) as [[k' r']|] eqn:Hk; [|done].
      apply spec_index in Hk as Hidx. apply spec_more_fuel in Hk.
      rewrite Hk in Hres. injection Hres as -> _. lia. }
    split; [done|].
    destruct (spec_unroll k 0%nat 0 0 timer_state_start Hnone)
      as (lc & ss & Hst & Hrun).
    specialize (Hrun 1%nat). rewrite Nat.add_1_r, Nat.add_0_r in Hrun.
    rewrite Hrun in Hres. rewrite Nat.add_0_r in Hst. cbn [collect_spec] in Hres.
    destruct (spec_turn (world k) dir wantAtLeast deadline lc ss) as [r|[n s]] eqn:Ht;
      [|done].
    injection Hres as ->. by apply (spec_turn_stable_iff k lc ss calls Hst).
  - intros [Hnone Hstable].
    destruct (spec_unroll k 0%nat 0 0 timer_state_start Hnone)
      as (lc & ss & Hst & Hrun).
    specialize (Hrun 1%nat). rewrite Nat.add_1_r, Nat.add_0_r in Hrun.
    rewrite Hrun. rewrite Nat.add_0_r in Hst. cbn [collect_spec].
    apply (spec_turn_stable_iff k lc ss calls Hst) in Hstable. by rewrite Hstable.
Qed.

(** The three ways a turn whose scan succeeds can end. *)
Lemma spec_turn_cases i lastCount stableSince calls :
  readHookCallsOnce (tick_fs (world i)) dir = Ok calls ->
  let st := spec_turn (world i) dir wantAtLeast deadline lastCount stableSince in
  st = inl (Ok calls)
  \/ (st = inl (Err (ErrTimedOut wantAtLeast dir (Z.of_nat (length calls))))
      /\ deadline < tick_deadline (world i))
  \/ (exists s, st = inr (Z.of_nat (length calls), s)
       /\ tick_deadline (world i) <= deadline).
Proof.
  intros Hscan. unfold spec_turn. rewrite Hscan.
  destruct (Z.ltb_spec deadline (tick_deadline (world i))) as [Hd|Hd];
    destruct (_ <? wantAtLeast); simpl; eauto;
    destruct (negb _); simpl; eauto;
    destruct (stableSince =? 0); simpl; eauto;
    destruct (quietFor <=? _); simpl; eauto.
Qed.

Lemma spec_timeout_iff k w d n :
  spec (S k) 0%nat 0 0 = Some (k, Err (ErrTimedOut w d n))
  <-> spec k 0%nat 0 0 = None
      /\ w = wantAtLeast /\ d = dir /\ deadline < tick_deadline (world k)
      /\ exists calls, readHookCallsOnce (tick_fs (world k)) dir = Ok calls
           /\ n = Z.of_nat (length calls)
           /\ ~ stable_since_timer world dir wantAtLeast k calls.
Proof.
  split.
  - intros Hres.
    assert (Hnone : spec k 0%nat 0 0 = None).
    { destruct (spec k 0%nat 0 0) as [[k' r']|] eqn:Hk; [|done].
      apply spec_index in Hk as Hidx. apply spec_more_fuel in Hk.
      rewrite Hk in Hres. injection Hres as -> _. lia. }
    split; [done|].
    destruct (spec_unroll k 0%nat 0 0 timer_state_start Hnone)
      as (lc & ss & Hst & Hrun).
    specialize (Hrun 1%nat). rewrite Nat.add_1_r, Nat.add_0_r in Hrun.
    rewrite Hrun in Hres. rewrite Nat.add_0_r in Hst. cbn [collect_spec] in Hres.
    destruct (spec_turn (world k) dir wantAtLeast deadline lc ss) as [r|[n' s]] eqn:Ht;
      [|done].
    injection Hres as ->.
    destruct (readHookCallsOnce (tick_fs (world k)) dir) as [calls|e] eqn:Hscan.
    + destruct (spec_turn_cases k lc ss calls Hscan) as [H|[[H Hd]|(s & H & _)]];
        rewrite Ht in H; [done| |done].
      injection H as -> -> ->. repeat split; try done.
      exists calls. split; [done|]. split; [done|].
      intros Hs%(spec_turn_stable_iff k lc ss calls Hst). by rewrite Ht in Hs.
    + unfold spec_turn in Ht. rewrite Hscan in Ht. injection Ht as ->.
      by apply readHookCallsOnce_no_timeout in Hscan.
  - intros (Hnone & -> & -> & Hd & calls & Hscan & -> & Hns).
    destruct (spec_unroll k 0%nat 0 0 timer_state_start Hnone)
      as (lc & ss & Hst & Hrun).
    specialize (Hrun 1%nat). rewrite Nat.add_1_r, Nat.add_0_r in Hrun.
    rewrite Hrun. rewrite Nat.add_0_r in Hst. cbn [collect_spec].
    destruct (spec_turn_cases k lc ss calls Hscan) as [H|[[H _]|(s & H & Hle)]].
    + destruct Hns. by apply (spec_turn_stable_iff k lc ss calls Hst).
    + by rewrite H.
    + lia.
Qed.

End exact.

End polling.

(** C3. [listHookCalls] behaves as the collector of the specification: the
    two loops agree turn for turn (a count below the minimum leaves the
    code's timer untouched, which is never observed).  It returns the sorted
    set in the first turn in which the count is at or above the minimum and
    has been the same in every scan since before the stability timer was
    started, at least 200ms ago; the timer is started by the first turn that
    finds the count unchanged and is cleared by a changed count (the clock is
    taken never to read the zero instant, which the code uses for "not
    started").  Each turn tests stability before the deadline: a turn that
    does not return the set fails with the timeout error, which carries the
    minimum, the directory and that turn's count, exactly when its deadline
    test reads a clock past the deadline, and no earlier turn does.  When the
    clock advances by the sleep of each turn the call returns within
    [timeout / 25ms + 1] turns. *)
Theorem listHookCalls_quiescence {sorter : SortSlice} (world : nat -> Tick)
    (start : Z) (dir : string) (wantAtLeast timeout : Z) :
  let deadline := start + timeout in
  let collect fuel := listHookCalls fuel world start dir wantAtLeast timeout in
  (forall fuel, collect fuel = collect_spec fuel world dir wantAtLeast deadline 0%nat 0 0)
  /\ (forall fuel k calls, collect fuel = Some (k, Ok calls) ->
        Sorted seq_le calls /\ stable_return world dir wantAtLeast k calls)
  /\ ((forall m, tick_stable (world m) <> 0) ->
      forall k calls,
        collect (S k) = Some (k, Ok calls)
        <-> collect k = None /\ stable_since_timer world dir wantAtLeast k calls)
  /\ ((forall m, tick_stable (world m) <> 0) ->
      forall k w d n,
        collect (S k) = Some (k, Err (ErrTimedOut w d n))
        <-> collect k = None
            /\ w = wantAtLeast /\ d = dir /\ deadline < tick_deadline (world k)
            /\ exists calls, readHookCallsOnce (tick_fs (world k)) dir = Ok calls
                 /\ n = Z.of_nat (length calls)
                 /\ ~ stable_since_timer world dir wantAtLeast k calls)
  /\ (forall fuel k r, collect fuel = Some (k, r) ->
        forall m, (m < k)%nat -> tick_deadline (world m) <= deadline)
  /\ ((forall i, start + Z.of_nat i * pollInterval <= tick_deadline (world i)) ->
      forall fuel, (Z.to_nat (timeout / pollInterval + 1) < fuel)%nat ->
        exists k r, collect fuel = Some (k, r)
                    /\ (k <= Z.to_nat (timeout / pollInterval + 1))%nat).
Proof.
  intros deadline collect.
  assert (Href : forall fuel,
    collect fuel = collect_spec fuel world dir wantAtLeast deadline 0%nat 0 0).
  { intros fuel. apply loop_refines. by left. }
  split; [done|]. split; [|split; [|split; [|split]]].
  - intros fuel k calls Hres. rewrite Href in Hres.
    apply spec_result in Hres as (_ & _ & Hst); [|apply entered_start|lia].
    split; [|done]. by destruct Hst as (_ & ? & _).
  - intros Hclock k calls. rewrite !Href. by apply spec_stable_iff.
  - intros Hclock k w d n. rewrite !Href. by apply spec_timeout_iff.
  - intros fuel k r Hres. rewrite Href in Hres.
    apply spec_result in Hres as (_ & Hpast & _); [done|apply entered_start|lia].
  - intros Hclock fuel Hfuel.
    destruct (loop_terminates world dir wantAtLeast deadline
                (Z.to_nat (timeout / pollInterval + 1))) with
      (fuel := fuel) (i := 0%nat) (lastCount := 0) (stableSince := 0)
      as (k & r & Hk & Hle); [|lia|].
    + intros i Hi. specialize (Hclock i). subst deadline.
      assert (0 < pollInterval) as Hpos by done.
      pose proof (Z.mul_succ_div_gt timeout pollInterval Hpos) as Hdiv.
      assert (timeout / pollInterval + 1 <= Z.of_nat i) by lia.
      nia.
    + exists k, r. split; [done|lia].
Qed.

(** ** The scenarios of the specification, computed *)

Example listing_201_sorted :
  (match readHookCallsOnce fs_listing_201 calls_dir with
   | Ok calls => Some (map Seq calls)
   | Err _ => None
   end) = Some [0; 1; 2].
Proof. vm_compute. reflexivity. Qed.

Example garbage_scan_fails :
  readHookCallsOnce fs_with_garbage calls_dir
  = Err (ErrParseHookRecord (Join calls_dir "1.json")).
Proof. vm_compute. reflexivity. Qed.

(** Two records at 0 ms, four from 50 ms on, a minimum of four: the timer
    starts in turn 3 (75 ms) and the set is returned in turn 11 (275 ms). *)
Example stability_scenario :
  (match listHookCalls 20 (stability_world (1000 * ms)) (1000 * ms) calls_dir 4 (5000 * ms) with
   | Some (k, Ok calls) => Some (k, map Seq calls)
   | _ => None
   end) = Some (11%nat, [0; 1; 2; 3]).
Proof. vm_compute. reflexivity. Qed.

(** A directory that never reaches the minimum, and a budget of 100 ms:
    the call fails in turn 5 (125 ms) with the count it last saw. *)
Example timeout_scenario :
  listHookCalls 20 (starved_world (1000 * ms)) (1000 * ms) calls_dir 4 (100 * ms)
  = Some (5%nat, Err (ErrTimedOut 4 calls_dir 2)).
Proof. vm_compute. reflexivity. Qed.

Lemma readHookCallsOnce_sorted_records_witness :
  exists calls,
    readHookCallsOnce fs_listing_201 calls_dir = Ok calls
    /\ map Seq calls = [0; 1; 2].
Proof.
  destruct (readHookCallsOnce_sorted_records fs_listing_201 calls_dir
              [file "2.json"; file "0.json"; file "1.json"])
    as (calls & Hres & _ & _ & _ & Hseq & _).
  - reflexivity.
  - intros ent Hin.
    repeat (apply elem_of_cons in Hin as [->|Hin]; [vm_compute; reflexivity|]).
    by apply elem_of_nil in Hin.
  - exists calls. split; [exact Hres|]. rewrite Hseq. vm_compute. reflexivity.
Defined.

Lemma malformed_record_is_fatal_witness :
  unreadable fs_malformed_then_unreadable calls_dir (file "2.json") = true
  /\ readHookCallsOnce fs_malformed_then_unreadable calls_dir
     = Err (ErrParseHookRecord (Join calls_dir "1.json"))
  /\ forall fuel wantAtLeast deadline lastCount stableSince,
       listHookCalls_loop (S fuel)
         (fun _ => {| tick_fs := fs_malformed_then_unreadable;
                      tick_stable := 0; tick_deadline := 0 |})
         calls_dir wantAtLeast deadline 0%nat lastCount stableSince
       = Some (0%nat, Err (ErrParseHookRecord (Join calls_dir "1.json"))).
Proof.
  destruct (malformed_record_is_fatal fs_malformed_then_unreadable calls_dir
              [file "0.json"; file "1.json"; file "2.json"] (file "1.json"))
    as (_ & Hexact & _).
  - reflexivity.
  - right. left.
  - vm_compute. reflexivity.
  - destruct (Hexact [file "0.json"] [file "2.json"]) as [Hres Hloop].
    + reflexivity.
    + intros e He. apply list_elem_of_singleton in He as ->.
      vm_compute. reflexivity.
    + split; [vm_compute; reflexivity|]. split; [exact Hres|].
      intros fuel wantAtLeast deadline lastCount stableSince.
      by apply (Hloop fuel).
Defined.

Lemma listHookCalls_quiescence_witness :
  exists calls,
    listHookCalls 11 (stability_world (1000 * ms)) (1000 * ms) calls_dir 4 (5000 * ms) = None
    /\ stable_since_timer (stability_world (1000 * ms)) calls_dir 4 11 calls
    /\ map Seq calls = [0; 1; 2; 3].
Proof.
  destruct (listHookCalls 12 (stability_world (1000 * ms)) (1000 * ms) calls_dir 4
              (5000 * ms)) as [[k [calls|e]]|] eqn:Hrun;
    [|vm_compute in Hrun; discriminate..].
  exists calls.
  assert (k = 11%nat /\ map Seq calls = [0; 1; 2; 3]) as [-> Hseq].
  { vm_compute in Hrun. injection Hrun as <- <-. split; reflexivity. }
  destruct (listHookCalls_quiescence (stability_world (1000 * ms)) (1000 * ms)
              calls_dir 4 (5000 * ms)) as (_ & _ & Hexact & _).
  apply Hexact in Hrun as [Hnone Hstable].
  - auto.
  - intros m. unfold stability_world, pollInterval, ms. simpl. lia.
Defined.

(** ** [strconv.Itoa] and [strconv.Atoi] *)

Lemma string_app_nil_r (s : string) : s +:+ EmptyString = s.
Proof.
  induction s as [|c s IH]; [done|].
  change (String c (s +:+ EmptyString) = String c s). by rewrite IH.
Qed.

Lemma string_app_assoc (s1 s2 s3 : string) :
  (s1 +:+ s2) +:+ s3 = s1 +:+ (s2 +:+ s3).
Proof.
  induction s1 as [|c s1 IH]; [done|].
  change (String c ((s1 +:+ s2) +:+ s3) = String c (s1 +:+ (s2 +:+ s3))).
  by rewrite IH.
Qed.

Lemma format_digits_acc fuel : forall n acc,
  format_digits fuel n acc = format_digits fuel n EmptyString +:+ acc.
Proof.
  induction fuel as [|fuel IH]; intros n acc; cbn [format_digits]; [done|].
  destruct (n <? 10); [done|].
  rewrite (IH _ (String _ acc)), (IH _ (String _ EmptyString)).
  by rewrite string_app_assoc.
Qed.

Lemma log2_div10 n : 10 <= n -> Z.log2 (n / 10) <= Z.log2 n - 1.
Proof.
  intros Hn.
  assert (n / 10 <= n / 2) by (apply Z.div_le_compat_l; lia).
  assert (Z.log2 (n / 2) = Z.log2 n - 1) as <-.
  { rewrite <- (Z.pow_1_r 2) at 1. rewrite <- Z.shiftr_div_pow2 by lia.
    rewrite Z.log2_shiftr by lia.
    assert (Z.log2 8 <= Z.log2 n) by (apply Z.log2_le_mono; lia).
    change (Z.log2 8) with 3 in *. lia. }
  by apply Z.log2_le_mono.
Qed.

Lemma format_digits_fuel f1 : forall f2 n acc,
  0 <= n -> Z.log2 n <= Z.of_nat f1 -> Z.log2 n <= Z.of_nat f2 ->
  format_digits f1 n acc = format_digits f2 n acc.
Proof.
  induction f1 as [|f1 IH]; intros f2 n acc Hn H1 H2.
  - assert (n < 10).
    { destruct (Z.lt_ge_cases n 10) as [|Hge]; [done|].
      assert (Z.log2 8 <= Z.log2 n) by (apply Z.log2_le_mono; lia).
      change (Z.log2 8) with 3 in *. lia. }
    destruct f2; cbn [format_digits]; [done|].
    by rewrite (proj2 (Z.ltb_lt n 10)).
  - cbn [format_digits]. destruct (Z.ltb_spec n 10) as [Hlt|Hge].
    + destruct f2; cbn [format_digits]; [done|].
      by rewrite (proj2 (Z.ltb_lt n 10)).
    + pose proof (log2_div10 n Hge).
      assert (Z.log2 8 <= Z.log2 n) by (apply Z.log2_le_mono; lia).
      change (Z.log2 8) with 3 in *.
      destruct f2 as [|f2]; [lia|]. cbn [format_digits].
      rewrite (proj2 (Z.ltb_ge n 10)) by done.
      apply IH; [apply Z.div_pos; lia|lia..].
Qed.

Lemma FormatUint_small n :
  0 <= n < 10 -> FormatUint n = String (digit_char n) EmptyString.
Proof.
  intros Hn. unfold FormatUint.
  destruct (Z.to_nat (Z.log2 n)); cbn [format_digits];
    rewrite ?(proj2 (Z.ltb_lt n 10)) by lia; by rewrite Z.mod_small.
Qed.

Lemma FormatUint_step n :
  10 <= n ->
  FormatUint n = FormatUint (n / 10) +:+ String (digit_char (n mod 10)) EmptyString.
Proof.
  intros Hn. unfold FormatUint.
  pose proof (log2_div10 n Hn).
  assert (Z.log2 8 <= Z.log2 n) by (apply Z.log2_le_mono; lia).
  change (Z.log2 8) with 3 in *.
  destruct (Z.to_nat (Z.log2 n)) as [|f] eqn:Hf; [lia|].
  cbn [format_digits]. rewrite (proj2 (Z.ltb_ge n 10)) by done.
  rewrite format_digits_acc. f_equal.
  apply format_digits_fuel; [apply Z.div_pos; lia|lia|].
  pose proof (Z.log2_nonneg (n / 10)). lia.
Qed.

Lemma digit_char_val c : is_digit c = true -> digit_char (digit_val c) = c.
Proof.
  unfold is_digit, digit_char, digit_val, ascii_of, byte_of. intros H.
  replace (48 + (Z.of_N (N_of_ascii c) - 48)) with (Z.of_N (N_of_ascii c)) by lia.
  by rewrite N2Z.id, ascii_N_embedding.
Qed.

Lemma digit_val_range c : is_digit c = true -> 0 <= digit_val c < 10.
Proof. unfold is_digit, digit_val. lia. Qed.

Lemma nonzero_digit_val c :
  nonzero_digit c = true -> is_digit c = true /\ 1 <= digit_val c < 10.
Proof. unfold nonzero_digit, is_digit, digit_val. lia. Qed.

Lemma digit_char_is_digit d : 0 <= d < 10 -> is_digit (digit_char d) = true.
Proof.
  intros Hd. unfold is_digit, digit_char, ascii_of, byte_of.
  rewrite N_ascii_embedding by lia. rewrite Z2N.id by lia. lia.
Qed.

Lemma digit_val_char d : 0 <= d < 10 -> digit_val (digit_char d) = d.
Proof.
  intros Hd. unfold digit_val, digit_char, ascii_of, byte_of.
  rewrite N_ascii_embedding by lia. rewrite Z2N.id by lia. lia.
Qed.

Lemma parse_digits_app s1 : forall s2 acc,
  parse_digits (s1 +:+ s2) acc =
    match parse_digits s1 acc with
    | Some v => parse_digits s2 v
    | None => None
    end.
Proof.
  induction s1 as [|c s1 IH]; intros s2 acc; simpl; [done|].
  destruct (is_digit c); [apply IH|done].
Qed.

Lemma parse_digits_ge s : forall acc v,
  0 <= acc -> parse_digits s acc = Some v -> acc <= v.
Proof.
  induction s as [|c s IH]; intros acc v Hacc; simpl; [intros [= <-]; lia|].
  destruct (is_digit c) eqn:Hc; [|done]. intros Hv%IH.
  - pose proof (digit_val_range c Hc). lia.
  - pose proof (digit_val_range c Hc). lia.
Qed.

Lemma parse_digits_all_digits s : forall acc v,
  parse_digits s acc = Some v -> all_digits s = true.
Proof.
  induction s as [|c s IH]; intros acc v; simpl; [done|].
  destruct (is_digit c); [apply IH|done].
Qed.

(** Writing a number and reading it back. *)
Lemma parse_FormatUint n : 0 <= n -> parse_digits (FormatUint n) 0 = Some n.
Proof.
  revert n. apply (Zlt_0_ind (fun n => parse_digits (FormatUint n) 0 = Some n)).
  intros n IH Hpos. destruct (Z.lt_ge_cases n 10) as [Hlt|Hge].
  - idtac.
    + rewrite FormatUint_small by lia. simpl.
      rewrite digit_char_is_digit, digit_val_char by lia. done.
  - rewrite (FormatUint_step n Hge), parse_digits_app.
    rewrite IH by (split; [apply Z.div_pos; lia|apply Z.div_lt; lia]).
    simpl. pose proof (Z.mod_pos_bound n 10 ltac:(lia)).
    rewrite digit_char_is_digit, digit_val_char by lia.
    f_equal. pose proof (Z.div_mod n 10 ltac:(lia)). lia.
Qed.

(** The shape of what [FormatUint] writes. *)
Lemma FormatUint_shape n :
  1 <= n ->
  exists d r, FormatUint n = String d r
              /\ nonzero_digit d = true /\ all_digits r = true.
Proof.
  intros Hn. assert (0 <= n) as Hpos by lia. revert n Hpos Hn.
  apply (Zlt_0_ind (fun n => 1 <= n ->
    exists d r, FormatUint n = String d r
                /\ nonzero_digit d = true /\ all_digits r = true)).
  intros n IH _ Hn. destruct (Z.lt_ge_cases n 10) as [Hlt|Hge].
  - exists (digit_char n), EmptyString. rewrite FormatUint_small by lia.
    repeat split. unfold nonzero_digit, digit_char, ascii_of, byte_of.
    rewrite N_ascii_embedding by lia. rewrite Z2N.id by lia. lia.
  - destruct (IH (n / 10)) as (d & r & Hf & Hd & Hr).
    + split; [apply Z.div_pos; lia|apply Z.div_lt; lia].
    + apply Z.div_le_lower_bound; lia.
    + exists d, (r +:+ String (digit_char (n mod 10)) EmptyString).
      rewrite (FormatUint_step n Hge), Hf. repeat split; [done|].
      clear Hf. induction r as [|c r IHr]; simpl in *.
      * pose proof (Z.mod_pos_bound n 10 ltac:(lia)).
        by rewrite digit_char_is_digit by lia.
      * apply andb_true_iff in Hr as [-> Hr]. by apply IHr.
Qed.

(** Reading digits and writing the number back. *)
Lemma FormatUint_parse r : forall acc v,
  1 <= acc -> parse_digits r acc = Some v ->
  FormatUint v = FormatUint acc +:+ r.
Proof.
  induction r as [|c r IH]; intros acc v Hacc; simpl.
  - intros [= <-]. by rewrite string_app_nil_r.
  - destruct (is_digit c) eqn:Hc; [|done]. intros Hv.
    pose proof (digit_val_range c Hc) as Hd.
    rewrite (IH (acc * 10 + digit_val c) v ltac:(lia) Hv).
    rewrite (FormatUint_step (acc * 10 + digit_val c)) by lia.
    replace ((acc * 10 + digit_val c) / 10) with acc
      by (apply (Z.div_unique _ 10 acc (digit_val c)); lia).
    replace ((acc * 10 + digit_val c) mod 10) with (digit_val c)
      by (apply (Z.mod_unique _ 10 acc (digit_val c)); lia).
    by rewrite digit_char_val, string_app_assoc.
Qed.

Lemma canonical_Itoa n : canonical (Itoa n) = true.
Proof.
  unfold Itoa. destruct (Z.ltb_spec n 0) as [Hneg|Hpos].
  - destruct (FormatUint_shape (- n)) as (d & r & -> & Hd & Hr); [lia|].
    simpl. by rewrite Hd, Hr.
  - destruct (Z.eq_dec n 0) as [->|Hnz]; [done|].
    destruct (FormatUint_shape n) as (d & r & -> & Hd & Hr); [lia|].
    unfold canonical. rewrite Hd, Hr.
    apply nonzero_digit_val in Hd as [_ Hd].
    destruct d as [[] [] [] [] [] [] [] []]; try done;
      vm_compute in Hd; destruct Hd; done.
Qed.

Lemma Atoi_canonical s n :
  canonical s = true -> Atoi s = Some n -> Itoa n = s.
Proof.
  assert (Hdigits : forall d r v,
    nonzero_digit d = true -> parse_digits (String d r) 0 = Some v ->
    1 <= v /\ FormatUint v = String d r).
  { intros d r v Hd. simpl.
    destruct (nonzero_digit_val d Hd) as [Hdig Hval]. rewrite Hdig. simpl.
    intros Hv. split.
    - apply parse_digits_ge in Hv; lia.
    - rewrite (FormatUint_parse r (0 * 10 + digit_val d) v ltac:(lia) Hv).
      rewrite FormatUint_small by lia.
      rewrite Z.mul_0_l, Z.add_0_l. by rewrite digit_char_val. }
  destruct s as [|c s]; [done|]. unfold Atoi, split_sign.
  destruct (Ascii.eqb_spec c "-"%char) as [->|Hminus].
  - simpl. destruct s as [|d r]; [done|]. intros Hc.
    apply andb_true_iff in Hc as [Hd _].
    destruct (parse_digits (String d r) 0) as [v|] eqn:Hv; [|done].
    destruct (Hdigits d r v Hd Hv) as [Hv1 Hf].
    destruct (_ && _); [|done]. intros [= <-].
    unfold Itoa. rewrite (proj2 (Z.ltb_lt (- v) 0)) by lia.
    by rewrite Z.opp_involutive, Hf.
  - destruct (Ascii.eqb_spec c "+"%char) as [->|Hplus]; [done|].
    intros Hc.
    destruct (Ascii.eqb_spec c "0"%char) as [->|Hzero].
    + destruct s; [|done]. vm_compute. by intros [= <-].
    + assert (nonzero_digit c = true) as Hd.
      { revert Hc. unfold canonical.
        destruct c as [[] [] [] [] [] [] [] []]; try done;
          destruct s; try done; by intros [? ?]%andb_true_iff. }
      destruct (parse_digits (String c s) 0) as [v|] eqn:Hv; [|done].
      destruct (Hdigits c s v Hd Hv) as [Hv1 Hf].
      destruct (_ && _); [|done]. intros [= <-].
      unfold Itoa. by rewrite (proj2 (Z.ltb_ge v 0)) by lia.
Qed.

(** A stem that [Atoi] accepts is what [Itoa] writes for its value exactly
    when it is canonical. *)
Lemma Itoa_Atoi_iff s n : Atoi s = Some n -> (Itoa n = s <-> canonical s = true).
Proof.
  intros Ha. split.
  - intros <-. apply canonical_Itoa.
  - intros Hc. by apply Atoi_canonical.
Qed.

(** ** The validator *)

Lemma seq_check_iff c :
  seq_check c = true <-> SeqStr c = EmptyString \/ SeqStr c = Itoa (Seq c).
Proof.
  unfold seq_check.
  destruct (String.eqb_spec (SeqStr c) EmptyString) as [->|Hne]; simpl; [tauto|].
  destruct (String.eqb_spec (SeqStr c) (Itoa (Seq c))) as [->|Hne']; simpl;
    [tauto|]. split; [done|]. by intros [|].
Qed.

(** C10, amended. The collector takes as sequence number the value of any
    stem that [strconv.Atoi] accepts, leading zeros and an explicit sign
    included (007.json gives 7, -1.json gives -1, +2.json gives 2).  The
    validator compares the record's own [seq] string with the canonical
    decimal rendering of that number, so a record that repeats its stem
    verbatim passes the cross-check exactly when the stem is canonical: no
    plus sign and no leading zero.  A negative stem without leading zeros,
    such as -1, is canonical and passes. *)
Theorem stem_cross_check (fs : FS) (dir : string) (ent : DirEntry) (c : hookCall) :
  hook_of fs dir ent = Some c ->
  Atoi (stem (Name ent)) = Some (Seq c)
  /\ (seq_check c = true <->
      SeqStr c = EmptyString \/ SeqStr c = Itoa (Seq c))
  /\ (SeqStr c = stem (Name ent) ->
      (seq_check c = true <-> canonical (stem (Name ent)) = true))
  /\ Atoi "007" = Some 7 /\ Atoi "-1" = Some (-1) /\ Atoi "+2" = Some 2
  /\ canonical "007" = false /\ canonical "+2" = false /\ canonical "-1" = true.
Proof.
  intros Hc. apply hook_of_Some in Hc as (_ & Ha & _).
  split; [done|]. split; [apply seq_check_iff|]. split; [|by vm_compute].
  intros Hs. rewrite seq_check_iff, Hs.
  rewrite <- (Itoa_Atoi_iff _ _ Ha). split; [|by right].
  intros [He|He]; [|done]. rewrite He in Ha. done.
Qed.

Lemma stem_cross_check_witness :
  exists c, hook_of fs_007 calls_dir (file "007.json") = Some c
            /\ Seq c = 7 /\ SeqStr c = "007" /\ seq_check c = false.
Proof.
  destruct (hook_of fs_007 calls_dir (file "007.json")) as [c|] eqn:Hc;
    [|vm_compute in Hc; discriminate].
  exists c. split; [reflexivity|].
  destruct (stem_cross_check fs_007 calls_dir (file "007.json") c Hc)
    as (Ha & _ & Hiff & _).
  assert (Hs : SeqStr c = stem (Name (file "007.json")))
    by (vm_compute in Hc; injection Hc as <-; reflexivity).
  specialize (Hiff Hs). split; [|split].
  - assert (Atoi (stem (Name (file "007.json"))) = Some 7) as H7
      by (vm_compute; reflexivity).
    rewrite H7 in Ha. by injection Ha as <-.
  - rewrite Hs. reflexivity.
  - destruct (seq_check c); [|reflexivity].
    destruct Hiff as [Hiff _]. specialize (Hiff eq_refl).
    vm_compute in Hiff. discriminate.
Defined.

Lemma signed_stem_passes_cross_check :
  exists c, readHookCallsOnce fs_minus_1 calls_dir = Ok [c]
            /\ stem "-1.json" = "-1" /\ HasPrefix (stem "-1.json") "-" = true
            /\ Seq c = -1 /\ SeqStr c = stem "-1.json"
            /\ seq_check c = true
            /\ validate [c] ["turn_started"] = None.
Proof.
  eexists. split; [vm_compute; reflexivity|]. by vm_compute.
Qed.

Lemma check_calls_spec calls : forall got,
  check_calls calls got =
    match head (concat (map (fun c => seq_violations c ++ event_violations c) calls)) with
    | Some v => inl v
    | None => inr (got ++ map Event calls)
    end.
Proof.
  induction calls as [|c calls IH]; intros got; simpl.
  - by rewrite app_nil_r.
  - unfold seq_violations at 1, event_violations at 1.
    destruct (seq_check c); simpl; [|done].
    destruct (event_check c); simpl; [|done].
    rewrite IH. destruct (head _); [done|]. by rewrite <- app_assoc.
Qed.

Lemma equalStrings_length a b : equalStrings a b = true -> length a = length b.
Proof.
  unfold equalStrings. destruct (Nat.eqb_spec (length a) (length b)); [done|].
  by simpl.
Qed.

Lemma violations_run_order_perm calls want :
  violations_in_run_order calls want ≡ₚ all_violations calls want.
Proof.
  unfold violations_in_run_order, all_violations.
  assert (H : concat (map (fun c => seq_violations c ++ event_violations c) calls)
              ≡ₚ concat (map seq_violations calls)
                 ++ concat (map event_violations calls)).
  { induction calls as [|c calls IH]; simpl; [done|].
    rewrite IH, <- !app_assoc. apply Permutation_app_head.
    rewrite !app_assoc. apply Permutation_app_tail, Permutation_app_comm. }
  by rewrite H, <- app_assoc.
Qed.

(** C1, amended. The validator stops at the first check that fails and
    reports that violation only.  The checks run record by record (the
    sequence cross-check of a record, then its expected/event check), then
    the order of the names against the expected list, then the count; what
    is reported is the first of all the violations in that order.  The count
    check can never be the one reported: equal name lists have equal
    lengths. *)
Theorem validator_reports_first_violation (calls : list hookCall)
    (want : list string) :
  reported calls want = take 1 (violations_in_run_order calls want)
  /\ violations_in_run_order calls want ≡ₚ all_violations calls want
  /\ (validate calls want = None <-> all_violations calls want = [])
  /\ (forall n got wantn, validate calls want <> Some (UnexpectedCount n got wantn)).
Proof.
  assert (Hfirst : reported calls want = take 1 (violations_in_run_order calls want)
                   /\ forall n got wantn,
                        validate calls want <> Some (UnexpectedCount n got wantn)).
  { unfold reported, validate, violations_in_run_order.
    rewrite check_calls_spec. simpl.
    destruct (concat _) as [|v vs] eqn:Hv; simpl.
    - unfold order_violations, count_violations.
      destruct (equalStrings (map Event calls) want) eqn:He; simpl; [|done].
      apply equalStrings_length in He. rewrite length_map in He.
      by rewrite (proj2 (Nat.eqb_eq _ _) He).
    - split; [done|]. intros n got wantn [= ->].
      assert (UnexpectedCount n got wantn ∈
                concat (map (fun c => seq_violations c ++ event_violations c) calls))
        as Hin by (rewrite Hv; left).
      apply list_elem_of_In, in_concat in Hin as (l & Hl & Hin).
      apply in_map_iff in Hl as (c & <- & _).
      unfold seq_violations, event_violations in Hin.
      destruct (seq_check c), (event_check c); simpl in Hin; intuition congruence. }
  destruct Hfirst as [Hrep Hcount].
  pose proof (violations_run_order_perm calls want) as Hperm.
  split; [done|]. split; [done|]. split; [|done].
  unfold reported in Hrep. split.
  - intros Hnone. rewrite Hnone in Hrep.
    apply Permutation_nil. rewrite <- Hperm.
    destruct (violations_in_run_order calls want); [done|]. done.
  - intros Hall. rewrite Hall in Hperm. apply Permutation_nil_r in Hperm.
    rewrite Hperm in Hrep. by destruct (validate calls want).
Qed.

(** A run that reaches the validator of [main] with three violations:
    the collector, called as [main] calls it (a minimum of four records, a
    budget of five seconds), returns the four records of
    [fs_doubly_wrong]; the first of them fails the sequence cross-check and
    the expected/event check, and the names are out of order.  One
    violation is reported. *)
Lemma validator_reports_only_first :
  listHookCalls 20 (doubly_wrong_world (1000 * ms)) (1000 * ms) calls_dir 4
    (5000 * ms)
  = Some (9%nat, Ok doubly_wrong_run)
  /\ reported doubly_wrong_run want_hooks
     = [SeqMismatch 0 "5" (Join calls_dir "0.json")]
  /\ all_violations doubly_wrong_run want_hooks
     = [SeqMismatch 0 "5" (Join calls_dir "0.json");
        ExpectedEventMismatch "turn_started" "turn_complete" 0 (Join calls_dir "0.json");
        UnexpectedSequence
          ["turn_complete"; "exec_command_begin"; "exec_command_end"; "turn_complete"]
          want_hooks]
  /\ reported doubly_wrong_run want_hooks
     <> all_violations doubly_wrong_run want_hooks.
Proof. by vm_compute. Qed.

(** ** Handlers that run concurrently *)

Section concurrent.
Import Concurrent.
Variable s0 : stubServer.
Implicit Types (c : config) (hist : list (nat * op)) (t : thread).

Lemma replay_snoc hist e :
  replay (hist ++ [e]) s0 = apply_op e.2 (replay hist s0).
Proof. unfold replay. by rewrite foldl_app. Qed.

(** A handler outside its critical sections keeps what it knows when
    another handler completes an operation. *)
Lemma local_ok_other s s' hist i j o t :
  i <> j -> holding (at_pc t) = false ->
  local_ok s0 s hist j t -> local_ok s0 s' (hist ++ [(i, o)]) j t.
Proof.
  intros Hij Hh. unfold local_ok.
  assert (Hnot : forall o', (j, o') ∉ hist -> (j, o') ∉ hist ++ [(i, o)]).
  { intros o' Hn [Hin|Hin%list_elem_of_singleton]%elem_of_app; [done|].
    congruence. }
  assert (Hin : forall e, e ∈ hist -> e ∈ hist ++ [(i, o)])
    by (intros e He; apply elem_of_app; by left).
  destruct (at_pc t); try done.
  - intros [? ?]. auto.
  - intros [? ?]. auto.
  - intros (h1 & h2 & -> & Hres & Hrec).
    exists h1, (h2 ++ [(i, o)]). by rewrite <- app_assoc.
Qed.

(** The invariant after handler [i] moved from [t] to [t']. *)
Lemma invariant_update c hist i t t' l' s' ev :
  invariant s0 c hist ->
  threads c !! i = Some t ->
  (holding (at_pc t') = true -> holding (at_pc t) = true \/ locked c = false) ->
  l' = holding (at_pc t') || (locked c && negb (holding (at_pc t))) ->
  s' = replay (hist ++ ev) s0 ->
  local_ok s0 s' (hist ++ ev) i t' ->
  (ev = [] /\ s' = server c
   \/ holding (at_pc t) = true /\ exists o, ev = [(i, o)]) ->
  invariant s0 {| locked := l'; server := s'; threads := <[i := t']> (threads c) |}
    (hist ++ ev).
Proof.
  intros [Hex Hlk Hrp Hlo] Hi Hacq Hl' Hs' Hloc Hev.
  assert (Hlen : (i < length (threads c))%nat) by (by eapply lookup_lt_Some).
  assert (Hlook : forall j tj,
    <[i := t']> (threads c) !! j = Some tj ->
    (j = i /\ tj = t') \/ (j <> i /\ threads c !! j = Some tj)).
  { intros j tj. destruct (decide (j = i)) as [->|Hne].
    - rewrite list_lookup_insert_eq by done. intros [= <-]. by left.
    - rewrite list_lookup_insert_ne by done. by right. }
  assert (Hnoholder : locked c = false -> forall j tj,
    threads c !! j = Some tj -> holding (at_pc tj) = false).
  { intros Hf j tj Hj. destruct (holding (at_pc tj)) eqn:Hh; [|done].
    assert (locked c = true) by (apply Hlk; eauto). congruence. }
  split; cbn [locked server threads].
  - intros j1 j2 t1 t2 [[-> ->]|[Hn1 H1]]%Hlook [[-> ->]|[Hn2 H2]]%Hlook Hh1 Hh2;
      try done.
    + destruct (Hacq Hh1) as [Hh|Hf]; [by apply (Hex i j2 t t2)|].
      rewrite (Hnoholder Hf j2 t2 H2) in Hh2. done.
    + destruct (Hacq Hh2) as [Hh|Hf]; [by apply (Hex j1 i t1 t)|].
      rewrite (Hnoholder Hf j1 t1 H1) in Hh1. done.
    + by apply (Hex j1 j2 t1 t2).
  - rewrite Hl'. split.
    + intros [Hh|[Hc Hn]%andb_true_iff]%orb_true_iff.
      * exists i, t'. by rewrite list_lookup_insert_eq.
      * apply Hlk in Hc as (j & tj & Hj & Hh). exists j, tj.
        rewrite list_lookup_insert_ne; [done|]. intros ->.
        rewrite Hi in Hj. injection Hj as ->. by rewrite Hh in Hn.
    + intros (j & tj & [[-> ->]|[Hn Hj]]%Hlook & Hh); [by rewrite Hh|].
      apply orb_true_iff. right. apply andb_true_iff. split; [apply Hlk; eauto|].
      destruct (holding (at_pc t)) eqn:Hht; [|done].
      destruct Hn. by apply (Hex j i tj t).
  - done.
  - intros j tj [[-> ->]|[Hn Hj]]%Hlook; [done|].
    specialize (Hlo j tj Hj).
    destruct Hev as [[-> ->]|[Hh (o & ->)]]; [by rewrite app_nil_r|].
    apply (local_ok_other (server c) s' hist i j o tj); [done| |done].
    destruct (holding (at_pc tj)) eqn:Hhj; [|done].
    destruct Hn. by apply (Hex j i tj t).
Qed.

Lemma invariant_init bodies : invariant s0 (init s0 bodies) [].
Proof.
  assert (Hth : forall i t, threads (init s0 bodies) !! i = Some t ->
    holding (at_pc t) = false /\ local_ok s0 s0 [] i t).
  { intros i t. cbn [init threads]. rewrite list_lookup_fmap.
    destruct (bodies !! i) as [raw|]; [|done]. intros [= <-].
    unfold handler, local_ok. cbn [payload at_pc].
    destruct (Json.Unmarshal_map raw) as [|kv m]; cbn.
    - split; [done|]. split; [apply not_elem_of_nil|done].
    - split; [done|]. split; [done|]. intros o. apply not_elem_of_nil. }
  split.
  - intros i j ti tj Hi _ Hh _. apply Hth in Hi as [Hi _]. congruence.
  - split; [done|]. intros (i & t & Hi & Hh). apply Hth in Hi as [Hi _]. congruence.
  - done.
  - intros i t Hi. by apply Hth in Hi as [_ ?].
Qed.

(** Handler [i] moved and completed the operations [ev]: the side
    conditions of [invariant_update] that follow from where it stood. *)
Local Ltac moved_with ev Hinv Hi Hmu :=
  apply (invariant_update _ _ _ _ _ _ _ ev Hinv Hi); cbn;
  rewrite ?app_nil_r, ?Hmu; auto.

Lemma invariant_step c hist i :
  invariant s0 c hist ->
  invariant s0 (step i c).1
    (hist ++ match (step i c).2 with Some e => [e] | None => [] end).
Proof.
  intros Hinv. unfold step.
  destruct (threads c !! i) as [t|] eqn:Hi; [|by rewrite app_nil_r].
  pose proof (inv_local s0 c hist Hinv i t Hi) as Hloc.
  pose proof (inv_replay s0 c hist Hinv) as Hrp.
  assert (Hheld : holding (at_pc t) = true -> locked c = true)
    by (intros Hh; apply (inv_locked s0 c hist Hinv); eauto).
  assert (Hstay : invariant s0
    {| locked := locked c; server := server c; threads := <[i := t]> (threads c) |}
    (hist ++ [])).
  { rewrite list_insert_id, app_nil_r by done. by destruct c. }
  unfold thread_step, local_ok in *. destruct t as [p pc0]. cbn [payload at_pc] in *.
  destruct pc0 as [| |old| | | | |body|body ok|resp|]; cbn [fst snd].
  - (* RecLock *)
    destruct (locked c) eqn:Hl; [done|].
    moved_with (@nil (nat * op)) Hinv Hi Hl.
  - (* RecRead *)
    moved_with (@nil (nat * op)) Hinv Hi Hheld.
  - (* RecWrite *)
    destruct Hloc as (-> & Hp & Hnone).
    moved_with ([(i, OpRecord p)]) Hinv Hi Hheld.
    + rewrite replay_snoc, <- Hrp. done.
    + split.
      * intros [Hin|Hin%list_elem_of_singleton]%elem_of_app; [by apply Hnone in Hin|done].
      * intros _. apply elem_of_app. right. by left.
    + right. eauto.
  - (* RecUnlock *)
    moved_with (@nil (nat * op)) Hinv Hi Hheld.
  - (* PopLock *)
    destruct (locked c) eqn:Hl; [done|].
    moved_with (@nil (nat * op)) Hinv Hi Hl.
  - (* PopLen *)
    destruct Hloc as [Hnopop Hrec].
    destruct (sseQueue (server c)) as [|b rest] eqn:Hq; cbn.
    + moved_with ([(i, OpPop)]) Hinv Hi Hheld.
      * rewrite replay_snoc, <- Hrp. cbn. unfold popSSE. by rewrite Hq.
      * exists hist, []. rewrite <- Hrp. unfold popSSE. by rewrite Hq.
      * right. eauto.
    + moved_with (@nil (nat * op)) Hinv Hi Hheld. by rewrite Hq.
  - (* PopHead *)
    destruct Hloc as (Hne & Hnopop & Hrec).
    destruct (sseQueue (server c)) as [|b rest] eqn:Hq; [done|].
    moved_with (@nil (nat * op)) Hinv Hi Hheld. rewrite Hq. eauto.
  - (* PopTail *)
    destruct Hloc as ((rest & Hq) & Hnopop & Hrec). rewrite Hq.
    moved_with ([(i, OpPop)]) Hinv Hi Hheld.
    + rewrite replay_snoc, <- Hrp. cbn. unfold popSSE. by rewrite Hq.
    + exists hist, []. rewrite <- Hrp. unfold popSSE. by rewrite Hq.
    + right. eauto.
  - (* PopUnlock *)
    destruct Hloc as (h1 & h2 & -> & Hres & Hrec).
    moved_with (@nil (nat * op)) Hinv Hi Hheld.
    exists h1, h2. by rewrite Hres.
  - (* Finished *) done.
  - (* Panicked *) done.
Qed.

Lemma invariant_run sched : forall c hist,
  invariant s0 c hist -> invariant s0 (run sched c hist).1 (run sched c hist).2.
Proof.
  induction sched as [|i sched IH]; intros c hist Hinv; [done|].
  cbn [run]. pose proof (invariant_step c hist i Hinv) as Hstep.
  destruct (step i c) as [c' ev]. by apply IH.
Qed.

(** Run one at a time, the operations consume the queue from its head and
    extend the log at its end. *)
Lemma replay_queue hist : forall s,
  sseQueue (replay hist s) = drop (pops_in hist) (sseQueue s).
Proof.
  induction hist as [|[i o] hist IH]; intros s; [done|].
  change (replay ((i, o) :: hist) s) with (replay hist (apply_op o s)).
  rewrite IH. destruct o as [body|]; cbn; [done|].
  unfold popSSE.
  destruct (sseQueue s) eqn:Hq; cbn; by rewrite ?Hq, ?drop_nil.
Qed.

Lemma replay_log hist : forall s,
  responseReqs (replay hist s) = responseReqs s ++ records_in hist.
Proof.
  induction hist as [|[i o] hist IH]; intros s; [by rewrite app_nil_r|].
  change (replay ((i, o) :: hist) s) with (replay hist (apply_op o s)).
  rewrite IH. destruct o as [body|]; cbn.
  - by rewrite <- app_assoc.
  - unfold popSSE. by destruct (sseQueue s).
Qed.

Lemma popSSE_replay hist s :
  response_of (popSSE (replay hist s)).1 =
    match sseQueue s !! pops_in hist with
    | Some body => stream_response body
    | None => exhausted_response
    end.
Proof.
  unfold popSSE. rewrite replay_queue.
  rewrite <- (Nat.add_0_r (pops_in hist)) at 2. rewrite <- lookup_drop.
  by destruct (drop _ _).
Qed.

End concurrent.

(** C2. Whatever the interleaving of the handlers of any number of
    create-response requests, every step that reads or writes the queue or
    the log is taken by the one handler that holds the mutex: at most one
    handler is inside [recordResponseRequest] or [popSSE] at a time, exactly
    when the mutex is locked, so an append and a pop never overlap each
    other or those of another request, and no handler panics.  The shared
    state is the one the completed appends and pops produce when run one at
    a time in the order of their completion: the queue has lost its first
    elements, one per pop, and the log has gained each recorded payload once.
    A request that has its answer got the exchange at the queue position
    given by the number of pops completed before its own (or the exhaustion
    error beyond the end), after its own payload was recorded. *)
Theorem concurrent_handlers_atomic (s0 : stubServer) (bodies : list string)
    (sched : list nat) :
  let c := (Concurrent.run sched (Concurrent.init s0 bodies) []).1 in
  let hist := (Concurrent.run sched (Concurrent.init s0 bodies) []).2 in
  (forall i j ti tj,
      Concurrent.threads c !! i = Some ti -> Concurrent.threads c !! j = Some tj ->
      Concurrent.holding (Concurrent.at_pc ti) = true ->
      Concurrent.holding (Concurrent.at_pc tj) = true -> i = j)
  /\ (Concurrent.locked c = true <->
      exists i t, Concurrent.threads c !! i = Some t
                  /\ Concurrent.holding (Concurrent.at_pc t) = true)
  /\ (forall i t, Concurrent.threads c !! i = Some t ->
        Concurrent.at_pc t <> Concurrent.Panicked
        /\ (forall old, Concurrent.at_pc t = Concurrent.RecWrite old ->
              old = responseReqs (Concurrent.server c))
        /\ (forall body, Concurrent.at_pc t = Concurrent.PopTail body ->
              head (sseQueue (Concurrent.server c)) = Some body))
  /\ Concurrent.server c = Concurrent.replay hist s0
  /\ sseQueue (Concurrent.server c)
     = drop (Concurrent.pops_in hist) (sseQueue s0)
  /\ responseReqs (Concurrent.server c)
     = responseReqs s0 ++ Concurrent.records_in hist
  /\ (forall i t resp,
        Concurrent.threads c !! i = Some t ->
        Concurrent.at_pc t = Concurrent.Finished resp ->
        exists h1 h2,
          hist = h1 ++ (i, Concurrent.OpPop) :: h2
          /\ resp = match sseQueue s0 !! Concurrent.pops_in h1 with
                    | Some body => stream_response body
                    | None => exhausted_response
                    end
          /\ (Concurrent.payload t <> [] ->
              (i, Concurrent.OpRecord (Concurrent.payload t)) ∈ h1)).
Proof.
  intros c hist.
  pose proof (invariant_run s0 sched _ _ (invariant_init s0 bodies)) as Hinv.
  fold c hist in Hinv. destruct Hinv as [Hex Hlk Hrp Hlo].
  split; [done|]. split; [done|]. split; [|split; [done|split; [|split]]].
  - intros i t Hi. specialize (Hlo i t Hi). unfold Concurrent.local_ok in Hlo.
    split; [|split].
    + intros Hp. by rewrite Hp in Hlo.
    + intros old Hp. rewrite Hp in Hlo. by destruct Hlo.
    + intros body Hp. rewrite Hp in Hlo. destruct Hlo as ((rest & ->) & _). done.
  - by rewrite Hrp, replay_queue.
  - by rewrite Hrp, replay_log.
  - intros i t resp Hi Hp. specialize (Hlo i t Hi).
    unfold Concurrent.local_ok in Hlo. rewrite Hp in Hlo.
    destruct Hlo as (h1 & h2 & Hh & -> & Hrec).
    exists h1, h2. by rewrite popSSE_replay.
Qed.

(** Two requests against a queue of two exchanges: the first handler
    records its payload, then the second handler records and pops, then the
    first pops.  Each append and each pop is one critical section; the two
    sections of one request are not one. *)
Example record_and_pop_are_two_sections :
  let sched := [0; 0; 0; 0; 1; 1; 1; 1; 1; 1; 1; 1; 1; 0; 0; 0; 0; 0]%nat in
  let out := Concurrent.run sched
               (Concurrent.init {| sseQueue := ["first"; "second"]; responseReqs := [] |}
                  [model_payload; hook_record "1" "a" "a" "b"]) [] in
  map Concurrent.at_pc (Concurrent.threads out.1)
  = [Concurrent.Finished (stream_response "second");
     Concurrent.Finished (stream_response "first")]
  /\ map fst out.2 = [0; 1; 1; 0]%nat
  /\ Concurrent.locked out.1 = false
  /\ sseQueue (Concurrent.server out.1) = [].
Proof. by vm_compute. Qed.

(** ** The frames of [sse] and a client that reads them *)

Lemma no_type_payload (ev : gomap) : "type" ∉ ev.*1 -> payload_fields ev = ev.
Proof.
  unfold payload_fields. induction ev as [|[k x] ev IH]; intros Hk; [done|].
  cbn [fmap list_fmap fst] in Hk. apply not_elem_of_cons in Hk as [Hne Hk].
  rewrite filter_cons_True by (cbn; congruence). f_equal. by apply IH.
Qed.

Lemma get_type_length (ev : gomap) v :
  NoDup ev.*1 -> Json.get "type" ev = Some v ->
  length ev = S (length (payload_fields ev)).
Proof.
  unfold payload_fields.
  induction ev as [|[k x] ev IH]; intros Hnd; [done|].
  cbn [fmap list_fmap fst] in Hnd. apply NoDup_cons in Hnd as [Hk Hnd].
  cbn [Json.get]. rewrite filter_cons. cbn [fst].
  destruct (String.eqb_spec "type" k) as [<-|Hne].
  - intros _. rewrite decide_False by (by intros []).
    cbn [length]. f_equal. f_equal. symmetry. by apply no_type_payload.
  - intros Hg. rewrite decide_True by (by intros ->).
    cbn [length]. f_equal. by apply IH.
Qed.

Lemma sse_frame_shape (ev : gomap) (kind : string) :
  scripted_event ev kind ->
  sse_frame ev = frame_text kind (frame_data ev).
Proof.
  intros [Hnd Hg]. unfold sse_frame, frame_text, frame_data, event_kind.
  rewrite Hg, (get_type_length ev _ Hnd Hg).
  by destruct (payload_fields ev).
Qed.

Lemma sse_app (evs1 evs2 : list gomap) :
  sse (evs1 ++ evs2) = sse evs1 +:+ sse evs2.
Proof.
  induction evs1 as [|ev evs1 IH]; [done|].
  cbn [app sse]. by rewrite IH, string_app_assoc.
Qed.

Lemma lines_from_line (l rest : string) :
  no_lf l = true ->
  lines_from (l +:+ nl +:+ rest) = (l, lines rest).
Proof.
  intros Hl. induction l as [|c l IH].
  - change (EmptyString +:+ nl +:+ rest) with (String "010"%char rest).
    unfold lines. cbn [lines_from]. destruct (lines_from rest). done.
  - cbn in Hl. apply andb_true_iff in Hl as [Hc Hl].
    change (String c l +:+ nl +:+ rest) with (String c (l +:+ nl +:+ rest)).
    cbn [lines_from]. rewrite (IH Hl).
    by rewrite (negb_true_iff _) in Hc; rewrite Hc.
Qed.

Lemma lines_line (l rest : string) :
  no_lf l = true -> lines (l +:+ nl +:+ rest) = l :: lines rest.
Proof. intros Hl. unfold lines at 1. by rewrite lines_from_line. Qed.

Lemma prefix_app (pre s : string) : String.prefix pre (pre +:+ s) = true.
Proof.
  induction pre as [|c pre IH]; [by destruct s|].
  change (String c pre +:+ s) with (String c (pre +:+ s)). cbn [String.prefix].
  by destruct (ascii_dec c c).
Qed.

Lemma length_string_app (s1 s2 : string) :
  String.length (s1 +:+ s2) = (String.length s1 + String.length s2)%nat.
Proof.
  induction s1 as [|c s1 IH]; [done|].
  change (String c s1 +:+ s2) with (String c (s1 +:+ s2)). cbn. by rewrite IH.
Qed.

Lemma substring_all (s : string) : String.substring 0 (String.length s) s = s.
Proof. induction s as [|c s IH]; [done|]. cbn. by rewrite IH. Qed.

Lemma drop_prefix_app (pre s : string) : drop_prefix pre (pre +:+ s) = s.
Proof.
  unfold drop_prefix. rewrite length_string_app.
  replace (String.length pre + String.length s - String.length pre)%nat
    with (String.length s) by lia.
  induction pre as [|c pre IH]; [apply substring_all|].
  change (String c pre +:+ s) with (String c (pre +:+ s)). cbn. apply IH.
Qed.

Lemma field_value_app (name value : string) :
  field_value name ((name +:+ ":") +:+ " " +:+ value) = Some value.
Proof.
  unfold field_value, HasPrefix.
  by rewrite prefix_app, drop_prefix_app, (prefix_app " "), (drop_prefix_app " ").
Qed.

Lemma field_value_event (kind : string) :
  field_value "event" ("event: " +:+ kind) = Some kind.
Proof. apply (field_value_app "event"). Qed.

Lemma field_value_data (text : string) :
  field_value "event" ("data: " +:+ text) = None
  /\ field_value "data" ("data: " +:+ text) = Some text.
Proof. split; [reflexivity|apply (field_value_app "data")]. Qed.

(** One frame, read back. *)
Lemma read_frame (kind : string) (data : option string) (rest : string) :
  no_lf kind = true ->
  match data with Some text => no_lf text = true | None => True end ->
  sse_parse (frame_text kind data +:+ rest) = (Some kind, data) :: sse_parse rest.
Proof.
  intros Hk Hd. unfold sse_parse, frame_text.
  rewrite !string_app_assoc.
  change ("event: " +:+ kind +:+ nl +:+ ?x) with (("event: " +:+ kind) +:+ nl +:+ x).
  rewrite lines_line by done. cbn [read_frames].
  change (String.eqb ("event: " +:+ kind) EmptyString) with false. cbn match.
  rewrite field_value_event.
  destruct data as [text|].
  - rewrite !string_app_assoc.
    change ("data: " +:+ text +:+ nl +:+ ?x)
      with (("data: " +:+ text) +:+ nl +:+ x).
    rewrite lines_line by done. cbn [read_frames].
    change (String.eqb ("data: " +:+ text) EmptyString) with false. cbn match.
    destruct (field_value_data text) as [-> ->].
    change (nl +:+ rest) with (EmptyString +:+ nl +:+ rest).
    rewrite lines_line by done. done.
  - change (nl +:+ rest) with (EmptyString +:+ nl +:+ rest).
    rewrite lines_line by done. done.
Qed.

(** C6. The encoding of a ScriptedEvent is an event line with its kind,
    then, only when the event has fields besides its kind, a data line with
    the whole event as JSON, then a blank line; an exchange is the frames of
    its events in order.  A client that splits the stream at blank lines
    reads back, for every exchange whose kinds and JSON texts hold no line
    feed, the kind of each event and the data that was written; for the
    exchange [response.created, response.completed] of the specification it
    decodes the same two events, with the same kinds and fields. *)
Theorem sse_round_trip (evs : list gomap) :
  Forall (fun ev => scripted_event ev (event_kind ev)) evs ->
  Forall (fun ev => no_lf (event_kind ev) = true
                    /\ no_lf (Json.marshal (Json.JObject ev)) = true) evs ->
  Forall (fun ev => sse_frame ev = frame_text (event_kind ev) (frame_data ev)) evs
  /\ (forall evs', sse (evs ++ evs') = sse evs +:+ sse evs')
  /\ sse_parse (sse evs)
     = map (fun ev => (Some (event_kind ev), frame_data ev)) evs
  /\ Forall2 same_event (client_read (sse round_trip_exchange)) round_trip_exchange.
Proof.
  intros Hev Hlf.
  assert (Hshape : Forall
    (fun ev => sse_frame ev = frame_text (event_kind ev) (frame_data ev)) evs).
  { eapply Forall_impl; [exact Hev|]. intros ev. apply sse_frame_shape. }
  split; [done|]. split; [intros evs'; apply sse_app|]. split.
  - clear Hev. induction evs as [|ev evs IH]; [done|].
    apply Forall_cons in Hshape as [Hs Hshape].
    apply Forall_cons in Hlf as [[Hk Hj] Hlf].
    cbn [sse map]. rewrite Hs, read_frame, IH; try done.
    unfold frame_data. by destruct (payload_fields ev).
  - repeat constructor; vm_compute; reflexivity.
Qed.

Lemma sse_round_trip_witness :
  sse_parse (sse round_trip_exchange)
  = [(Some "response.created",
      Some (Json.marshal (Json.JObject (evResponseCreated "resp-1"))));
     (Some "response.completed",
      Some (Json.marshal (Json.JObject (evCompletedBare "resp-1"))))].
Proof.
  apply (sse_round_trip round_trip_exchange).
  - repeat constructor; apply (bool_decide_unpack _); vm_compute; reflexivity.
  - repeat constructor; vm_compute; reflexivity.
Defined.

(** The exchanges [main] scripts are read back event for event as well. *)
Example main_exchanges_round_trip :
  Forall2 same_event
    (client_read (sse (main_exchange_1 "'/tmp/codex-hooks-e2e/workspace/shell_ran.txt'")))
    (main_exchange_1 "'/tmp/codex-hooks-e2e/workspace/shell_ran.txt'")
  /\ Forall2 same_event (client_read (sse main_exchange_2)) main_exchange_2.
Proof. split; repeat constructor; vm_compute; reflexivity. Qed.

(** * Further properties of the code *)

(** ** [equalStrings] *)

Lemma equalStrings_from_eq a : forall b,
  length a = length b -> (equalStrings_from a b = true <-> a = b).
Proof.
  induction a as [|x a IH]; intros [|y b] Hlen; try done.
  cbn [equalStrings_from]. injection Hlen as Hlen.
  destruct (String.eqb_spec x y) as [->|Hne].
  - rewrite (IH b Hlen). split; [by intros ->|by intros [= ->]].
  - split; [done|]. by intros [= ? ?].
Qed.

Lemma equalStrings_eq (a b : list string) : equalStrings a b = true <-> a = b.
Proof.
  unfold equalStrings.
  destruct (Nat.eqb_spec (length a) (length b)) as [Hlen|Hlen]; cbn [negb].
  - by apply equalStrings_from_eq.
  - split; [done|]. by intros ->.
Qed.

(** X1. [equalStrings] decides equality of two slices of strings: it
    answers true exactly when they have the same length and the same
    string at every index; slices of different lengths are unequal
    whatever they hold. *)
Theorem equalStrings_decides_equality (a b : list string) :
  (equalStrings a b = true <-> a = b)
  /\ (length a <> length b -> equalStrings a b = false).
Proof.
  split; [apply equalStrings_eq|].
  intros Hlen. unfold equalStrings.
  by destruct (Nat.eqb_spec (length a) (length b)).
Qed.

(** ** [filteredEnv] *)

Lemma filteredEnv_loop_filter env : forall out,
  filteredEnv_loop env out = out ++ filter (fun kv => env_key kv ∉ block) env.
Proof.
  induction env as [|kv env IH]; intros out; cbn [filteredEnv_loop].
  - by rewrite app_nil_r.
  - rewrite filter_cons. destruct (decide (env_key kv ∈ block)) as [Hb|Hb].
    + rewrite bool_decide_eq_true_2 by done. rewrite decide_False by tauto.
      apply IH.
    + rewrite bool_decide_eq_false_2 by done. rewrite decide_True by done.
      by rewrite IH, <- app_assoc.
Qed.

Lemma filteredEnv_filter env :
  filteredEnv env = filter (fun kv => env_key kv ∉ block) env.
Proof. unfold filteredEnv. by rewrite filteredEnv_loop_filter. Qed.

Lemma IndexByte_range s c : -1 <= IndexByte s c.
Proof.
  induction s as [|x s IH]; cbn [IndexByte]; [lia|].
  destruct (Ascii.eqb x c); [lia|]. destruct (Z.eqb_spec (IndexByte s c) (-1)); lia.
Qed.

(** The name of an entry that has an equals sign, and of one that has none. *)
Lemma env_key_cons x kv :
  env_key (String x kv) =
    if Ascii.eqb x "="%char then EmptyString else String x (env_key kv).
Proof.
  unfold env_key. cbn [IndexByte].
  destruct (Ascii.eqb x "="%char); [done|].
  pose proof (IndexByte_range kv "="%char) as Hr.
  destruct (Z.eqb_spec (IndexByte kv "="%char) (-1)) as [He|Hne]; cbn [negb].
  - done.
  - rewrite (proj2 (Z.eqb_neq _ _)) by lia. cbn [negb].
    replace (Z.to_nat (IndexByte kv "="%char + 1))
      with (S (Z.to_nat (IndexByte kv "="%char))) by lia.
    done.
Qed.

Lemma env_key_name name : forall kv,
  IndexByte name "="%char = -1 ->
  env_key kv = name <-> kv = name \/ exists value, kv = name +:+ "=" +:+ value.
Proof.
  induction name as [|c name IH]; intros kv Hname.
  - destruct kv as [|x kv]; [split; [by left|done]|].
    rewrite env_key_cons.
    destruct (Ascii.eqb_spec x "="%char) as [->|Hne].
    + split; [|done]. intros _. right. by exists kv.
    + split; [done|]. intros [|[value Hv]]; [done|].
      change (EmptyString +:+ "=" +:+ value) with (String "="%char value) in Hv.
      congruence.
  - cbn [IndexByte] in Hname.
    destruct (Ascii.eqb_spec c "="%char) as [|Hc]; [done|].
    pose proof (IndexByte_range name "="%char) as Hr.
    destruct (Z.eqb_spec (IndexByte name "="%char) (-1)) as [Hn|]; [|lia].
    destruct kv as [|x kv].
    + split; [done|]. intros [|[value Hv]]; [done|]. done.
    + rewrite env_key_cons.
      change (String c name +:+ "=" +:+ ?v) with (String c (name +:+ "=" +:+ v)).
      destruct (Ascii.eqb_spec x "="%char) as [->|Hx].
      * split; [done|]. intros [[= <- _]|[value [= <- _]]]; done.
      * split.
        -- intros [= -> Hk]. apply (IH kv Hn) in Hk as [->|[value ->]];
             [by left|right; by exists value].
        -- intros [[= -> ->]|[value [= -> ->]]]; f_equal; apply (IH _ Hn);
             [by left|right; by exists value].
Qed.

(** X2. [filteredEnv] keeps the entries of the environment in their
    order and drops exactly those that set [CODEX_SANDBOX] or
    [CODEX_SANDBOX_NETWORK_DISABLED]: an entry is dropped when it is one of
    the two names alone or one of them followed by an equals sign and any
    value (equals signs in the value included); every other entry is kept,
    also one whose name merely starts with a blocked name. *)
Theorem filteredEnv_drops_blocked_variables (env : list string) :
  filteredEnv env = filter (fun kv => env_key kv ∉ block) env
  /\ (forall kv, env_key kv ∈ block <->
        sets_variable "CODEX_SANDBOX" kv
        \/ sets_variable "CODEX_SANDBOX_NETWORK_DISABLED" kv)
  /\ (forall kv, kv ∈ filteredEnv env <->
        kv ∈ env /\ ~ sets_variable "CODEX_SANDBOX" kv
        /\ ~ sets_variable "CODEX_SANDBOX_NETWORK_DISABLED" kv).
Proof.
  assert (Hblock : forall kv, env_key kv ∈ block <->
            sets_variable "CODEX_SANDBOX" kv
            \/ sets_variable "CODEX_SANDBOX_NETWORK_DISABLED" kv).
  { intros kv. unfold block, sets_variable.
    rewrite <- !env_key_name by reflexivity.
    rewrite elem_of_union, !elem_of_singleton. tauto. }
  split; [apply filteredEnv_filter|]. split; [done|].
  intros kv. rewrite filteredEnv_filter, list_elem_of_filter, Hblock. tauto.
Qed.

(** X3. The environment slice of the child process: whatever the
    parent's environment and the path of the temporary home are, the slice
    [main] assigns to [cmd.Env] is the parent's entries less the blocked
    ones, in their order, then [CODEX_HOME] and [OPENAI_API_KEY] as the last
    two entries.  The parent's own entries of these two names stay in the
    slice, before the added ones: of the entries of the slice named
    [CODEX_HOME] the last is the one for the temporary home, and of those
    named [OPENAI_API_KEY] the last is the dummy key.  Filtering is
    idempotent and distributes over the concatenation of environments. *)
Theorem child_env_keeps_added_variables (environ : list string)
    (codexHome : string) :
  child_env environ codexHome
  = filteredEnv environ ++ ["CODEX_HOME=" +:+ codexHome; "OPENAI_API_KEY=dummy"]
  /\ last_entry "CODEX_HOME" (child_env environ codexHome)
     = Some ("CODEX_HOME=" +:+ codexHome)
  /\ last_entry "OPENAI_API_KEY" (child_env environ codexHome)
     = Some "OPENAI_API_KEY=dummy"
  /\ (forall env1 env2,
        filteredEnv (env1 ++ env2) = filteredEnv env1 ++ filteredEnv env2)
  /\ filteredEnv (filteredEnv environ) = filteredEnv environ.
Proof.
  assert (Happ : forall env1 env2,
            filteredEnv (env1 ++ env2) = filteredEnv env1 ++ filteredEnv env2).
  { intros env1 env2. by rewrite !filteredEnv_filter, filter_app. }
  assert (Hchild : child_env environ codexHome
                   = filteredEnv environ
                     ++ ["CODEX_HOME=" +:+ codexHome; "OPENAI_API_KEY=dummy"]).
  { unfold child_env. rewrite Happ. reflexivity. }
  split; [done|]. split; [|split; [|split; [done|]]].
  - unfold last_entry. rewrite Hchild, filter_app.
    assert (filter (fun kv => env_key kv = "CODEX_HOME")
              ["CODEX_HOME=" +:+ codexHome; "OPENAI_API_KEY=dummy"]
            = ["CODEX_HOME=" +:+ codexHome]) as -> by reflexivity.
    apply last_snoc.
  - unfold last_entry. rewrite Hchild, filter_app.
    assert (filter (fun kv => env_key kv = "OPENAI_API_KEY")
              ["CODEX_HOME=" +:+ codexHome; "OPENAI_API_KEY=dummy"]
            = ["OPENAI_API_KEY=dummy"]) as -> by reflexivity.
    apply last_snoc.
  - rewrite !filteredEnv_filter. apply list_filter_filter_l. done.
Qed.

(** ** [shellQuote] *)

Lemma IndexByte_absent_cons s c x :
  IndexByte (String x s) c = -1 <-> Ascii.eqb x c = false /\ IndexByte s c = -1.
Proof.
  cbn [IndexByte]. pose proof (IndexByte_range s c).
  destruct (Ascii.eqb x c); [split; [done|by intros []]|].
  destruct (Z.eqb_spec (IndexByte s c) (-1)); split; try done; try lia.
Qed.

Lemma ReplaceAll_absent s old new :
  IndexByte s old = -1 -> ReplaceAll s old new = s.
Proof.
  induction s as [|c s IH]; [done|].
  intros [Hc Hs]%IndexByte_absent_cons. cbn [ReplaceAll].
  by rewrite Hc, IH.
Qed.

(** The three branches of [shellQuote] are one: the text between single
    quotes, every single quote of it replaced. *)
Lemma shellQuote_ReplaceAll s :
  shellQuote s = "'" +:+ ReplaceAll s "'"%char quoted_quote +:+ "'".
Proof.
  unfold shellQuote. destruct (String.eqb_spec s EmptyString) as [->|Hne]; [done|].
  unfold ContainsRune.
  destruct (Z.eqb_spec (IndexByte s "'"%char) (-1)) as [Ha|]; cbn [negb]; [|done].
  by rewrite ReplaceAll_absent.
Qed.

Lemma sh_word_quoted s :
  sh_word SingleQuoted (ReplaceAll s "'"%char quoted_quote +:+ "'") = Some s.
Proof.
  induction s as [|c s IH]; [done|].
  cbn [ReplaceAll]. destruct (Ascii.eqb_spec c "'"%char) as [->|Hc].
  - rewrite string_app_assoc.
    change (quoted_quote +:+ ?x)
      with (String "'"%char (String "034"%char (String "'"%char
              (String "034"%char (String "'"%char x))))).
    cbn [sh_word Ascii.eqb Bool.eqb orb]. by rewrite IH.
  - change ((String c EmptyString +:+ ?x) +:+ ?y) with (String c (x +:+ y)).
    cbn [sh_word]. rewrite (proj2 (Ascii.eqb_neq _ _) Hc). by rewrite IH.
Qed.

(** The quoted form, read by a shell. *)
Lemma sh_word_shellQuote (s : string) : sh_word Unquoted (shellQuote s) = Some s.
Proof.
  rewrite shellQuote_ReplaceAll.
  change ("'" +:+ ?x) with (String "'"%char x). cbn [sh_word Ascii.eqb Bool.eqb].
  apply sh_word_quoted.
Qed.

(** X4. [shellQuote] quotes for a POSIX shell: whatever bytes the text
    holds (spaces, line feeds, dollar signs, quotes of both kinds), a shell
    reads its quoted form as one word, and that word is the text itself;
    the empty text is quoted as the empty word.  Hence distinct texts have
    distinct quoted forms. *)
Theorem shellQuote_round_trip (s : string) :
  sh_word Unquoted (shellQuote s) = Some s
  /\ shellQuote EmptyString = "''"
  /\ forall s', shellQuote s' = shellQuote s -> s' = s.
Proof.
  split; [apply sh_word_shellQuote|]. split; [done|].
  intros s' Hq. pose proof (sh_word_shellQuote s') as H1.
  rewrite Hq, sh_word_shellQuote in H1. congruence.
Qed.

(** ** The routes of [ServeHTTP] *)

Lemma string_rev_app_app s : forall acc,
  string_rev_app s acc = string_rev s +:+ acc.
Proof.
  unfold string_rev. induction s as [|c s IH]; intros acc; [done|].
  cbn [string_rev_app]. rewrite IH, (IH (String c EmptyString)).
  by rewrite string_app_assoc.
Qed.

Lemma string_rev_app_distr s1 s2 :
  string_rev (s1 +:+ s2) = string_rev s2 +:+ string_rev s1.
Proof.
  induction s1 as [|c s1 IH].
  - by rewrite string_app_nil_r.
  - change (String c s1 +:+ s2) with (String c (s1 +:+ s2)).
    unfold string_rev at 1 3. cbn [string_rev_app].
    by rewrite !string_rev_app_app, IH, string_app_assoc.
Qed.

Lemma HasSuffix_app (p suf : string) : HasSuffix (p +:+ suf) suf = true.
Proof. unfold HasSuffix. rewrite string_rev_app_distr. apply prefix_app. Qed.

Lemma compact_not_create (p : string) :
  HasSuffix (p +:+ "/responses/compact") "/responses" = false.
Proof. unfold HasSuffix. by rewrite string_rev_app_distr. Qed.

(** A request that is no create-response request leaves the server as it
    is and streams nothing. *)
Lemma ServeHTTP_other r s :
  is_create_response r = false ->
  (ServeHTTP r s).2 = s /\ streamed (ServeHTTP r s).1 = None.
Proof.
  intros Hc. unfold ServeHTTP. rewrite Hc.
  destruct (is_list_models r); [done|]. by destruct (is_compact r).
Qed.

(** X5. The routes of the stub server, for every prefix of the path (the
    base URL of the provider): a GET of [.../models] gets the empty model
    list; a POST of [.../responses/compact] gets the fixed summary and is
    never taken for a create-response request, although its path, too, lies
    under [/responses]; a POST of [.../responses] is a create-response
    request; a request with any other method gets 404.  None of the
    answers but that of a create-response request touches the queue or the
    log. *)
Theorem ServeHTTP_routes (p body : string) (s : stubServer) :
  ServeHTTP {| Method := "GET"; URLPath := p +:+ "/models"; Body := body |} s
    = (json_response models_body, s)
  /\ ServeHTTP {| Method := "POST"; URLPath := p +:+ "/responses/compact";
                  Body := body |} s
    = (json_response summary_body, s)
  /\ is_create_response
       {| Method := "POST"; URLPath := p +:+ "/responses"; Body := body |} = true
  /\ (forall m path, m <> "GET" -> m <> "POST" ->
        ServeHTTP {| Method := m; URLPath := path; Body := body |} s
        = (http_NotFound, s))
  /\ (forall r, is_create_response r = false -> (ServeHTTP r s).2 = s).
Proof.
  split; [|split; [|split; [|split]]].
  - unfold ServeHTTP, is_list_models. cbn [Method URLPath].
    by rewrite HasSuffix_app.
  - unfold ServeHTTP, is_list_models, is_create_response, is_compact.
    cbn [Method URLPath]. by rewrite compact_not_create, HasSuffix_app.
  - unfold is_create_response. cbn [Method URLPath]. by rewrite HasSuffix_app.
  - intros m path Hget Hpost.
    unfold ServeHTTP, is_list_models, is_create_response, is_compact.
    cbn [Method URLPath].
    rewrite (proj2 (String.eqb_neq m "GET") Hget).
    by rewrite (proj2 (String.eqb_neq m "POST") Hpost).
  - intros r Hr. by apply ServeHTTP_other.
Qed.

Lemma serve_all_cons r rs s :
  serve_all (r :: rs) s =
    ((ServeHTTP r s).1 :: (serve_all rs (ServeHTTP r s).2).1,
     (serve_all rs (ServeHTTP r s).2).2).
Proof.
  cbn [serve_all]. unfold mbind, Srv_bind, mret, Srv_ret.
  destruct (ServeHTTP r s) as [resp s1]. cbn [fst snd].
  by destruct (serve_all rs s1).
Qed.

(** X6. Mixed traffic: for every sequence of requests of any kind, handled
    one after the other, there is one answer per request; the exchanges
    streamed, in the order of the answers, are the first exchanges of the
    queue, as many as there were create-response requests (or all of them,
    when the queue is shorter), and the queue that is left is the rest; the
    log grows by the non-empty payloads of the create-response requests
    only.  The other requests change nothing: the queue is never refilled
    and the log never shrinks. *)
Theorem serve_all_mixed_traffic (rs : list Request) (s : stubServer) :
  let creates := filter (fun r => is_create_response r = true) rs in
  let out := serve_all rs s in
  length out.1 = length rs
  /\ omap streamed out.1 = take (length creates) (sseQueue s)
  /\ sseQueue out.2 = drop (length creates) (sseQueue s)
  /\ responseReqs out.2 = foldl log_after (responseReqs s) (map Body creates).
Proof.
  cbn zeta. revert s. induction rs as [|r rs IH]; intros s.
  - cbn. by rewrite take_0, drop_0.
  - rewrite serve_all_cons. cbn [fst snd length omap list_omap].
    specialize (IH (ServeHTTP r s).2). destruct IH as (IH1 & IH2 & IH3 & IH4).
    rewrite filter_cons.
    destruct (is_create_response r) eqn:Hr.
    + rewrite decide_True by done.
      rewrite IH1, IH2, IH3, IH4. rewrite (ServeHTTP_create r s Hr).
      cbn [length map foldl].
      destruct (sseQueue s) as [|b q]; cbn [fst snd sseQueue responseReqs].
      * by rewrite !take_nil, !drop_nil.
      * done.
    + rewrite decide_False by done.
      destruct (ServeHTTP_other r s Hr) as [Hs Hn].
      rewrite IH1, IH2, IH3, IH4, Hs, Hn. done.
Qed.

(** ** The collector and the files of the hook script *)

Lemma ext_scan_plain b : forall cur,
  no_dot_slash b = true -> ext_scan b cur = cur.
Proof.
  induction b as [|c b IH]; intros cur; [done|].
  cbn [no_dot_slash ext_scan].
  intros [[Hd Hs]%andb_true_iff Hb]%andb_true_iff.
  apply negb_true_iff in Hd, Hs. rewrite Hd, Hs. by apply IH.
Qed.

Lemma ext_scan_last_dot a b : forall cur,
  no_dot_slash b = true ->
  ext_scan (a +:+ String "."%char b) cur = Some (String "."%char b).
Proof.
  induction a as [|c a IH]; intros cur Hb.
  - change (EmptyString +:+ ?x) with x. cbn [ext_scan Ascii.eqb Bool.eqb].
    by apply ext_scan_plain.
  - change (String c a +:+ ?x) with (String c (a +:+ x)). cbn [ext_scan].
    destruct (Ascii.eqb c "/"%char); [by apply IH|].
    destruct (Ascii.eqb c "."%char); by apply IH.
Qed.

Lemma Ext_last_dot a b :
  no_dot_slash b = true -> Ext (a +:+ "." +:+ b) = "." +:+ b.
Proof.
  intros Hb. unfold Ext.
  change ("." +:+ b) with (String "."%char b). by rewrite ext_scan_last_dot.
Qed.

Lemma substring_prefix a b : String.substring 0 (String.length a) (a +:+ b) = a.
Proof.
  induction a as [|c a IH]; [by destruct b|].
  change (String c a +:+ b) with (String c (a +:+ b)). cbn. by rewrite IH.
Qed.

Lemma TrimSuffix_app a suf : TrimSuffix (a +:+ suf) suf = a.
Proof.
  unfold TrimSuffix. rewrite HasSuffix_app, length_string_app.
  replace (String.length a + String.length suf - String.length suf)%nat
    with (String.length a) by lia.
  apply substring_prefix.
Qed.

Lemma stem_last_dot a b :
  no_dot_slash b = true -> stem (a +:+ "." +:+ b) = a.
Proof. intros Hb. unfold stem. rewrite Ext_last_dot by done. apply TrimSuffix_app. Qed.

Lemma parse_digits_stops a c b : forall acc,
  is_digit c = false -> parse_digits (a +:+ String c b) acc = None.
Proof.
  induction a as [|x a IH]; intros acc Hc.
  - change (EmptyString +:+ ?y) with y. cbn [parse_digits]. by rewrite Hc.
  - change (String x a +:+ ?y) with (String x (a +:+ y)). cbn [parse_digits].
    destruct (is_digit x); [by apply IH|done].
Qed.

Lemma Atoi_stops a c b :
  is_digit c = false -> c <> "-"%char -> c <> "+"%char ->
  Atoi (a +:+ String c b) = None.
Proof.
  intros Hc Hm Hp. unfold Atoi.
  destruct a as [|x a].
  - change (EmptyString +:+ ?y) with y. unfold split_sign.
    rewrite (proj2 (Ascii.eqb_neq _ _) Hm), (proj2 (Ascii.eqb_neq _ _) Hp).
    cbn [parse_digits]. by rewrite Hc.
  - change (String x a +:+ ?y) with (String x (a +:+ y)). unfold split_sign.
    destruct (Ascii.eqb x "-"%char); [|destruct (Ascii.eqb x "+"%char)].
    + rewrite parse_digits_stops by done. by destruct (a +:+ String c b).
    + rewrite parse_digits_stops by done. by destruct (a +:+ String c b).
    + rewrite (parse_digits_stops (String x a) c b) by done. done.
Qed.

Lemma Atoi_Itoa n : minInt <= n <= maxInt -> Atoi (Itoa n) = Some n.
Proof.
  intros Hn. unfold Itoa. destruct (Z.ltb_spec n 0) as [Hneg|Hpos].
  - unfold Atoi. cbn [split_sign Ascii.eqb Bool.eqb].
    destruct (FormatUint_shape (- n)) as (d & r & Hs & _); [lia|].
    rewrite parse_FormatUint by lia. rewrite Hs, Z.opp_involutive.
    destruct (Z.leb_spec minInt n); [|lia].
    by destruct (Z.leb_spec n maxInt); [|lia].
  - destruct (Z.eq_dec n 0) as [->|Hnz]; [done|].
    destruct (FormatUint_shape n) as (d & r & Hs & Hd & _); [lia|].
    unfold Atoi. pose proof (parse_FormatUint n Hpos) as Hp. rewrite Hs in *.
    unfold split_sign.
    assert (Ascii.eqb d "-"%char = false /\ Ascii.eqb d "+"%char = false) as [-> ->].
    { apply nonzero_digit_val in Hd as [_ Hd].
      split; apply Ascii.eqb_neq; intros ->; vm_compute in Hd;
        destruct Hd as [Hd _]; by destruct Hd. }
    rewrite Hp.
    destruct (Z.leb_spec minInt n); [|lia].
    by destruct (Z.leb_spec n maxInt); [|lia].
Qed.

(** X7. The two names the hook script uses.  The record of a call is
    written to [$seq.json.tmp.$$] and then moved to [$seq.json].  Whatever
    [seq] is, the stem of the final name is [seq] itself, so the file counts
    as a record exactly when [strconv.Atoi] accepts [seq]; and the temporary
    file is never taken for a record, for any process number: its stem ends
    in [.json.tmp].  A scan therefore never reads a record that is still
    being written. *)
Theorem temporary_files_are_not_records (seq pid : string) :
  no_dot_slash pid = true ->
  stem (record_name seq) = seq
  /\ (is_record (file (record_name seq)) = true <-> is_Some (Atoi seq))
  /\ stem (temp_name seq pid) = seq +:+ ".json.tmp"
  /\ is_record (file (temp_name seq pid)) = false
  /\ forall fs dir, hook_of fs dir (file (temp_name seq pid)) = None.
Proof.
  intros Hpid.
  assert (Hrec : stem (record_name seq) = seq) by (by apply (stem_last_dot seq "json")).
  assert (Htmp : stem (temp_name seq pid) = seq +:+ ".json.tmp").
  { unfold temp_name.
    replace (seq +:+ ".json.tmp." +:+ pid) with ((seq +:+ ".json.tmp") +:+ "." +:+ pid)
      by (by rewrite string_app_assoc).
    by apply stem_last_dot. }
  assert (Hnot : is_record (file (temp_name seq pid)) = false).
  { unfold is_record. cbn [file IsDir Name negb andb]. rewrite Htmp.
    change (seq +:+ ".json.tmp") with (seq +:+ String "."%char "json.tmp").
    rewrite Atoi_stops by done. apply bool_decide_eq_false. by intros [? ?]. }
  split; [done|]. split; [|split; [done|split; [done|]]].
  - unfold is_record. cbn [file IsDir Name negb andb]. rewrite Hrec.
    apply bool_decide_eq_true.
  - intros fs dir. by apply hook_of_not_record.
Qed.

Lemma temporary_files_are_not_records_witness :
  stem (record_name "3") = "3"
  /\ is_record (file (temp_name "3" "4242")) = false.
Proof.
  destruct (temporary_files_are_not_records "3" "4242") as (H1 & _ & _ & H2 & _);
    [reflexivity|]. by split.
Defined.

(** X8. Numbering the record files: for every number [n] in the range of
    [int], the file [Itoa n] followed by [.json] is a record whose sequence
    number the collector reads back as [n], and a record that carries the
    same numeral in its [seq] field passes the cross-check of the
    validator.  [strconv.Atoi] inverts [strconv.Itoa] on the whole range,
    negative numbers included. *)
Theorem record_number_round_trip (n : Z) :
  minInt <= n <= maxInt ->
  Atoi (Itoa n) = Some n
  /\ seq_of_entry (file (record_name (Itoa n))) = Some n
  /\ forall fs dir c,
       hook_of fs dir (file (record_name (Itoa n))) = Some c ->
       Seq c = n /\ (SeqStr c = Itoa n -> seq_check c = true).
Proof.
  intros Hn. pose proof (Atoi_Itoa n Hn) as Ha.
  assert (Hstem : stem (record_name (Itoa n)) = Itoa n)
    by (by apply (stem_last_dot _ "json")).
  split; [done|]. split.
  - unfold seq_of_entry. cbn [file IsDir Name]. by rewrite Hstem.
  - intros fs dir c Hc. apply hook_of_Some in Hc as (_ & Hseq & _).
    cbn [file Name] in Hseq. rewrite Hstem, Ha in Hseq. injection Hseq as Hseq.
    split; [done|]. intros Hs. apply seq_check_iff. right. by rewrite <- Hseq.
Qed.

Lemma record_number_round_trip_witness :
  Atoi (Itoa (-42)) = Some (-42)
  /\ seq_of_entry (file (record_name (Itoa (-42)))) = Some (-42).
Proof.
  destruct (record_number_round_trip (-42)) as (H1 & H2 & _);
    [by vm_compute|]. by split.
Defined.

(** ** What a scan reads and how it fails *)

Section scan_edges.
Context {sorter : SortSlice}.
Implicit Types (fs : FS) (dir : string) (ent : DirEntry)
         (entries : list DirEntry).

Lemma sort_Slice_nil : sort_Slice [] = [].
Proof. apply Permutation_nil. symmetry. apply sort_Slice_perm. Qed.

Lemma entry_error_kinds fs dir ent err :
  entry_error fs dir ent = Some err ->
  is_record ent = true
  /\ (err = ErrReadFile (Join dir (Name ent))
      \/ err = ErrParseHookRecord (Join dir (Name ent))).
Proof.
  unfold entry_error, unreadable, malformed.
  destruct (is_record ent); [|done]. cbn [andb].
  destruct (bool_decide _); [intros [= <-]; by eauto|].
  destruct (ReadFile fs _) as [b|]; [|done].
  destruct (bool_decide _); [intros [= <-]; by eauto|done].
Qed.

(** X9. A scan opens record files only.  Two file systems that list the
    same entries for the directory and hold the same content (or the same
    failure) for every entry that is a record file give the same scan,
    whatever the other entries are: sub-directories, files whose stem is no
    integer and files with other names are never read, so an unreadable or
    half-written stray file cannot make a scan fail. *)
Theorem readHookCallsOnce_reads_only_records fs1 fs2 dir entries :
  ReadDir fs1 dir = Some entries ->
  ReadDir fs2 dir = Some entries ->
  (forall ent, ent ∈ entries -> is_record ent = true ->
     ReadFile fs1 (Join dir (Name ent)) = ReadFile fs2 (Join dir (Name ent))) ->
  readHookCallsOnce fs1 dir = readHookCallsOnce fs2 dir.
Proof.
  intros Hd1 Hd2 Hsame.
  rewrite (readHookCallsOnce_spec fs1 dir entries Hd1).
  rewrite (readHookCallsOnce_spec fs2 dir entries Hd2).
  assert (Herr : omap (entry_error fs1 dir) entries
                 = omap (entry_error fs2 dir) entries
                 /\ omap (hook_of fs1 dir) entries
                    = omap (hook_of fs2 dir) entries).
  { clear Hd1 Hd2. induction entries as [|ent entries IH]; [done|].
    destruct IH as [IH1 IH2].
    { intros e He. apply Hsame. by right. }
    cbn [omap list_omap]. rewrite IH1, IH2.
    destruct (is_record ent) eqn:Hrec.
    - assert (He : entry_error fs1 dir ent = entry_error fs2 dir ent).
      { unfold entry_error, unreadable, malformed.
        by rewrite (Hsame ent (list_elem_of_here _ _) Hrec). }
      assert (Hh : hook_of fs1 dir ent = hook_of fs2 dir ent).
      { unfold hook_of. by rewrite (Hsame ent (list_elem_of_here _ _) Hrec). }
      by rewrite He, Hh.
    - rewrite !hook_of_not_record by done.
      unfold entry_error, unreadable, malformed. by rewrite Hrec. }
  destruct Herr as [-> ->]. done.
Qed.

(** X10. How a scan ends.  It fails with the error of [os.ReadDir] when
    the directory cannot be listed.  Otherwise it goes through the listing
    in its order and fails at the first record file that cannot be read or
    decoded, with the read error or the parse error of that file's path,
    whatever follows it in the listing; it succeeds exactly when no record
    file fails, and a listing without record files (an empty one included)
    gives the empty set. *)
Theorem scan_fails_at_first_bad_record fs dir :
  (ReadDir fs dir = None -> readHookCallsOnce fs dir = Err (ErrReadDir dir))
  /\ forall entries, ReadDir fs dir = Some entries ->
       (forall pre bad post err,
          entries = pre ++ bad :: post ->
          (forall e, e ∈ pre -> entry_error fs dir e = None) ->
          entry_error fs dir bad = Some err ->
          readHookCallsOnce fs dir = Err err
          /\ is_record bad = true
          /\ (err = ErrReadFile (Join dir (Name bad))
              \/ err = ErrParseHookRecord (Join dir (Name bad))))
       /\ ((exists calls, readHookCallsOnce fs dir = Ok calls) <->
           forall e, e ∈ entries -> entry_error fs dir e = None)
       /\ ((forall e, e ∈ entries -> is_record e = false) ->
           readHookCallsOnce fs dir = Ok []).
Proof.
  split.
  { intros Hd. unfold readHookCallsOnce. by rewrite Hd. }
  intros entries Hd. rewrite (readHookCallsOnce_spec fs dir entries Hd).
  assert (Hnone : (forall e, e ∈ entries -> entry_error fs dir e = None) ->
                  omap (entry_error fs dir) entries = []).
  { clear Hd. induction entries as [|x entries IH]; intros Hall; [done|].
    cbn [omap list_omap]. rewrite (Hall x) by left.
    apply IH. intros e He. apply Hall. by right. }
  split; [|split].
  - intros pre bad post err -> Hpre Hbad.
    rewrite omap_app.
    assert (omap (entry_error fs dir) pre = []) as ->.
    { clear -Hpre. induction pre as [|x pre IH]; [done|].
      cbn [omap list_omap]. rewrite (Hpre x) by left.
      apply IH. intros e He. apply Hpre. by right. }
    cbn [app omap list_omap]. rewrite Hbad. cbn [head].
    split; [done|]. by apply (entry_error_kinds fs dir bad err).
  - split.
    + intros [calls Hok] e He.
      destruct (entry_error fs dir e) as [err|] eqn:Herr; [|done].
      destruct (first_failure_split fs dir entries e He) as (? & ? & ? & ? & _ & _ & _ & Hhd);
        [by rewrite Herr|].
      by rewrite Hhd in Hok.
    + intros Hall. rewrite (Hnone Hall). by eexists.
  - intros Hrec.
    assert (Hall : forall e, e ∈ entries -> entry_error fs dir e = None).
    { intros e He. unfold entry_error, unreadable, malformed.
      by rewrite (Hrec e He). }
    rewrite (Hnone Hall). cbn [head]. f_equal.
    assert (omap (hook_of fs dir) entries = []) as ->; [|apply sort_Slice_nil].
    clear -Hrec. induction entries as [|x entries IH]; [done|].
    cbn [omap list_omap]. rewrite hook_of_not_record by (apply Hrec; left).
    apply IH. intros e He. apply Hrec. by right.
Qed.

End scan_edges.

Lemma readHookCallsOnce_reads_only_records_witness :
  readHookCallsOnce
    (fs_of calls_dir [file "0.json"; file "notes.txt"]
       [record_file 0 "turn_started" "turn_started"]) calls_dir
  = readHookCallsOnce
      (fs_of calls_dir [file "0.json"; file "notes.txt"]
         [record_file 0 "turn_started" "turn_started";
          (Join calls_dir "notes.txt", "scratch")]) calls_dir.
Proof.
  apply (readHookCallsOnce_reads_only_records _ _ _
           [file "0.json"; file "notes.txt"]); [reflexivity|reflexivity|].
  intros ent Hent Hrec.
  apply elem_of_cons in Hent as [->|Hent]; [reflexivity|].
  apply list_elem_of_singleton in Hent as ->. vm_compute in Hrec. discriminate.
Defined.

(** ** Concurrent handlers run to their end *)

Section fairness.
Import Concurrent Fairness.
Variable s0 : stubServer.
Implicit Types (c : config) (hist : list (nat * op)) (t : thread).

Lemma run_app sched1 sched2 : forall c hist,
  run (sched1 ++ sched2) c hist
  = run sched2 (run sched1 c hist).1 (run sched1 c hist).2.
Proof.
  induction sched1 as [|i sched1 IH]; intros c hist; [done|].
  cbn [app run]. destruct (step i c) as [c' ev]. apply IH.
Qed.

Lemma sum_list_insert {A} (f : A -> nat) (l : list A) i x y :
  l !! i = Some x ->
  (sum_list (map f (<[i := y]> l)) + f x = sum_list (map f l) + f y)%nat.
Proof.
  revert i. induction l as [|z l IH]; intros [|i] Hi; try done.
  - injection Hi as ->. cbn. lia.
  - change (<[S i := y]> (z :: l)) with (z :: <[i := y]> l).
    cbn [map sum_list]. specialize (IH i Hi). lia.
Qed.

Lemma step_threads_length i c : length (threads (step i c).1) = length (threads c).
Proof.
  unfold step. destruct (threads c !! i) as [t|]; [|done].
  destruct (thread_step t (locked c) (server c)) as [[[t' l'] s'] ev].
  cbn. apply length_insert.
Qed.

Lemma run_threads_length sched : forall c hist,
  length (threads (run sched c hist).1) = length (threads c).
Proof.
  induction sched as [|i sched IH]; intros c hist; [done|].
  cbn [run]. pose proof (step_threads_length i c) as Hl.
  destruct (step i c) as [c' ev]. by rewrite IH.
Qed.

(** A step either changes nothing or brings its handler nearer to its
    end. *)
Lemma step_cases i c :
  (step i c).1 = c \/ (work (step i c).1 < work c)%nat.
Proof.
  unfold step. destruct (threads c !! i) as [t|] eqn:Hi; [|by left].
  assert (Hstay : {| locked := locked c; server := server c;
                     threads := <[i := t]> (threads c) |} = c).
  { rewrite list_insert_id by done. by destruct c. }
  assert (Hmove : forall t' l' s', (remaining (at_pc t') < remaining (at_pc t))%nat ->
    (work {| locked := l'; server := s'; threads := <[i := t']> (threads c) |}
     < work c)%nat).
  { intros t' l' s' Hlt. unfold work. cbn [threads].
    pose proof (sum_list_insert (fun t => remaining (at_pc t)) _ i t t' Hi). lia. }
  unfold thread_step. destruct t as [p pc0]. cbn [payload at_pc] in *.
  destruct pc0 as [| |old| | | | |body|body ok|resp|]; cbn [fst snd];
    try (by left); try (right; apply Hmove; cbn; lia).
  - destruct (locked c); [by left|]. right. apply Hmove; cbn; lia.
  - destruct (locked c); [by left|]. right. apply Hmove; cbn; lia.
  - destruct (length (sseQueue (server c)) =? 0)%nat; right; apply Hmove; cbn; lia.
  - destruct (sseQueue (server c)); right; apply Hmove; cbn; lia.
  - destruct (sseQueue (server c)); right; apply Hmove; cbn; lia.
Qed.

(** A handler that is not at its end moves when the mutex is free or its
    own. *)
Lemma step_enabled i c t :
  threads c !! i = Some t ->
  (0 < remaining (at_pc t))%nat ->
  locked c = false \/ holding (at_pc t) = true ->
  (work (step i c).1 < work c)%nat.
Proof.
  intros Hi Hrem Hen. unfold step. rewrite Hi.
  assert (Hmove : forall t' l' s', (remaining (at_pc t') < remaining (at_pc t))%nat ->
    (work {| locked := l'; server := s'; threads := <[i := t']> (threads c) |}
     < work c)%nat).
  { intros t' l' s' Hlt. unfold work. cbn [threads].
    pose proof (sum_list_insert (fun t => remaining (at_pc t)) _ i t t' Hi). lia. }
  unfold thread_step. destruct t as [p pc0]. cbn [payload at_pc] in *.
  destruct pc0 as [| |old| | | | |body|body ok|resp|]; cbn [fst snd];
    cbn in Hrem; try lia; try (apply Hmove; cbn; lia).
  - destruct Hen as [->|]; [|done]. apply Hmove; cbn; lia.
  - destruct Hen as [->|]; [|done]. apply Hmove; cbn; lia.
  - destruct (length (sseQueue (server c)) =? 0)%nat; apply Hmove; cbn; lia.
  - destruct (sseQueue (server c)); apply Hmove; cbn; lia.
  - destruct (sseQueue (server c)); apply Hmove; cbn; lia.
Qed.

Lemma run_cases sched : forall c hist,
  (run sched c hist).1 = c \/ (work (run sched c hist).1 < work c)%nat.
Proof.
  induction sched as [|i sched IH]; intros c hist; [by left|].
  cbn [run]. pose proof (step_cases i c) as Hs.
  destruct (step i c) as [c' ev]. cbn [fst] in Hs.
  destruct (IH c' (hist ++ match ev with Some e => [e] | None => [] end)) as [->|Hlt].
  - done.
  - right. destruct Hs as [->|]; lia.
Qed.

Lemma run_work_le sched c hist : (work (run sched c hist).1 <= work c)%nat.
Proof. destruct (run_cases sched c hist) as [->|]; lia. Qed.

(** No deadlock: while some handler is not at its end, some handler can
    move. *)
Lemma some_handler_enabled c hist :
  invariant s0 c hist -> (0 < work c)%nat ->
  exists i t, threads c !! i = Some t
    /\ (0 < remaining (at_pc t))%nat
    /\ (locked c = false \/ holding (at_pc t) = true).
Proof.
  intros Hinv Hw. destruct (locked c) eqn:Hl.
  - apply (inv_locked s0 c hist Hinv) in Hl as (i & t & Hi & Hh).
    exists i, t. split; [done|]. split; [|by right].
    destruct (at_pc t); cbn in *; try done; lia.
  - assert (exists i t, threads c !! i = Some t /\ (0 < remaining (at_pc t))%nat)
      as (i & t & Hi & Hr).
    { unfold work in Hw. clear -Hw.
      induction (threads c) as [|t l IH]; cbn in Hw; [lia|].
      destruct (decide (0 < remaining (at_pc t))%nat) as [Hpos|Hz].
      - by exists 0%nat, t.
      - destruct IH as (i & t' & Hi & Hr); [lia|]. by exists (S i), t'. }
    exists i, t. split; [done|]. split; [done|]. by left.
Qed.

(** Every round of the round-robin schedule brings some handler nearer to
    its end. *)
Lemma round_decreases c hist :
  invariant s0 c hist -> (0 < work c)%nat ->
  (work (run (seq 0 (length (threads c))) c hist).1 < work c)%nat.
Proof.
  intros Hinv Hw.
  destruct (some_handler_enabled c hist Hinv Hw) as (i & t & Hi & Hr & Hen).
  assert (Hlt : (i < length (threads c))%nat) by (by eapply lookup_lt_Some).
  replace (length (threads c)) with (i + S (length (threads c) - S i))%nat by lia.
  rewrite seq_app, Nat.add_0_l. cbn [seq]. rewrite run_app. cbn [run].
  destruct (run_cases (seq 0 i) c hist) as [Heq|Hless].
  - rewrite Heq. pose proof (step_enabled i c t Hi Hr Hen) as Hs.
    destruct (step i c) as [c' ev]. cbn [fst] in Hs.
    pose proof (run_work_le (seq (S i) (length (threads c) - S i)) c'
                  ((run (seq 0 i) c hist).2 ++
                   match ev with Some e => [e] | None => [] end)). lia.
  - destruct (step_cases i (run (seq 0 i) c hist).1) as [Hs|Hs];
      destruct (step i (run (seq 0 i) c hist).1) as [c' ev]; cbn [fst] in Hs;
      pose proof (run_work_le (seq (S i) (length (threads c) - S i)) c'
                    ((run (seq 0 i) c hist).2 ++
                     match ev with Some e => [e] | None => [] end));
      [rewrite Hs in *|]; lia.
Qed.

Lemma round_robin_finishes rounds : forall c hist,
  invariant s0 c hist -> (work c <= rounds)%nat ->
  work (run (round_robin (length (threads c)) rounds) c hist).1 = 0%nat.
Proof.
  induction rounds as [|rounds IH]; intros c hist Hinv Hw.
  - cbn. lia.
  - unfold round_robin. cbn [replicate concat]. rewrite run_app.
    fold (round_robin (length (threads c)) rounds).
    set (r := run (seq 0 (length (threads c))) c hist).
    assert (Hl : length (threads c) = length (threads r.1))
      by (symmetry; apply run_threads_length).
    rewrite Hl. apply IH; [by apply invariant_run|]. unfold r.
    destruct (decide (0 < work c)%nat) as [Hpos|Hz].
    + pose proof (round_decreases c hist Hinv Hpos). lia.
    + pose proof (run_work_le (seq 0 (length (threads c))) c hist). lia.
Qed.

Lemma work_init bodies : (work (init s0 bodies) <= 9 * length bodies)%nat.
Proof.
  unfold work, init. cbn [threads].
  induction bodies as [|raw bodies IH]; [done|].
  cbn [map sum_list length]. unfold handler at 1. cbn [at_pc].
  destruct (negb _); cbn; lia.
Qed.

Lemma work_0_finished c hist i t :
  invariant s0 c hist -> work c = 0%nat -> threads c !! i = Some t ->
  finished t = true.
Proof.
  intros Hinv Hw Hi.
  pose proof (inv_local s0 c hist Hinv i t Hi) as Hloc.
  assert (remaining (at_pc t) = 0%nat) as Hr.
  { unfold work in Hw. clear Hloc. revert i Hi Hw. clear.
    induction (threads c) as [|x l IH]; intros [|i] Hi Hw; try done.
    - injection Hi as ->. cbn in Hw. lia.
    - cbn in Hw. apply (IH i Hi). lia. }
  unfold finished, local_ok in *. by destruct (at_pc t).
Qed.

End fairness.

(** X11. No deadlock and no starvation.  After any interleaving of the
    handlers of any number of create-response requests, giving every handler
    one step in turn, nine times the number of handlers over, brings every
    handler to its end: each request has its answer written, the mutex is
    free, and no handler panicked on the way.  (A handler takes nine steps
    at most, and in every round some handler that can move does.) *)
Theorem concurrent_handlers_complete (s0 : stubServer) (bodies : list string)
    (sched : list nat) :
  let n := length bodies in
  let out := Concurrent.run (sched ++ Fairness.round_robin n (9 * n))
               (Concurrent.init s0 bodies) [] in
  length (Concurrent.threads out.1) = n
  /\ (forall i t, Concurrent.threads out.1 !! i = Some t ->
        Fairness.finished t = true)
  /\ Concurrent.locked out.1 = false.
Proof.
  intros n out.
  set (mid := Concurrent.run sched (Concurrent.init s0 bodies) []).
  assert (Hout : out = Concurrent.run (Fairness.round_robin n (9 * n)) mid.1 mid.2)
    by apply run_app.
  pose proof (invariant_run s0 sched _ _ (invariant_init s0 bodies)) as Hmid.
  fold mid in Hmid.
  assert (Hlen : length (Concurrent.threads mid.1) = n).
  { unfold mid. rewrite run_threads_length. cbn. apply length_map. }
  assert (Hwork : (Fairness.work mid.1 <= 9 * n)%nat).
  { pose proof (run_work_le sched (Concurrent.init s0 bodies) []) as Hle.
    pose proof (work_init s0 bodies) as Hini. fold mid in Hle. unfold n. lia. }
  pose proof (round_robin_finishes s0 (9 * n) mid.1 mid.2 Hmid Hwork) as Hz.
  rewrite Hlen, <- Hout in Hz.
  pose proof (invariant_run s0 (Fairness.round_robin n (9 * n)) _ _ Hmid) as Hinv.
  rewrite <- Hout in Hinv.
  assert (Hfin : forall i t, Concurrent.threads out.1 !! i = Some t ->
                   Fairness.finished t = true).
  { intros i t Hi. by apply (work_0_finished s0 out.1 out.2 i t). }
  split; [|split; [done|]].
  - rewrite Hout, run_threads_length. done.
  - destruct (Concurrent.locked out.1) eqn:Hl; [|done].
    apply (Concurrent.inv_locked s0 _ _ Hinv) in Hl as (i & t & Hi & Hh).
    apply Hfin in Hi. unfold Fairness.finished in Hi.
    by destruct (Concurrent.at_pc t).
Qed.

(** ** What the handlers have got when all are at their end *)

Section outcome.
Import Concurrent Fairness.
Variable s0 : stubServer.
Variable bodies : list string.
Implicit Types (c : config) (hist : list (nat * op)) (t : thread).

Lemma omap_insert_same {A B} (f : A -> option B) (l : list A) i x y :
  l !! i = Some x -> f y = f x -> omap f (<[i := y]> l) = omap f l.
Proof.
  revert i. induction l as [|z l IH]; intros [|i] Hi Hf; try done.
  - injection Hi as ->. change (<[0%nat := y]> (x :: l)) with (y :: l).
    cbn [omap list_omap]. by rewrite Hf.
  - change (<[S i := y]> (z :: l)) with (z :: <[i := y]> l).
    cbn [omap list_omap]. by rewrite (IH i Hi Hf).
Qed.

Lemma omap_insert_new {A B} (f : A -> option B) (l : list A) i x y b :
  l !! i = Some x -> f x = None -> f y = Some b ->
  omap f (<[i := y]> l) ≡ₚ omap f l ++ [b].
Proof.
  revert i. induction l as [|z l IH]; intros [|i] Hi Hx Hy; try done.
  - injection Hi as ->. change (<[0%nat := y]> (x :: l)) with (y :: l).
    cbn [omap list_omap]. destruct (f y) as [b'|]; [|done]. injection Hy as ->.
    destruct (f x); [done|]. apply Permutation_cons_append.
  - change (<[S i := y]> (z :: l)) with (z :: <[i := y]> l).
    cbn [omap list_omap]. specialize (IH i Hi Hx Hy).
    destruct (f z); [|done]. cbn [app]. by constructor.
Qed.

(** What one step of a handler does to its place, by the operation it
    completes. *)
Lemma thread_step_effect t l s :
  let '(t', _, _, ev) := thread_step t l s in
  payload t' = payload t
  /\ match ev with
     | Some OpPop =>
         popped (at_pc t) = false /\ popped (at_pc t') = true
         /\ past_record (at_pc t) = true /\ past_record (at_pc t') = true
     | Some (OpRecord body) =>
         body = payload t
         /\ popped (at_pc t) = false /\ popped (at_pc t') = false
         /\ past_record (at_pc t) = false /\ past_record (at_pc t') = true
         /\ exists old, at_pc t = RecWrite old
     | None =>
         popped (at_pc t') = popped (at_pc t)
         /\ past_record (at_pc t') = past_record (at_pc t)
     end.
Proof.
  unfold thread_step. destruct t as [p pc0]. cbn [payload at_pc].
  destruct pc0 as [| |old| | | | |body|body ok|resp|]; cbn; try done.
  - by destruct l.
  - eauto 10.
  - by destruct l.
  - by destruct (length (sseQueue s) =? 0)%nat.
  - by destruct (sseQueue s).
  - by destruct (sseQueue s).
Qed.

Lemma pop_order_snoc hist e :
  pop_order (hist ++ [e])
  = pop_order hist ++ match e.2 with OpPop => [e.1] | OpRecord _ => [] end.
Proof. unfold pop_order. rewrite omap_app. cbn. by destruct e.2. Qed.

Lemma records_in_snoc hist e :
  records_in (hist ++ [e])
  = records_in hist ++ match e.2 with OpRecord body => [body] | OpPop => [] end.
Proof. unfold records_in. rewrite omap_app. cbn. by destruct e.2. Qed.

Lemma counting_init : counting bodies (init s0 bodies) [].
Proof.
  split; cbn [init threads].
  - rewrite map_map. by apply map_ext.
  - constructor.
  - intros i. split; [by intros ?%elem_of_nil|].
    intros (t & Hi & Hp). rewrite list_lookup_fmap in Hi.
    destruct (bodies !! i) as [raw|]; [|done]. injection Hi as <-.
    unfold handler in Hp. cbn [at_pc] in Hp. by destruct (negb _).
  - assert (omap recorded (map handler bodies) = []) as ->; [|done].
    induction bodies as [|raw l IH]; [done|].
    cbn [map omap list_omap]. rewrite IH.
    unfold recorded, handler. cbn [at_pc payload].
    by destruct (Json.Unmarshal_map raw).
Qed.

Lemma counting_step c hist i :
  invariant s0 c hist -> counting bodies c hist ->
  counting bodies (step i c).1
    (hist ++ match (step i c).2 with Some e => [e] | None => [] end).
Proof.
  intros Hinv [Hpay Hnd Hpops Hrec]. unfold step.
  destruct (threads c !! i) as [t|] eqn:Hi; [|by rewrite app_nil_r].
  pose proof (thread_step_effect t (locked c) (server c)) as Heff.
  pose proof (inv_local s0 c hist Hinv i t Hi) as Hloc.
  destruct (thread_step t (locked c) (server c)) as [[[t' l'] s'] ev].
  destruct Heff as [Hp Heff]. cbn [fst snd].
  assert (Hlook : forall j tj,
    <[i := t']> (threads c) !! j = Some tj ->
    (j = i /\ tj = t') \/ (j <> i /\ threads c !! j = Some tj)).
  { intros j tj. destruct (decide (j = i)) as [->|Hne].
    - rewrite list_lookup_insert_eq by (by eapply lookup_lt_Some).
      intros [= <-]. by left.
    - rewrite list_lookup_insert_ne by done. by right. }
  assert (Hkeep : popped (at_pc t') = popped (at_pc t) ->
    forall j, (exists tj, threads c !! j = Some tj /\ popped (at_pc tj) = true) <->
              (exists tj, <[i := t']> (threads c) !! j = Some tj
                          /\ popped (at_pc tj) = true)).
  { intros Hsame j. split.
    - intros (tj & Hj & Hpj). destruct (decide (j = i)) as [->|Hne].
      + exists t'. rewrite list_lookup_insert_eq by (by eapply lookup_lt_Some).
        rewrite Hi in Hj. injection Hj as <-. by rewrite Hsame.
      + exists tj. by rewrite list_lookup_insert_ne.
    - intros (tj & [[-> ->]|[Hne Hj]]%Hlook & Hpj).
      + exists t. by rewrite <- Hsame.
      + by exists tj. }
  split; cbn [threads].
  - rewrite <- Hpay. clear -Hi Hp. revert i Hi.
    induction (threads c) as [|z l IH]; intros [|i] Hi; try done.
    + injection Hi as ->. cbn. by rewrite Hp.
    + change (<[S i := t']> (z :: l)) with (z :: <[i := t']> l).
      cbn [map]. by rewrite (IH i Hi).
  - destruct ev as [[body|]|]; rewrite ?app_nil_r, ?pop_order_snoc;
      cbn [fst snd]; rewrite ?app_nil_r; try done.
    apply NoDup_app. split; [done|]. split; [|apply NoDup_singleton].
    intros j Hj ->%list_elem_of_singleton.
    apply Hpops in Hj as (tj & Hj & Hpj). rewrite Hi in Hj. injection Hj as <-.
    destruct Heff as (Hf & _). congruence.
  - intros j. destruct ev as [[body|]|]; rewrite ?app_nil_r, ?pop_order_snoc;
      cbn [fst snd]; rewrite ?app_nil_r.
    + rewrite Hpops. apply Hkeep. destruct Heff as (_ & -> & -> & _). done.
    + rewrite elem_of_app, list_elem_of_singleton, Hpops.
      destruct Heff as (Hf & Ht & _). split.
      * intros [(tj & Hj & Hpj)| ->].
        -- exists tj. rewrite list_lookup_insert_ne; [done|].
           intros <-. rewrite Hi in Hj. injection Hj as <-. congruence.
        -- exists t'. by rewrite list_lookup_insert_eq by (by eapply lookup_lt_Some).
      * intros (tj & [[-> ->]|[Hne Hj]]%Hlook & Hpj); [by right|].
        left. by exists tj.
    + rewrite Hpops. apply Hkeep. by destruct Heff as [-> _].
  - destruct ev as [[body|]|]; rewrite ?app_nil_r, ?records_in_snoc;
      cbn [fst snd]; rewrite ?app_nil_r.
    + destruct Heff as (-> & _ & _ & Hf & Ht & old & Hold).
      unfold local_ok in Hloc. rewrite Hold in Hloc. destruct Hloc as (_ & Hne & _).
      rewrite Hrec. symmetry.
      apply (omap_insert_new recorded _ i t t' (payload t) Hi).
      * unfold recorded. by rewrite Hf.
      * unfold recorded. rewrite Ht, Hp. by destruct (payload t).
    + rewrite Hrec. destruct Heff as (_ & _ & Hf & Ht).
      rewrite (omap_insert_same recorded _ i t t' Hi); [done|].
      unfold recorded. by rewrite Hf, Ht, Hp.
    + rewrite Hrec. destruct Heff as (_ & Hr).
      rewrite (omap_insert_same recorded _ i t t' Hi); [done|].
      unfold recorded. by rewrite Hr, Hp.
Qed.

Lemma counting_run sched : forall c hist,
  invariant s0 c hist -> counting bodies c hist ->
  counting bodies (run sched c hist).1 (run sched c hist).2.
Proof.
  induction sched as [|i sched IH]; intros c hist Hinv Hcnt; [done|].
  cbn [run]. pose proof (invariant_step s0 c hist i Hinv) as Hi.
  pose proof (counting_step c hist i Hinv Hcnt) as Hc.
  destruct (step i c) as [c' ev]. by apply IH.
Qed.

End outcome.

Section served_once.
Import Concurrent Fairness.
Variable s0 : stubServer.

Lemma pop_order_length hist : length (pop_order hist) = pops_in hist.
Proof.
  induction hist as [|[i o] hist IH]; [done|].
  unfold pop_order in *. cbn [omap list_omap pops_in snd fst].
  destruct o; cbn; by rewrite IH.
Qed.

Lemma answer_at_seq (q : list string) n : forall j,
  map (fun k => match q !! k with
                | Some body => stream_response body
                | None => exhausted_response
                end) (seq j n)
  = map stream_response (take n (drop j q))
    ++ replicate (n - length (drop j q)) exhausted_response.
Proof.
  induction n as [|n IH]; intros j; [done|].
  cbn [seq map]. rewrite IH.
  destruct (q !! j) as [b|] eqn:Hj.
  - rewrite (drop_S _ _ _ Hj). reflexivity.
  - apply lookup_ge_None in Hj.
    rewrite !drop_ge by lia. rewrite !take_nil. cbn [length].
    rewrite !Nat.sub_0_r. reflexivity.
Qed.

(** The handler that was the [k]-th to pop has the answer of position
    [k]. *)
Lemma popped_at_position bodies c hist k i t resp :
  invariant s0 c hist -> counting bodies c hist ->
  pop_order hist !! k = Some i ->
  threads c !! i = Some t -> at_pc t = Finished resp ->
  resp = answer_at s0 k.
Proof.
  intros Hinv Hcnt Hk Hi Hp.
  pose proof (inv_local s0 c hist Hinv i t Hi) as Hloc.
  unfold local_ok in Hloc. rewrite Hp in Hloc.
  destruct Hloc as (h1 & h2 & Hh & -> & _).
  rewrite popSSE_replay. unfold answer_at.
  assert (Hk' : pop_order hist !! pops_in h1 = Some i).
  { rewrite Hh. unfold pop_order. rewrite omap_app. cbn [omap list_omap snd fst].
    fold (pop_order h1). rewrite <- pop_order_length.
    by rewrite lookup_app_r, Nat.sub_diag by lia. }
  by rewrite (NoDup_lookup _ _ _ _ (cnt_nodup _ _ _ Hcnt) Hk Hk').
Qed.

End served_once.

(** X12. Served exactly once, whatever the interleaving.  When the
    handlers of [n] concurrent create-response requests have all written
    their answers, every handler has popped exactly once; the handler that
    was the [k]-th to pop has got the [k]-th exchange of the queue, or the
    exhaustion error when the queue is shorter; so the answers are, up to
    their order, the first [n] exchanges of the queue, each given to one
    request, and [n - length q] exhaustion errors.  The queue has lost its
    first [n] exchanges, and the log has gained the non-empty payloads of
    the requests, each once, in some order. *)
Theorem concurrent_requests_served_once (s0 : stubServer) (bodies : list string)
    (sched : list nat) :
  let n := length bodies in
  let c := (Concurrent.run sched (Concurrent.init s0 bodies) []).1 in
  let hist := (Concurrent.run sched (Concurrent.init s0 bodies) []).2 in
  forallb Fairness.finished (Concurrent.threads c) = true ->
  Fairness.pop_order hist ≡ₚ seq 0 n
  /\ (forall k i, Fairness.pop_order hist !! k = Some i ->
        exists t, Concurrent.threads c !! i = Some t
          /\ Concurrent.at_pc t = Concurrent.Finished (Fairness.answer_at s0 k))
  /\ Fairness.answers c
     ≡ₚ map stream_response (take n (sseQueue s0))
        ++ replicate (n - length (sseQueue s0)) exhausted_response
  /\ sseQueue (Concurrent.server c) = drop n (sseQueue s0)
  /\ responseReqs (Concurrent.server c)
     ≡ₚ responseReqs s0 ++ Fairness.logged_payloads bodies.
Proof.
  intros n c hist Hall.
  pose proof (invariant_run s0 sched _ _ (invariant_init s0 bodies)) as Hinv.
  pose proof (counting_run s0 bodies sched _ _ (invariant_init s0 bodies)
                (counting_init s0 bodies)) as Hcnt.
  fold c hist in Hinv, Hcnt.
  assert (Hlen : length (Concurrent.threads c) = n).
  { unfold c. rewrite run_threads_length. cbn. apply length_map. }
  assert (Hfin : forall i t, Concurrent.threads c !! i = Some t ->
            exists resp, Concurrent.at_pc t = Concurrent.Finished resp).
  { intros i t Hi. rewrite forallb_forall in Hall.
    specialize (Hall t). unfold Fairness.finished in Hall.
    destruct (Concurrent.at_pc t); try (by eexists);
      (assert (false = true) as Hf; [apply Hall|discriminate Hf]);
      apply list_elem_of_In; by eapply list_elem_of_lookup_2. }
  assert (Hperm : Fairness.pop_order hist ≡ₚ seq 0 n).
  { apply NoDup_Permutation.
    - apply (Fairness.cnt_nodup _ _ _ Hcnt).
    - apply NoDup_seq.
    - intros i. rewrite (Fairness.cnt_pops _ _ _ Hcnt), elem_of_seq. split.
      + intros (t & Hi & _). apply lookup_lt_Some in Hi. lia.
      + intros [_ Hi]. destruct (lookup_lt_is_Some_2 (Concurrent.threads c) i) as [t Ht];
          [lia|].
        exists t. split; [done|]. destruct (Hfin i t Ht) as [resp ->]. done. }
  assert (Hpos : forall k i, Fairness.pop_order hist !! k = Some i ->
            exists t, Concurrent.threads c !! i = Some t
              /\ Concurrent.at_pc t = Concurrent.Finished (Fairness.answer_at s0 k)).
  { intros k i Hk.
    assert (i ∈ Fairness.pop_order hist) as Hin by (by eapply list_elem_of_lookup_2).
    apply (Fairness.cnt_pops _ _ _ Hcnt) in Hin as (t & Hi & _).
    exists t. split; [done|]. destruct (Hfin i t Hi) as [resp Hp].
    by rewrite Hp, (popped_at_position s0 bodies c hist k i t resp). }
  assert (Hpops : Concurrent.pops_in hist = n).
  { rewrite <- pop_order_length, Hperm. apply length_seq. }
  split; [done|]. split; [done|]. split; [|split].
  - set (resp_of := fun i =>
           match Concurrent.threads c !! i with
           | Some t => match Concurrent.at_pc t with
                       | Concurrent.Finished resp => resp
                       | _ => exhausted_response
                       end
           | None => exhausted_response
           end).
    assert (Hans : Fairness.answers c = map resp_of (seq 0 n)).
    { unfold Fairness.answers. rewrite <- Hlen. clear -Hfin.
      assert (Hgen : forall l j,
        (forall i t, l !! i = Some t -> Concurrent.threads c !! (j + i)%nat = Some t) ->
        omap (fun t => match Concurrent.at_pc t with
                       | Concurrent.Finished resp => Some resp
                       | _ => None
                       end) l = map resp_of (seq j (length l))).
      { induction l as [|t l IH]; intros j Hl; [done|].
        cbn [omap list_omap length seq map].
        pose proof (Hl 0%nat t eq_refl) as Ht. rewrite Nat.add_0_r in Ht.
        destruct (Hfin j t Ht) as [resp Hp].
        unfold resp_of at 1. rewrite Ht, Hp. f_equal.
        apply IH. intros i t' Hi. replace (S j + i)%nat with (j + S i)%nat by lia.
        by apply Hl. }
      by apply Hgen. }
    assert (Hmap : map resp_of (Fairness.pop_order hist)
                   = map (Fairness.answer_at s0) (seq 0 n)).
    { apply list_eq. intros k. rewrite !list_lookup_fmap.
      destruct (Fairness.pop_order hist !! k) as [i|] eqn:Hk.
      - assert (k < n)%nat as Hlt.
        { apply lookup_lt_Some in Hk. by rewrite pop_order_length, Hpops in Hk. }
        rewrite lookup_seq_lt by done. cbn.
        destruct (Hpos k i Hk) as (t & Hi & Hp). unfold resp_of. by rewrite Hi, Hp.
      - apply lookup_ge_None in Hk. rewrite pop_order_length, Hpops in Hk.
        by rewrite lookup_seq_ge. }
    rewrite Hans, <- Hperm, Hmap. unfold Fairness.answer_at.
    by rewrite answer_at_seq, drop_0.
  - by rewrite (Concurrent.inv_replay _ _ _ Hinv), replay_queue, Hpops.
  - rewrite (Concurrent.inv_replay _ _ _ Hinv), replay_log.
    apply Permutation_app_head.
    rewrite (Fairness.cnt_records _ _ _ Hcnt).
    assert (Hrec : omap Fairness.recorded (Concurrent.threads c)
                   = omap (fun p : gomap => match p with [] => None | _ => Some p end)
                       (map Concurrent.payload (Concurrent.threads c))).
    { clear -Hfin.
      assert (Hgen : forall l,
        (forall t, t ∈ l -> exists resp, Concurrent.at_pc t = Concurrent.Finished resp) ->
        omap Fairness.recorded l
        = omap (fun p : gomap => match p with [] => None | _ => Some p end)
            (map Concurrent.payload l)).
      { induction l as [|t l IH]; intros Hl; [done|].
        cbn [map omap list_omap]. rewrite IH by (intros t' Ht'; apply Hl; by right).
        destruct (Hl t) as [resp Hp]; [by left|].
        unfold Fairness.recorded. rewrite Hp. cbn. by destruct (Concurrent.payload t). }
      apply Hgen. intros t [i Hi]%list_elem_of_lookup_1. by apply (Hfin i). }
    rewrite Hrec, (Fairness.cnt_payload _ _ _ Hcnt).
    assert (omap (fun p : gomap => match p with [] => None | _ => Some p end)
              (map Json.Unmarshal_map bodies) = Fairness.logged_payloads bodies)
      as ->; [|done].
    unfold Fairness.logged_payloads. clear.
    induction bodies as [|raw l IH]; [done|].
    cbn [map omap list_omap]. rewrite IH. by destruct (Json.Unmarshal_map raw).
Qed.

Lemma concurrent_requests_served_once_witness :
  let out := Concurrent.run
               [0; 0; 0; 0; 1; 1; 1; 1; 1; 1; 1; 1; 1; 0; 0; 0; 0; 0]%nat
               (Concurrent.init {| sseQueue := ["first"; "second"; "third"];
                                   responseReqs := [] |}
                  [model_payload; hook_record "1" "a" "a" "b"]) [] in
  Fairness.pop_order out.2 ≡ₚ [0; 1]%nat
  /\ sseQueue (Concurrent.server out.1) = ["third"].
Proof.
  destruct (concurrent_requests_served_once
              {| sseQueue := ["first"; "second"; "third"]; responseReqs := [] |}
              [model_payload; hook_record "1" "a" "a" "b"]
              [0; 0; 0; 0; 1; 1; 1; 1; 1; 1; 1; 1; 1; 0; 0; 0; 0; 0]%nat)
    as (H1 & _ & _ & H2 & _); [vm_compute; reflexivity|].
  split; [exact H1|exact H2].
Defined.

(** ** Payloads never break the framing *)

Lemma no_lf_app (s1 s2 : string) : no_lf (s1 +:+ s2) = no_lf s1 && no_lf s2.
Proof.
  induction s1 as [|c s1 IH]; [done|].
  change (String c s1 +:+ s2) with (String c (s1 +:+ s2)). cbn [no_lf].
  by rewrite IH, andb_assoc.
Qed.

Lemma no_lf_hex_digit d : 0 <= d < 16 -> Ascii.eqb (Json.hex_digit d) "010"%char = false.
Proof.
  intros Hd.
  assert (d = 0 \/ d = 1 \/ d = 2 \/ d = 3 \/ d = 4 \/ d = 5 \/ d = 6 \/ d = 7
          \/ d = 8 \/ d = 9 \/ d = 10 \/ d = 11 \/ d = 12 \/ d = 13 \/ d = 14
          \/ d = 15) as Hcases by lia.
  repeat (destruct Hcases as [->|Hcases]; [reflexivity|]). by rewrite Hcases.
Qed.

Lemma byte_of_range c : 0 <= byte_of c < 256.
Proof.
  unfold byte_of. pose proof (N_ascii_bounded c) as Hb. lia.
Qed.

Lemma no_lf_escape_byte c : no_lf (Json.escape_byte c) = true.
Proof.
  unfold Json.escape_byte. pose proof (byte_of_range c) as Hr.
  destruct (Z.eqb_spec (byte_of c) 34) as [H34|?].
  { cbn [orb no_lf]. destruct (Ascii.eqb_spec c "010"%char) as [->|]; [done|]. done. }
  destruct (Z.eqb_spec (byte_of c) 92) as [H92|?].
  { cbn [orb no_lf]. destruct (Ascii.eqb_spec c "010"%char) as [->|]; [done|]. done. }
  cbn [orb].
  destruct (byte_of c =? 8); [done|]. destruct (byte_of c =? 12); [done|].
  destruct (Z.eqb_spec (byte_of c) 10) as [H10|H10]; [done|].
  destruct (byte_of c =? 13); [done|]. destruct (byte_of c =? 9); [done|].
  destruct (_ || _).
  - rewrite no_lf_app. cbn [no_lf andb negb Ascii.eqb Bool.eqb].
    rewrite !no_lf_hex_digit; [done| |].
    + apply Z.mod_pos_bound. lia.
    + split; [apply Z.div_pos; lia|apply Z.div_lt_upper_bound; lia].
  - cbn [no_lf]. destruct (Ascii.eqb_spec c "010"%char) as [->|]; [done|]. done.
Qed.

Lemma high_byte_no_lf c : ascii_byte c = false -> Ascii.eqb c "010"%char = false.
Proof.
  intros Hc. destruct (Ascii.eqb_spec c "010"%char) as [->|]; [|done].
  by vm_compute in Hc.
Qed.

(** The bytes of a rune after its first are there, and are not ASCII. *)
Lemma rune_len_high c r k :
  Json.rune_len (String c r) = S k -> high_bytes k r = true.
Proof.
  unfold Json.rune_len, Json.continuation. intros H.
  destruct r as [|c1 [|c2 [|c3 r]]]; cbn [Json.byte_at String.get] in H;
    repeat match type of H with
           | context [if ?b then _ else _] => destruct b eqn:?
           end;
    try discriminate H; injection H as <-;
    cbn [high_bytes]; unfold ascii_byte; lia.
Qed.

Lemma line_separator_no_lf s esc :
  Json.line_separator s = Some esc -> no_lf esc = true.
Proof.
  unfold Json.line_separator.
  repeat match goal with
         | |- context [if ?b then _ else _] => destruct b
         end; by intros [= <-].
Qed.

(** The bytes between the quotes hold no line feed: an ASCII line feed is
    escaped, and the bytes of a rune that are copied are not ASCII. *)
Lemma no_lf_escape_from s : forall copy pending,
  high_bytes pending s = true -> no_lf (Json.escape_from copy pending s) = true.
Proof.
  induction s as [|c s IH]; intros copy pending Hp; [done|].
  destruct pending as [|k].
  - cbn [Json.escape_from].
    destruct (byte_of c <? 128) eqn:Hc.
    { by rewrite no_lf_app, no_lf_escape_byte, IH. }
    destruct (Json.rune_len (String c s)) as [|k] eqn:Hlen.
    { rewrite no_lf_app, IH by done. reflexivity. }
    apply rune_len_high in Hlen.
    destruct (Json.line_separator (String c s)) as [esc|] eqn:Hsep.
    + by rewrite no_lf_app, (line_separator_no_lf _ _ Hsep), IH.
    + cbn [no_lf]. by rewrite high_byte_no_lf, IH.
  - cbn [high_bytes] in Hp. apply andb_true_iff in Hp as [Hc Hp].
    apply negb_true_iff in Hc. cbn [Json.escape_from].
    destruct copy; [|by apply IH].
    cbn [no_lf]. by rewrite high_byte_no_lf, IH.
Qed.

Lemma no_lf_escape s : no_lf (Json.escape s) = true.
Proof. by apply no_lf_escape_from. Qed.

(** On ASCII text the library works byte by byte. *)
Lemma rune_len_ascii c r : ascii_byte c = true -> Json.rune_len (String c r) = 1%nat.
Proof.
  unfold ascii_byte, Json.rune_len. cbn [Json.byte_at String.get]. intros Hc.
  pose proof (byte_of_range c).
  destruct (Z.ltb_spec (byte_of c) 0); [lia|]. by rewrite Hc.
Qed.

Lemma to_valid_ascii s : ascii_text s = true -> Json.to_valid_utf8 s = s.
Proof.
  unfold Json.to_valid_utf8. induction s as [|c s IH]; [done|].
  cbn [ascii_text]. intros [Hc Hs]%andb_true_iff.
  cbn [Json.to_valid_from]. by rewrite (rune_len_ascii c s Hc), IH.
Qed.

Lemma escape_cons c s :
  ascii_byte c = true ->
  Json.escape (String c s) = Json.escape_byte c +:+ Json.escape s.
Proof.
  unfold Json.escape, ascii_byte. intros Hc. cbn [Json.escape_from]. by rewrite Hc.
Qed.

Lemma no_lf_quote s : no_lf (Json.quote s) = true.
Proof. unfold Json.quote. by rewrite !no_lf_app, no_lf_escape. Qed.

Lemma all_digits_no_lf s : all_digits s = true -> no_lf s = true.
Proof.
  induction s as [|c s IH]; [done|]. cbn [all_digits no_lf].
  intros [Hc Hs]%andb_true_iff. rewrite (IH Hs), andb_true_r.
  destruct (Ascii.eqb_spec c "010"%char) as [->|]; [done|]. done.
Qed.

Lemma no_lf_FormatUint n : 0 <= n -> no_lf (FormatUint n) = true.
Proof.
  intros Hn. destruct (Z.eq_dec n 0) as [->|Hnz]; [done|].
  destruct (FormatUint_shape n) as (d & r & -> & Hd & Hr); [lia|].
  cbn [no_lf]. rewrite (all_digits_no_lf r Hr), andb_true_r.
  destruct (Ascii.eqb_spec d "010"%char) as [->|]; [done|]. done.
Qed.

Lemma no_lf_Itoa n : no_lf (Itoa n) = true.
Proof.
  unfold Itoa. destruct (Z.ltb_spec n 0).
  - cbn [no_lf]. by rewrite no_lf_FormatUint by lia.
  - by apply no_lf_FormatUint.
Qed.

Lemma no_lf_join sep l :
  no_lf sep = true -> Forall (fun s => no_lf s = true) l ->
  no_lf (Json.join sep l) = true.
Proof.
  intros Hsep. induction 1 as [|s l Hs Hl IH]; [done|].
  cbn [Json.join]. destruct l as [|s' l]; [done|].
  by rewrite !no_lf_app, Hs, Hsep, IH.
Qed.

Lemma insert_key_Forall {A} (P : string * A -> Prop) k x l :
  P (k, x) -> Forall P l -> Forall P (Json.insert_key k x l).
Proof.
  intros Hk. induction 1 as [|[k' x'] l Hx Hl IH]; cbn [Json.insert_key].
  - by constructor.
  - destruct (String.leb k k'); repeat constructor; done.
Qed.

Lemma sort_keys_Forall {A} (P : string * A -> Prop) l :
  Forall P l -> Forall P (Json.sort_keys l).
Proof.
  induction 1 as [|[k x] l Hx Hl IH]; cbn [Json.sort_keys]; [done|].
  by apply insert_key_Forall.
Qed.

(** Induction on a JSON value and on the values inside it. *)
Lemma value_nested_ind (P : Json.value -> Prop) :
  P Json.JNull -> (forall b, P (Json.JBool b)) -> (forall n, P (Json.JInt n)) ->
  (forall lit, P (Json.JFloat lit)) -> (forall s, P (Json.JString s)) ->
  (forall elems, Forall P elems -> P (Json.JArray elems)) ->
  (forall kvs, Forall (fun kv => P kv.2) kvs -> P (Json.JObject kvs)) ->
  forall v, P v.
Proof.
  intros Hnull Hbool Hint Hfloat Hstr Harr Hobj.
  fix IH 1. intros [|b|n|lit|s|elems|kvs];
    [exact Hnull|apply Hbool|apply Hint|apply Hfloat|apply Hstr| |].
  - apply Harr. induction elems as [|x elems IHl]; constructor; [apply IH|done].
  - apply Hobj. induction kvs as [|[k x] kvs IHl]; constructor; [apply IH|done].
Qed.

Lemma marshal_array elems :
  Json.marshal (Json.JArray elems)
  = "[" +:+ Json.join "," (map Json.marshal elems) +:+ "]".
Proof.
  reflexivity.
Qed.

Lemma marshal_object kvs :
  Json.marshal (Json.JObject kvs)
  = "{" +:+ Json.join ","
              (map (fun '(k, s) => Json.quote k +:+ ":" +:+ s)
                   (Json.sort_keys (map (fun kv => (kv.1, Json.marshal kv.2)) kvs)))
    +:+ "}".
Proof.
  cbn [Json.marshal]. do 5 f_equal.
  induction kvs as [|[k x] kvs IH]; [done|]. cbn [map fst snd]. by rewrite IH.
Qed.

(** The JSON text of a value holds no line feed: the line feeds of its
    strings and keys are written as escapes. *)
Lemma no_lf_marshal v :
  lf_free_literals v = true -> no_lf (Json.marshal v) = true.
Proof.
  induction v as [|[]|n|lit|s|elems IH|kvs IH] using value_nested_ind;
    intros Hv; try done.
  - apply no_lf_Itoa.
  - apply no_lf_quote.
  - rewrite marshal_array, !no_lf_app. cbn [no_lf andb negb Ascii.eqb Bool.eqb].
    rewrite andb_true_r. apply no_lf_join; [done|].
    cbn [lf_free_literals] in Hv. rewrite forallb_forall in Hv.
    apply Forall_fmap, Forall_forall. intros x Hx. cbn.
    rewrite Forall_forall in IH. apply (IH x Hx), Hv. by apply list_elem_of_In.
  - rewrite marshal_object, !no_lf_app. cbn [no_lf andb negb Ascii.eqb Bool.eqb].
    rewrite andb_true_r. apply no_lf_join; [done|].
    cbn [lf_free_literals] in Hv. rewrite forallb_forall in Hv.
    apply Forall_fmap.
    apply (Forall_impl (fun ks : string * string => no_lf ks.2 = true)).
    + apply sort_keys_Forall, Forall_fmap, Forall_forall. intros [k x] Hx. cbn.
      rewrite Forall_forall in IH. apply (IH (k, x) Hx).
      apply (Hv (k, x)). by apply list_elem_of_In.
    + intros [k s] Hs. cbn in *. by rewrite !no_lf_app, no_lf_quote, Hs.
Qed.

(** The frames of an exchange whose kinds hold no line feed, read back. *)
Lemma sse_parse_frames (evs : list gomap) :
  Forall (fun ev => no_lf (event_kind ev) = true
                    /\ lf_free_literals (Json.JObject ev) = true) evs ->
  sse_parse (sse evs) = map frame_of evs.
Proof.
  induction 1 as [|ev evs [Hk Hv] Hevs IH]; [done|].
  cbn [sse map]. unfold frame_of at 1.
  assert (Hframe : sse_frame ev
            = frame_text (event_kind ev)
                (if (length ev =? 1)%nat then None
                 else Some (Json.marshal (Json.JObject ev)))).
  { unfold sse_frame, frame_text. by destruct (length ev =? 1)%nat. }
  rewrite Hframe, read_frame, IH; [done|done|].
  destruct (length ev =? 1)%nat; [done|]. by apply no_lf_marshal.
Qed.

(** X13. Payloads never break the framing.  The JSON text of an event
    holds no line feed, whatever its strings are: [json.Marshal] writes the
    line feeds of strings and keys as escapes.  So for every exchange whose
    kinds hold no line feed, a client that splits the stream at line feeds
    and blank lines reads back one frame per event, in order, with the kind
    and the very JSON text that [sse] wrote, and no data for an event whose
    map has exactly one entry, whether or not that entry is its kind.  This
    holds for the events that [evResponseCreated], [evCompleted],
    [evFunctionCallDone] and [evAssistantMessageDone] build from any strings,
    line feeds and quotes included. *)
Theorem sse_payloads_keep_framing (evs : list gomap) :
  Forall (fun ev => no_lf (event_kind ev) = true
                    /\ lf_free_literals (Json.JObject ev) = true) evs ->
  (forall ev, ev ∈ evs -> no_lf (Json.marshal (Json.JObject ev)) = true)
  /\ sse_parse (sse evs) = map frame_of evs
  /\ forall id callID name arguments text,
       sse_parse (sse [evResponseCreated id;
                       evFunctionCallDone callID name arguments;
                       evAssistantMessageDone id text;
                       evCompleted id])
       = map frame_of [evResponseCreated id;
                       evFunctionCallDone callID name arguments;
                       evAssistantMessageDone id text;
                       evCompleted id].
Proof.
  intros Hevs. split; [|split].
  - intros ev Hev. rewrite Forall_forall in Hevs.
    apply no_lf_marshal. by apply (Hevs ev Hev).
  - by apply sse_parse_frames.
  - intros id callID name arguments text. apply sse_parse_frames.
    repeat constructor.
Qed.

Lemma sse_payloads_keep_framing_witness :
  sse_parse (sse [evFunctionCallDone "call-1" "shell" ("line 1" +:+ nl +:+ "line 2")])
  = [frame_of (evFunctionCallDone "call-1" "shell" ("line 1" +:+ nl +:+ "line 2"))].
Proof.
  apply (sse_payloads_keep_framing
           [evFunctionCallDone "call-1" "shell" ("line 1" +:+ nl +:+ "line 2")]).
  repeat constructor.
Defined.

(** ** The records of the hook script, decoded *)

Lemma ascii_text_app (s1 s2 : string) :
  ascii_text (s1 +:+ s2) = ascii_text s1 && ascii_text s2.
Proof.
  induction s1 as [|c s1 IH]; [done|].
  change (String c s1 +:+ s2) with (String c (s1 +:+ s2)). cbn [ascii_text].
  by rewrite IH, andb_assoc.
Qed.

Lemma json_plain_ascii s : json_plain s = true -> ascii_text s = true.
Proof.
  induction s as [|c s IH]; [done|]. cbn [json_plain ascii_text].
  unfold json_plain_byte. rewrite !andb_true_iff.
  intros [[[[_ Hc] _] _] Hs]. by rewrite Hc, IH.
Qed.

Lemma parse_string_body_copy s rest : forall fuel,
  json_plain s = true -> (String.length s < fuel)%nat ->
  Json.parse_string_body fuel (s +:+ String "034"%char rest) = Some (s, rest).
Proof.
  induction s as [|c s IH]; intros fuel Hs Hf.
  - destruct fuel as [|fuel]; [cbn in Hf; lia|]. reflexivity.
  - destruct fuel as [|fuel]; [cbn in Hf; lia|].
    cbn [json_plain] in Hs. apply andb_true_iff in Hs as [Hc Hs].
    unfold json_plain_byte in Hc.
    apply andb_true_iff in Hc as [[H32 H34]%andb_true_iff H92].
    apply negb_true_iff in H34, H92.
    change (String c s +:+ ?x) with (String c (s +:+ x)).
    cbn [Json.parse_string_body]. rewrite H34, H92.
    rewrite (proj2 (Z.ltb_ge _ _)) by lia.
    rewrite IH; [done|done|]. cbn in Hf. lia.
Qed.

Lemma parse_value_plain_string f s rest :
  json_plain s = true ->
  Json.parse_value (S f) (String "034"%char (s +:+ String "034"%char rest))
  = Some (Json.JString s, rest).
Proof.
  intros Hs. cbn [Json.parse_value Json.skip_ws].
  change (Json.is_ws "034"%char) with false. cbv iota.
  rewrite parse_string_body_copy; [|done|rewrite length_string_app; cbn; lia].
  by rewrite to_valid_ascii by (by apply json_plain_ascii).
Qed.

(** One member whose value is a plain string, followed by a comma and by
    the closing brace. *)
Lemma parse_members_plain_more f k v rest :
  json_plain k = true -> json_plain v = true ->
  Json.parse_members (S (S f))
    (String "034"%char (k +:+ String "034"%char (String ":"%char
       (String "034"%char (v +:+ String "034"%char (String ","%char rest))))))
  = match Json.parse_members (S f) rest with
    | Some (kvs, rest') => Some ((k, Json.JString v) :: kvs, rest')
    | None => None
    end.
Proof.
  intros Hk Hv.
  remember (S f) as f1 eqn:Hf1.
  cbn [Json.parse_members Json.skip_ws].
  change (Json.is_ws "034"%char) with false. cbv iota.
  rewrite parse_string_body_copy; [|done|rewrite length_string_app; cbn; lia].
  cbn [Json.skip_ws]. change (Json.is_ws ":"%char) with false. cbv iota.
  rewrite Hf1, parse_value_plain_string by done.
  cbn [Json.skip_ws]. change (Json.is_ws ","%char) with false. cbv iota.
  by rewrite (to_valid_ascii k) by (by apply json_plain_ascii).
Qed.

Lemma parse_members_plain_last f k v rest :
  json_plain k = true -> json_plain v = true ->
  Json.parse_members (S (S f))
    (String "034"%char (k +:+ String "034"%char (String ":"%char
       (String "034"%char (v +:+ String "034"%char (String "}"%char rest))))))
  = Some ([(k, Json.JString v)], rest).
Proof.
  intros Hk Hv.
  remember (S f) as f1 eqn:Hf1.
  cbn [Json.parse_members Json.skip_ws].
  change (Json.is_ws "034"%char) with false. cbv iota.
  rewrite parse_string_body_copy; [|done|rewrite length_string_app; cbn; lia].
  cbn [Json.skip_ws]. change (Json.is_ws ":"%char) with false. cbv iota.
  rewrite Hf1, parse_value_plain_string by done.
  cbn [Json.skip_ws]. change (Json.is_ws "}"%char) with false. cbv iota.
  by rewrite (to_valid_ascii k) by (by apply json_plain_ascii).
Qed.

(** The next member of the input has the key [key] and the plain string
    [val] as its value: read it with [lem]. *)
Local Ltac read_member key val lem :=
  lazymatch goal with
  | |- context [Json.parse_members ?F (String "034"%char ?r)] =>
      lazymatch r with
      | context [val +:+ ?r1] =>
          change (Json.parse_members F (String "034"%char r))
            with (Json.parse_members F
                    (String "034"%char (key +:+ String "034"%char
                       (String ":"%char (String "034"%char (val +:+ r1))))));
          rewrite (lem _ key val) by done
      end
  end.

Lemma parse_hook_record seq expected event submission_id :
  json_plain seq = true -> json_plain expected = true ->
  json_plain event = true -> json_plain submission_id = true ->
  Json.parse (hook_record seq expected event submission_id)
  = Some (Json.JObject [("seq", Json.JString seq);
                        ("expected", Json.JString expected);
                        ("event", Json.JString event);
                        ("submission_id", Json.JString submission_id)]).
Proof.
  intros Hs He Hv Hi. unfold Json.parse.
  set (text := hook_record seq expected event submission_id).
  assert (Hlen : exists f, (2 * String.length text + 2 = S (S (S (S (S (S f))))))%nat).
  { assert (2 <= String.length text)%nat.
    { unfold text, hook_record, dq.
      repeat first [progress change (String ?c ?s +:+ ?x) with (String c (s +:+ x))
                   |progress change (EmptyString +:+ ?x) with x].
      cbn [String.length]. lia. }
    exists (2 * String.length text - 4)%nat. lia. }
  destruct Hlen as [f ->].
  assert (Hparse : Json.parse_value (S (S (S (S (S (S f)))))) text
            = Some (Json.JObject [("seq", Json.JString seq);
                                  ("expected", Json.JString expected);
                                  ("event", Json.JString event);
                                  ("submission_id", Json.JString submission_id)],
                    nl)).
  { unfold text, hook_record, dq.
    change ("{" +:+ ?x) with (String "{"%char x).
    cbn [Json.parse_value Json.skip_ws]. change (Json.is_ws "{"%char) with false.
    cbv iota.
    repeat first [progress change (String ?c ?s +:+ ?x) with (String c (s +:+ x))
                 |progress change (EmptyString +:+ ?x) with x].
    cbn [Json.skip_ws]. change (Json.is_ws "034"%char) with false. cbv iota.
    read_member "seq" seq parse_members_plain_more.
    read_member "expected" expected parse_members_plain_more.
    read_member "event" event parse_members_plain_more.
    read_member "submission_id" submission_id parse_members_plain_last.
    done. }
  by rewrite Hparse.
Qed.

(** X14. The hook script and the collector agree on the format of a
    record.  The line the script prints for a call, with its four values put
    between quotes as they are, decodes to exactly these four values,
    whenever they are ASCII text and none of them holds a double quote, a
    backslash or a control byte (the script does not escape them); the
    numerals of [strconv.Itoa] and the names of the hooks are such
    values. *)
Theorem hook_record_decodes (seq expected event submission_id : string) :
  json_plain seq = true -> json_plain expected = true ->
  json_plain event = true -> json_plain submission_id = true ->
  Unmarshal_hookCallJSON (hook_record seq expected event submission_id)
  = Some {| jSeq := seq; jExpected := expected; jEvent := event;
            jSubmissionID := submission_id |}.
Proof.
  intros Hs He Hv Hi. unfold Unmarshal_hookCallJSON.
  rewrite parse_hook_record by done.
  unfold store_member, zero_hookCallJSON. cbn [foldl fold_name].
  reflexivity.
Qed.

Lemma hook_record_decodes_witness :
  Unmarshal_hookCallJSON (hook_record "3" "turn_complete" "turn_complete" "sub-1")
  = Some {| jSeq := "3"; jExpected := "turn_complete"; jEvent := "turn_complete";
            jSubmissionID := "sub-1" |}.
Proof.
  apply (hook_record_decodes "3" "turn_complete" "turn_complete" "sub-1");
    reflexivity.
Defined.

(** ** The run that passes *)

Lemma check_calls_passes calls : forall got,
  (exists got', check_calls calls got = inr got') <-> Forall consistent calls.
Proof.
  induction calls as [|c calls IH]; intros got.
  - split; [by constructor|by eexists].
  - cbn [check_calls]. rewrite Forall_cons. unfold consistent at 1.
    rewrite <- seq_check_iff. unfold event_check.
    destruct (seq_check c); cbn [negb].
    + destruct (String.eqb_spec (Expected c) (Event c)) as [He|Hne]; cbn [negb].
      * rewrite IH. tauto.
      * split; [by intros [? ?]|]. by intros [[_ ?] _].
    + split; [by intros [? ?]|]. by intros [[? _] _].
Qed.

Lemma check_calls_got calls : forall got got',
  check_calls calls got = inr got' -> got' = got ++ map Event calls.
Proof.
  induction calls as [|c calls IH]; intros got got'; cbn [check_calls].
  - intros [= <-]. by rewrite app_nil_r.
  - destruct (negb (seq_check c)); [done|].
    destruct (negb (event_check c)); [done|].
    intros ->%IH. by rewrite <- app_assoc.
Qed.

(** Records that are consistent pass exactly for the list of their
    events. *)
Lemma validate_consistent (calls : list hookCall) (want : list string) :
  Forall consistent calls ->
  validate calls want = None <-> map Event calls = want.
Proof.
  intros Hall. unfold validate.
  apply (check_calls_passes calls []) in Hall as [got Hc]. rewrite Hc.
  apply check_calls_got in Hc. cbn [app] in Hc. subst got.
  destruct (equalStrings (map Event calls) want) eqn:He; cbn [negb].
  - apply equalStrings_eq in He.
    assert (length calls = length want) as Hlen by (by rewrite <- He, length_map).
    by rewrite (proj2 (Nat.eqb_eq _ _) Hlen).
  - split; [done|]. intros He'. apply equalStrings_eq in He'. congruence.
Qed.

(** X15. What the validator accepts.  [main] prints OK exactly when the
    events of the records, in the order of their sequence numbers as the
    collector returns them, are the expected names one for one, and every
    record is consistent in itself: its [seq], when it has one, is the
    canonical numeral of its file's number, and its expected name is the
    event it saw. *)
Theorem validator_accepts_iff (calls : list hookCall) (want : list string) :
  validate calls want = None
  <-> map Event calls = want /\ Forall consistent calls.
Proof.
  split.
  - intros Hv.
    assert (Hall : Forall consistent calls).
    { apply (check_calls_passes calls []). unfold validate in Hv.
      destruct (check_calls calls []) as [v|got]; [done|by eexists]. }
    split; [|done]. by apply (validate_consistent calls want Hall).
  - intros [He Hall]. by apply validate_consistent.
Qed.

Lemma json_plain_digits s : all_digits s = true -> json_plain s = true.
Proof.
  induction s as [|c s IH]; [done|]. cbn [all_digits json_plain].
  intros [Hc Hs]%andb_true_iff. rewrite (IH Hs), andb_true_r.
  unfold is_digit in Hc. unfold json_plain_byte, ascii_byte. lia.
Qed.

Lemma json_plain_Itoa n : json_plain (Itoa n) = true.
Proof.
  assert (Hu : forall m, 0 <= m -> json_plain (FormatUint m) = true).
  { intros m Hm. destruct (Z.eq_dec m 0) as [->|Hnz]; [done|].
    destruct (FormatUint_shape m) as (d & r & -> & Hd & Hr); [lia|].
    apply json_plain_digits. cbn [all_digits]. rewrite Hr, andb_true_r.
    by apply nonzero_digit_val in Hd as [? _]. }
  unfold Itoa. destruct (Z.ltb_spec n 0).
  - cbn [json_plain]. by rewrite Hu by lia.
  - by apply Hu.
Qed.

Section passing_run.
Context {sorter : SortSlice}.
Implicit Types (fs : FS) (dir : string) (fired : firing).

(** The record of call number [i], read back. *)
Lemma hook_of_record_entry fs dir i name sub :
  Z.of_nat i <= maxInt ->
  json_plain name = true -> json_plain sub = true ->
  ReadFile fs (Join dir (Name (record_entry i)))
  = Some (hook_record (Itoa (Z.of_nat i)) name name sub) ->
  hook_of fs dir (record_entry i)
  = Some {| Seq := Z.of_nat i; SeqStr := Itoa (Z.of_nat i);
            Expected := name; Event := name; SubmissionID := sub;
            Path := Join dir (Name (record_entry i)) |}
  /\ entry_error fs dir (record_entry i) = None.
Proof.
  intros Hi Hn Hs Hread.
  assert (Hstem : stem (Name (record_entry i)) = Itoa (Z.of_nat i))
    by (by apply (stem_last_dot _ "json")).
  assert (Hint : Atoi (Itoa (Z.of_nat i)) = Some (Z.of_nat i)).
  { apply Atoi_Itoa. unfold minInt. lia. }
  assert (Hdec : Unmarshal_hookCallJSON
                   (hook_record (Itoa (Z.of_nat i)) name name sub)
                 = Some {| jSeq := Itoa (Z.of_nat i); jExpected := name;
                           jEvent := name; jSubmissionID := sub |}).
  { unfold Unmarshal_hookCallJSON.
    by rewrite (parse_hook_record _ _ _ _ (json_plain_Itoa _) Hn Hn Hs). }
  split.
  - unfold hook_of. change (IsDir (record_entry i)) with false. cbv iota.
    rewrite Hstem, Hint. cbn [mbind option_bind]. rewrite Hread.
    cbn [mbind option_bind]. by rewrite Hdec.
  - unfold entry_error, unreadable, malformed. rewrite Hread, Hdec.
    rewrite !bool_decide_eq_false_2 by done. by rewrite !andb_false_r.
Qed.

Lemma expected_calls_read fs dir fired : forall i,
  Z.of_nat (i + length fired) <= maxInt ->
  Forall (fun h => json_plain h.1 = true /\ json_plain h.2 = true) fired ->
  written_by_hooks fs dir i fired ->
  omap (hook_of fs dir) (map record_entry (seq i (length fired)))
  = expected_calls dir i fired
  /\ forall ent, ent ∈ map record_entry (seq i (length fired)) ->
       entry_error fs dir ent = None.
Proof.
  induction fired as [|[name sub] fired IH]; intros i Hi Hplain Hw.
  - split; [done|]. by intros ent ?%elem_of_nil.
  - apply Forall_cons in Hplain as [[Hn Hs] Hplain]. destruct Hw as [Hread Hw].
    cbn [length] in Hi.
    destruct (hook_of_record_entry fs dir i name sub) as [Hh He]; [lia|done..|].
    destruct (IH (S i)) as [IH1 IH2]; [lia|done|done|].
    cbn [length seq map omap list_omap expected_calls]. rewrite Hh, IH1.
    split; [done|]. intros ent [->|Hin]%elem_of_cons; [done|by apply IH2].
Qed.

Lemma expected_calls_Seq dir fired : forall i,
  map Seq (expected_calls dir i fired) = map Z.of_nat (seq i (length fired)).
Proof.
  induction fired as [|[name sub] fired IH]; intros i; [done|].
  cbn [expected_calls map length seq Seq]. by rewrite IH.
Qed.

Lemma expected_calls_sorted dir fired : forall i,
  Sorted seq_le (expected_calls dir i fired).
Proof.
  induction fired as [|[name sub] fired IH]; intros i; [constructor|].
  cbn [expected_calls]. constructor; [apply IH|].
  destruct fired as [|[name' sub'] fired]; constructor.
  unfold seq_le. cbn [Seq]. lia.
Qed.

Lemma expected_calls_consistent dir fired : forall i,
  Forall consistent (expected_calls dir i fired)
  /\ map Event (expected_calls dir i fired) = map fst fired.
Proof.
  induction fired as [|[name sub] fired IH]; intros i; [by split|].
  destruct (IH (S i)) as [IH1 IH2]. cbn [expected_calls map fst Event].
  rewrite IH2. split; [|done]. constructor; [|done].
  split; [by right|done].
Qed.

(** X16. The run that passes.  When the hooks fired in some order, with
    names and submission ids that are ASCII text without double quotes,
    backslashes and control bytes, the hook script numbered its records
    from 0 in that order and found each time the event it expected, then,
    whatever order the directory is listed in and whatever else it holds
    that is no record file (temporary files, sub-directories, files with
    other names), one scan returns the records in the order of firing, and
    [main] prints OK exactly for the list of names that fired: the
    collector, the decoder, the two numeral conversions and the validator
    fit together. *)
Theorem hooks_fired_in_order_pass fs dir (entries junk : list DirEntry) fired :
  ReadDir fs dir = Some entries ->
  entries ≡ₚ map record_entry (seq 0 (length fired)) ++ junk ->
  Forall (fun ent => is_record ent = false) junk ->
  written_by_hooks fs dir 0 fired ->
  Forall (fun h => json_plain h.1 = true /\ json_plain h.2 = true) fired ->
  Z.of_nat (length fired) <= maxInt ->
  readHookCallsOnce fs dir = Ok (expected_calls dir 0 fired)
  /\ forall want,
       validate (expected_calls dir 0 fired) want = None <-> want = map fst fired.
Proof.
  intros Hd Hperm Hjunk Hw Hplain Hlen.
  destruct (expected_calls_read fs dir fired 0) as [Hread Herr]; [done..|].
  assert (Hnone : forall ent, ent ∈ entries -> entry_error fs dir ent = None).
  { intros ent Hin. rewrite Hperm in Hin.
    apply elem_of_app in Hin as [Hin|Hin]; [by apply Herr|].
    rewrite Forall_forall in Hjunk. unfold entry_error, unreadable, malformed.
    by rewrite (Hjunk ent Hin). }
  assert (Hhooks : omap (hook_of fs dir) entries ≡ₚ expected_calls dir 0 fired).
  { rewrite Hperm, omap_app, Hread.
    assert (omap (hook_of fs dir) junk = []) as ->; [|by rewrite app_nil_r].
    clear -Hjunk. induction Hjunk as [|ent junk Hent Hjunk IH]; [done|].
    cbn [omap list_omap]. by rewrite hook_of_not_record. }
  split.
  - rewrite (readHookCallsOnce_spec fs dir entries Hd).
    assert (omap (entry_error fs dir) entries = []) as ->.
    { clear -Hnone. induction entries as [|ent entries IH]; [done|].
      cbn [omap list_omap]. rewrite (Hnone ent) by left.
      apply IH. intros e He. apply Hnone. by right. }
    cbn [head]. f_equal. symmetry. apply sorted_calls_unique.
    + rewrite expected_calls_Seq. apply NoDup_fmap_2; [|apply NoDup_seq].
      intros x y. lia.
    + apply expected_calls_sorted.
    + apply sort_Slice_sorted.
    + by rewrite sort_Slice_perm, Hhooks.
  - intros want. destruct (expected_calls_consistent dir fired 0) as [Hc He].
    rewrite (validate_consistent _ want Hc), He. split; by intros ->.
Qed.

End passing_run.

Lemma hooks_fired_in_order_pass_witness :
  readHookCallsOnce
    (fs_of calls_dir
       [file "0.json"; file "1.json"; file "2.json"; file "3.json";
        file "4.json.tmp.4242"; subdir "7"]
       four_records) calls_dir
  = Ok (expected_calls calls_dir 0
          [("turn_started", "sub-1"); ("exec_command_begin", "sub-1");
           ("exec_command_end", "sub-1"); ("turn_complete", "sub-1")]).
Proof.
  apply (hooks_fired_in_order_pass _ calls_dir
           [file "0.json"; file "1.json"; file "2.json"; file "3.json";
            file "4.json.tmp.4242"; subdir "7"]
           [file "4.json.tmp.4242"; subdir "7"]).
  - reflexivity.
  - reflexivity.
  - repeat constructor.
  - repeat split.
  - repeat constructor.
  - by vm_compute.
Defined.

(** ** Marshalled JSON, parsed back *)

Lemma ascii_of_byte_of c : ascii_of (byte_of c) = c.
Proof. unfold ascii_of, byte_of. by rewrite N2Z.id, ascii_N_embedding. Qed.

(** One escaped byte, read back. *)
Lemma parse_escape_byte c f rest :
  Json.parse_string_body (S f) (Json.escape_byte c +:+ rest)
  = match Json.parse_string_body f rest with
    | Some (t, rest') => Some (String c t, rest')
    | None => None
    end.
Proof.
  destruct c as [[] [] [] [] [] [] [] []]; reflexivity.
Qed.

Lemma escape_byte_length c : (1 <= String.length (Json.escape_byte c))%nat.
Proof.
  apply Nat.leb_le. destruct c as [[] [] [] [] [] [] [] []]; reflexivity.
Qed.

Lemma parse_escape s rest : forall fuel,
  ascii_text s = true ->
  (String.length (Json.escape s) < fuel)%nat ->
  Json.parse_string_body fuel (Json.escape s +:+ String "034"%char rest)
  = Some (s, rest).
Proof.
  induction s as [|c s IH]; intros fuel Hs Hf.
  - destruct fuel as [|fuel]; [cbn in Hf; lia|]. reflexivity.
  - destruct fuel as [|fuel]; [lia|].
    cbn [ascii_text] in Hs. apply andb_true_iff in Hs as [Hc Hs].
    rewrite (escape_cons c s Hc) in *. rewrite length_string_app in Hf.
    pose proof (escape_byte_length c).
    rewrite string_app_assoc, parse_escape_byte, IH by (done || lia). done.
Qed.

(** A quoted string followed by [rest], read as a value. *)
Lemma parse_value_quote f s rest :
  ascii_text s = true ->
  Json.parse_value (S f) (Json.quote s +:+ rest) = Some (Json.JString s, rest).
Proof.
  intros Hs.
  change (Json.quote s +:+ rest)
    with (String "034"%char ((Json.escape s +:+ dq) +:+ rest)).
  rewrite string_app_assoc. change (dq +:+ rest) with (String "034"%char rest).
  cbn [Json.parse_value Json.skip_ws].
  change (Json.is_ws "034"%char) with false. cbv iota.
  rewrite parse_escape; [|done|rewrite length_string_app; cbn; lia].
  by rewrite to_valid_ascii.
Qed.

Lemma digit_cases d :
  is_digit d = true ->
  d = "0"%char \/ d = "1"%char \/ d = "2"%char \/ d = "3"%char \/ d = "4"%char
  \/ d = "5"%char \/ d = "6"%char \/ d = "7"%char \/ d = "8"%char \/ d = "9"%char.
Proof.
  destruct d as [[] [] [] [] [] [] [] []]; intros Hd; try discriminate Hd; tauto.
Qed.

Lemma take_digits_app ds rest :
  all_digits ds = true -> ends_value rest ->
  Json.take_digits (ds +:+ rest) = (ds, rest).
Proof.
  intros Hds Hrest. induction ds as [|d ds IH].
  - change (EmptyString +:+ rest) with rest.
    destruct Hrest as [->|[r [->|[->| ->]]]]; reflexivity.
  - cbn [all_digits] in Hds. apply andb_true_iff in Hds as [Hd Hds].
    change (String d ds +:+ rest) with (String d (ds +:+ rest)).
    cbn [Json.take_digits]. by rewrite Hd, (IH Hds).
Qed.

Lemma parse_number_digits d ds rest n :
  nonzero_digit d = true \/ (d = "0"%char /\ ds = EmptyString) ->
  all_digits ds = true -> ends_value rest ->
  parse_digits (String d ds) 0 = Some n ->
  Json.parse_number (String d ds +:+ rest) = Some (Json.JInt n, rest)
  /\ (n <> 0 ->
      Json.parse_number (String "-"%char (String d ds +:+ rest))
      = Some (Json.JInt (- n), rest)).
Proof.
  intros Hd Hds Hrest Hn.
  assert (Hdig : is_digit d = true).
  { destruct Hd as [Hd|[-> _]]; [|done]. by apply nonzero_digit_val in Hd as [? _]. }
  assert (Htake : Json.take_digits (String d ds +:+ rest) = (String d ds, rest)).
  { apply take_digits_app; [|done]. cbn [all_digits]. by rewrite Hdig, Hds. }
  assert (Hlead : Ascii.eqb d "0"%char && negb (String.eqb ds EmptyString) = false).
  { destruct Hd as [Hd|[-> ->]]; [|done].
    destruct (Ascii.eqb_spec d "0"%char) as [->|]; [done|done]. }
  split.
  - unfold Json.parse_number.
    destruct (digit_cases d Hdig) as [->|[->|[->|[->|[->|[->|[->|[->|[->| ->]]]]]]]]];
      change (String ?c ds +:+ rest) with (String c (ds +:+ rest));
      cbv iota; change (String ?c (ds +:+ rest)) with (String c ds +:+ rest);
      rewrite Htake; cbv beta iota zeta; rewrite Hlead, Hn;
      destruct Hrest as [->|[r [->|[->| ->]]]]; reflexivity.
  - intros Hnz. unfold Json.parse_number. cbv iota. rewrite Htake.
    cbv beta iota zeta. rewrite Hlead, Hn.
    destruct Hrest as [->|[r [->|[->| ->]]]]; cbn [String.eqb andb];
      by rewrite (proj2 (Z.eqb_neq n 0) Hnz).
Qed.

(** Concatenations with a literal on the left, as texts that start with
    the bytes of the literal. *)
Local Ltac push_app :=
  repeat first [progress change (String ?c ?s +:+ ?x) with (String c (s +:+ x))
               |progress change (EmptyString +:+ ?x) with x].

Lemma parse_value_Itoa f n rest :
  ends_value rest ->
  Json.parse_value (S f) (Itoa n +:+ rest) = Some (Json.JInt n, rest).
Proof.
  intros Hrest. unfold Itoa. destruct (Z.ltb_spec n 0) as [Hneg|Hpos].
  - destruct (FormatUint_shape (- n)) as (d & r & Hs & Hd & Hr); [lia|].
    pose proof (parse_FormatUint (- n) ltac:(lia)) as Hp. rewrite Hs in *.
    change (String "-"%char (String d r) +:+ rest)
      with (String "-"%char (String d r +:+ rest)).
    cbn [Json.parse_value Json.skip_ws]. change (Json.is_ws "-"%char) with false.
    cbv iota.
    destruct (parse_number_digits d r rest (- n)) as [_ Hm]; [by left|done..|].
    rewrite Hm by lia. by rewrite Z.opp_involutive.
  - assert (Hshape : exists d r, FormatUint n = String d r
              /\ (nonzero_digit d = true \/ d = "0"%char /\ r = EmptyString)
              /\ all_digits r = true).
    { destruct (Z.eq_dec n 0) as [->|Hnz]; [exists "0"%char, EmptyString; auto|].
      destruct (FormatUint_shape n) as (d & r & Hs & Hd & Hr); [lia|]. eauto 6. }
    destruct Hshape as (d & r & Hs & Hd & Hr).
    pose proof (parse_FormatUint n Hpos) as Hp. rewrite Hs in *.
    destruct (parse_number_digits d r rest n Hd Hr Hrest Hp) as [Hm _].
    assert (Hdig : is_digit d = true).
    { destruct Hd as [Hd|[-> _]]; [|done]. by apply nonzero_digit_val in Hd as [? _]. }
    rewrite <- Hm.
    destruct (digit_cases d Hdig) as [->|[->|[->|[->|[->|[->|[->|[->|[->| ->]]]]]]]]];
      reflexivity.
Qed.

Lemma expect_app lit v rest : Json.expect lit v (lit +:+ rest) = Some (v, rest).
Proof.
  unfold Json.expect. rewrite prefix_app. do 2 f_equal. apply drop_prefix_app.
Qed.

Lemma parse_value_literal f rest :
  Json.parse_value (S f) ("null" +:+ rest) = Some (Json.JNull, rest)
  /\ Json.parse_value (S f) ("true" +:+ rest) = Some (Json.JBool true, rest)
  /\ Json.parse_value (S f) ("false" +:+ rest) = Some (Json.JBool false, rest).
Proof.
  split; [|split].
  - rewrite <- (expect_app "null" Json.JNull rest). reflexivity.
  - rewrite <- (expect_app "true" (Json.JBool true) rest). reflexivity.
  - rewrite <- (expect_app "false" (Json.JBool false) rest). reflexivity.
Qed.

Lemma join_cons_app sep a l t :
  Json.join sep (a :: l) +:+ t
  = a +:+ match l with
          | [] => t
          | _ => sep +:+ Json.join sep l +:+ t
          end.
Proof. destruct l; cbn [Json.join]; [done|]. by rewrite !string_app_assoc. Qed.

Lemma join_cons_length sep a l :
  (String.length a <= String.length (Json.join sep (a :: l)))%nat
  /\ (l <> [] ->
      String.length a + String.length sep + String.length (Json.join sep l)
      = String.length (Json.join sep (a :: l)))%nat.
Proof.
  destruct l as [|b l]; cbn [Json.join]; [split; [lia|done]|].
  rewrite !length_string_app. split; [lia|]. intros _. lia.
Qed.

(** The first byte of a marshalled value. *)
Lemma marshal_head v :
  float_free v = true ->
  exists c s, Json.marshal v = String c s /\ value_start c.
Proof.
  unfold value_start.
  destruct v as [|[]|n|lit|s|elems|kvs]; intros Hv; try done.
  - exists "n"%char, "ull". cbn. tauto.
  - exists "t"%char, "rue". cbn. tauto.
  - exists "f"%char, "alse". cbn. tauto.
  - cbn [Json.marshal]. unfold Itoa. destruct (Z.ltb_spec n 0).
    + eexists _, _. split; [done|]. cbn. tauto.
    + destruct (Z.eq_dec n 0) as [->|Hnz].
      { exists "0"%char, EmptyString. cbn. tauto. }
      destruct (FormatUint_shape n) as (d & r & -> & Hd & _); [lia|].
      exists d, r. split; [done|].
      apply nonzero_digit_val in Hd as [Hd _].
      destruct (digit_cases d Hd) as [->|[->|[->|[->|[->|[->|[->|[->|[->| ->]]]]]]]]];
        cbn; tauto.
  - eexists _, _. split; [reflexivity|]. cbn. tauto.
  - eexists _, _. split; [reflexivity|]. cbn. tauto.
  - eexists _, _. split; [reflexivity|]. cbn. tauto.
Qed.

Lemma marshal_length v : float_free v = true -> (1 <= String.length (Json.marshal v))%nat.
Proof.
  intros Hv. destruct (marshal_head v Hv) as (c & s & -> & _). cbn. lia.
Qed.

Lemma insert_key_map {A B} (g : A -> B) k x (l : list (string * A)) :
  Json.insert_key k (g x) (map (fun kv => (kv.1, g kv.2)) l)
  = map (fun kv => (kv.1, g kv.2)) (Json.insert_key k x l).
Proof.
  induction l as [|[k' x'] l IH]; [done|]. cbn [map Json.insert_key fst snd].
  destruct (String.leb k k'); [done|]. cbn [map fst snd]. by rewrite IH.
Qed.

Lemma sort_keys_map {A B} (g : A -> B) (l : list (string * A)) :
  Json.sort_keys (map (fun kv => (kv.1, g kv.2)) l)
  = map (fun kv => (kv.1, g kv.2)) (Json.sort_keys l).
Proof.
  induction l as [|[k x] l IH]; [done|]. cbn [map Json.sort_keys fst snd].
  by rewrite IH, insert_key_map.
Qed.

(** An object is written member by member, in the order of the keys. *)
Lemma marshal_object_members kvs :
  Json.marshal (Json.JObject kvs)
  = "{" +:+ Json.join "," (map member_text (Json.sort_keys kvs)) +:+ "}".
Proof.
  rewrite marshal_object, (sort_keys_map Json.marshal), map_map.
  reflexivity.
Qed.

Lemma canon_object kvs :
  Json.canon (Json.JObject kvs)
  = Json.JObject (map canon_member (Json.sort_keys kvs)).
Proof.
  cbn [Json.canon]. f_equal.
  rewrite <- (sort_keys_map Json.canon). f_equal.
  induction kvs as [|[k x] kvs IH]; [done|]. cbn [map fst snd]. by rewrite IH.
Qed.

Lemma ends_value_comma s : ends_value (String ","%char s).
Proof. right. exists s. by left. Qed.
Lemma ends_value_bracket s : ends_value (String "]"%char s).
Proof. right. exists s. right. by left. Qed.
Lemma ends_value_brace s : ends_value (String "}"%char s).
Proof. right. exists s. right. by right. Qed.

(** The elements of an array, after its opening bracket. *)
Lemma parse_elems_marshal (l : list Json.value) :
  Forall (fun v => reads_back v) l ->
  forallb float_free l = true -> forallb ascii_strings l = true -> l <> [] ->
  forall fuel rest,
    (2 * String.length (Json.join "," (map Json.marshal l)) + 1 <= fuel)%nat ->
    ends_value rest ->
    Json.parse_elems fuel (Json.join "," (map Json.marshal l) +:+ "]" +:+ rest)
    = Some (map Json.canon l, rest).
Proof.
  unfold reads_back.
  induction 1 as [|x l Hx Hl IH]; [done|]. intros Hff Has _ fuel rest Hf Hrest.
  cbn [forallb] in Hff, Has. apply andb_true_iff in Hff as [Hfx Hfl].
  apply andb_true_iff in Has as [Hax Hal].
  destruct fuel as [|f]; [lia|].
  cbn [map] in *. rewrite join_cons_app.
  destruct (join_cons_length "," (Json.marshal x) (map Json.marshal l))
    as [Hlen1 Hlen2].
  cbn [Json.parse_elems].
  destruct l as [|y l].
  - cbn [map]. push_app.
    rewrite (Hx Hfx Hax) by (lia || apply ends_value_bracket).
    cbn [Json.skip_ws]. change (Json.is_ws "]"%char) with false. done.
  - specialize (Hlen2 ltac:(done)). cbn [String.length] in Hlen2.
    cbn [map] in *. push_app.
    rewrite (Hx Hfx Hax) by (lia || apply ends_value_comma).
    cbn [Json.skip_ws]. change (Json.is_ws ","%char) with false. cbv iota.
    change (String "]"%char rest) with ("]" +:+ rest).
    rewrite IH; [done|done|done|done|lia|done].
Qed.

Lemma member_text_app k x tail :
  member_text (k, x) +:+ tail
  = String "034"%char
      (Json.escape k +:+ String "034"%char
         (String ":"%char (Json.marshal x +:+ tail))).
Proof.
  unfold member_text, Json.quote, dq. cbn [fst snd].
  rewrite !string_app_assoc. by push_app.
Qed.

Lemma member_text_length k x :
  (String.length (Json.marshal x) + 3 <= String.length (member_text (k, x)))%nat.
Proof.
  unfold member_text, Json.quote, dq. cbn [fst snd].
  rewrite !length_string_app. cbn [String.length]. lia.
Qed.

(** The members of an object, after its opening brace. *)
Lemma parse_members_marshal (l : list (string * Json.value)) :
  Forall (fun kv => reads_back kv.2) l ->
  forallb (fun kv => float_free kv.2) l = true ->
  forallb (fun kv => ascii_text kv.1 && ascii_strings kv.2) l = true ->
  l <> [] ->
  forall fuel rest,
    (2 * String.length (Json.join "," (map member_text l)) + 1 <= fuel)%nat ->
    ends_value rest ->
    Json.parse_members fuel (Json.join "," (map member_text l) +:+ "}" +:+ rest)
    = Some (map canon_member l, rest).
Proof.
  unfold reads_back.
  induction 1 as [|[k x] l Hx Hl IH]; [done|].
  intros Hff Has _ fuel rest Hf Hrest.
  cbn [forallb fst snd] in Hff, Has, Hx. apply andb_true_iff in Hff as [Hfx Hfl].
  apply andb_true_iff in Has as [[Hk Hax]%andb_true_iff Hal].
  destruct fuel as [|f]; [lia|].
  cbn [map] in *. rewrite join_cons_app.
  destruct (join_cons_length "," (member_text (k, x)) (map member_text l))
    as [Hlen1 Hlen2].
  pose proof (member_text_length k x) as Hm.
  rewrite member_text_app.
  cbn [Json.parse_members Json.skip_ws].
  change (Json.is_ws "034"%char) with false. cbv iota.
  rewrite parse_escape
    by (done || (rewrite length_string_app; cbn [String.length]; lia)).
  rewrite (to_valid_ascii k Hk).
  cbn [Json.skip_ws]. change (Json.is_ws ":"%char) with false. cbv iota.
  destruct l as [|kv l].
  - cbn [map]. push_app.
    rewrite (Hx Hfx Hax) by (lia || apply ends_value_brace).
    cbn [Json.skip_ws]. change (Json.is_ws "}"%char) with false. done.
  - specialize (Hlen2 ltac:(done)). cbn [String.length] in Hlen2.
    cbn [map] in *. push_app.
    rewrite (Hx Hfx Hax) by (lia || apply ends_value_comma).
    cbn [Json.skip_ws]. change (Json.is_ws ","%char) with false. cbv iota.
    change (String "}"%char rest) with ("}" +:+ rest).
    rewrite IH; [done|done|done|done|lia|done].
Qed.

(** A value without number literals kept as text and with ASCII strings,
    marshalled and followed by [rest], is read back as its canonical form,
    and [rest] is left. *)
Lemma parse_value_marshal v : reads_back v.
Proof.
  induction v as [|b|n|lit|s|elems IH|kvs IH] using value_nested_ind;
    unfold reads_back; intros Hv Ha fuel rest Hf Hrest;
    pose proof (marshal_length _ Hv) as Hlen;
    (destruct fuel as [|f]; [lia|]).
  - apply parse_value_literal.
  - destruct b; apply parse_value_literal.
  - by apply parse_value_Itoa.
  - done.
  - by apply parse_value_quote.
  - rewrite marshal_array in *. cbn [float_free ascii_strings] in Hv, Ha.
    rewrite !length_string_app in Hf. cbn [String.length] in Hf.
    rewrite !string_app_assoc. push_app.
    destruct elems as [|x l].
    + cbn [map Json.join]. push_app.
      cbn [Json.parse_value Json.skip_ws].
      change (Json.is_ws "["%char) with false. cbv iota.
      cbn [Json.skip_ws]. change (Json.is_ws "]"%char) with false. done.
    + pose proof (parse_elems_marshal (x :: l) IH Hv Ha ltac:(done) f rest
                    ltac:(lia) Hrest) as Hgoal.
      change (String "]"%char rest) with ("]" +:+ rest).
      set (r := Json.join "," (map Json.marshal (x :: l)) +:+ "]" +:+ rest) in *.
      assert (Hr : exists c s, r = String c s /\ value_start c).
      { unfold r. cbn [map]. rewrite join_cons_app.
        cbn [forallb] in Hv. apply andb_true_iff in Hv as [Hfx _].
        destruct (marshal_head x Hfx) as (c & s & -> & Hc).
        eexists c, _. split; [|done]. by push_app. }
      destruct Hr as (c & s & Hr & Hc). clearbody r. subst r.
      cbn [Json.parse_value Json.skip_ws].
      change (Json.is_ws "["%char) with false. cbv iota.
      unfold value_start in Hc. cbn [In] in Hc.
      repeat (destruct Hc as [<-|Hc];
              [cbn [Json.skip_ws]; change (Json.is_ws _) with false; cbv iota;
               by rewrite Hgoal|]).
      done.
  - rewrite marshal_object_members, canon_object in *.
    cbn [float_free ascii_strings] in Hv, Ha.
    rewrite !length_string_app in Hf. cbn [String.length] in Hf.
    rewrite !string_app_assoc. push_app.
    assert (Hsorted : Forall (fun kv => reads_back kv.2) (Json.sort_keys kvs))
      by (by apply sort_keys_Forall).
    assert (Has : forallb (fun kv => ascii_text kv.1 && ascii_strings kv.2)
                    (Json.sort_keys kvs) = true).
    { apply forallb_forall. intros kv Hkv.
      assert (Hall : Forall (fun kv => ascii_text kv.1 && ascii_strings kv.2 = true)
                       (Json.sort_keys kvs)).
      { apply sort_keys_Forall, Forall_forall. intros kv' Hkv'.
        rewrite forallb_forall in Ha. by apply Ha, list_elem_of_In. }
      rewrite Forall_forall in Hall. by apply Hall, list_elem_of_In. }
    assert (Hffs : forallb (fun kv => float_free kv.2) (Json.sort_keys kvs) = true).
    { apply forallb_forall. intros kv Hkv.
      assert (Hall : Forall (fun kv => float_free kv.2 = true) (Json.sort_keys kvs)).
      { apply sort_keys_Forall, Forall_forall. intros kv' Hkv'.
        rewrite forallb_forall in Hv. by apply Hv, list_elem_of_In. }
      rewrite Forall_forall in Hall. by apply Hall, list_elem_of_In. }
    destruct (Json.sort_keys kvs) as [|[k x] l].
    + cbn [map Json.join]. push_app.
      cbn [Json.parse_value Json.skip_ws].
      change (Json.is_ws "{"%char) with false. cbv iota.
      cbn [Json.skip_ws]. change (Json.is_ws "}"%char) with false. done.
    + pose proof (parse_members_marshal ((k, x) :: l) Hsorted Hffs Has
                    ltac:(done) f rest ltac:(lia) Hrest) as Hgoal.
      change (String "}"%char rest) with ("}" +:+ rest).
      set (r := Json.join "," (map member_text ((k, x) :: l)) +:+ "}" +:+ rest) in *.
      assert (Hr : exists s, r = String "034"%char s).
      { unfold r. cbn [map]. rewrite join_cons_app, member_text_app. by eexists. }
      destruct Hr as (s & Hr). clearbody r. subst r.
      cbn [Json.parse_value Json.skip_ws].
      change (Json.is_ws "{"%char) with false. cbv iota.
      cbn [Json.skip_ws]. change (Json.is_ws "034"%char) with false. cbv iota.
      by rewrite Hgoal.
Qed.

Lemma insert_key_sorted {A} k (x : A) l :
  keys_sorted l -> keys_sorted (Json.insert_key k x l).
Proof.
  unfold keys_sorted. induction 1 as [|[k' x'] l Hl IH Hhd]; cbn [Json.insert_key].
  - repeat constructor.
  - destruct (String.leb k k') eqn:Hle.
    + constructor; [by constructor|]. by constructor.
    + constructor; [done|].
      assert (Hk : String.leb k' k = true)
        by (destruct (String.leb_total k k'); congruence).
      destruct l as [|[k'' x''] l]; cbn [Json.insert_key]; [by constructor|].
      destruct (String.leb k k''); constructor; [done|].
      by inversion Hhd.
Qed.

Lemma sort_keys_sorted {A} (l : list (string * A)) : keys_sorted (Json.sort_keys l).
Proof.
  induction l as [|[k x] l IH]; cbn [Json.sort_keys]; [constructor|].
  by apply insert_key_sorted.
Qed.

Lemma sort_keys_sorted_id {A} (l : list (string * A)) :
  keys_sorted l -> Json.sort_keys l = l.
Proof.
  unfold keys_sorted. induction 1 as [|[k x] l Hl IH Hhd]; [done|].
  cbn [Json.sort_keys]. rewrite IH.
  destruct Hhd as [|[k' x'] l Hle]; cbn [Json.insert_key]; [done|].
  cbn [fst] in Hle. by rewrite Hle.
Qed.

Lemma sort_keys_idem {A} (l : list (string * A)) :
  Json.sort_keys (Json.sort_keys l) = Json.sort_keys l.
Proof. apply sort_keys_sorted_id, sort_keys_sorted. Qed.

Lemma insert_key_perm {A} k (x : A) l : Json.insert_key k x l ≡ₚ (k, x) :: l.
Proof.
  induction l as [|[k' x'] l IH]; cbn [Json.insert_key]; [done|].
  destruct (String.leb k k'); [done|]. rewrite IH. apply perm_swap.
Qed.

Lemma sort_keys_perm {A} (l : list (string * A)) : Json.sort_keys l ≡ₚ l.
Proof.
  induction l as [|[k x] l IH]; cbn [Json.sort_keys]; [done|].
  by rewrite insert_key_perm, IH.
Qed.

(** The canonical form is canonical. *)
Lemma canon_idem v : Json.canon (Json.canon v) = Json.canon v.
Proof.
  induction v as [|b|n|lit|s|elems IH|kvs IH] using value_nested_ind; try done.
  - cbn [Json.canon]. f_equal. rewrite map_map. apply map_ext_Forall.
    eapply Forall_impl; [exact IH|]. done.
  - rewrite !canon_object. f_equal. unfold canon_member at 2.
    rewrite (sort_keys_map Json.canon), sort_keys_idem, map_map.
    apply map_ext_Forall.
    apply (Forall_impl _ _ _ (sort_keys_Forall _ _ IH)).
    intros [k x] Hx. unfold canon_member. cbn [fst snd] in *. by rewrite Hx.
Qed.

Lemma foldr_max_perm (l l' : list Z) :
  l ≡ₚ l' -> foldr Z.max 0 l = foldr Z.max 0 l'.
Proof. induction 1; cbn [foldr]; lia. Qed.

(** Putting the keys in order does not change the nesting. *)
Lemma depth_canon v : Json.depth (Json.canon v) = Json.depth v.
Proof.
  induction v as [|b|n|lit|s|elems IH|kvs IH] using value_nested_ind; try done.
  - cbn [Json.canon Json.depth]. f_equal. f_equal.
    rewrite map_map. by apply map_ext_Forall.
  - rewrite canon_object. cbn [Json.depth]. f_equal.
    rewrite map_map.
    rewrite (foldr_max_perm _ (map (fun kv => Json.depth (Json.canon kv.2)) kvs)).
    + f_equal. by apply map_ext_Forall.
    + apply fmap_Permutation, sort_keys_perm.
Qed.

(** A whole text: a value without number literals kept as text, with
    ASCII strings and nested no deeper than the scanner allows, is read
    back as its canonical form. *)
Lemma parse_marshal v :
  float_free v = true -> ascii_strings v = true ->
  Json.depth v <= Json.maxNestingDepth ->
  Json.parse (Json.marshal v) = Some (Json.canon v).
Proof.
  intros Hv Ha Hd. unfold Json.parse.
  rewrite <- (string_app_nil_r (Json.marshal v)) at 2.
  rewrite (parse_value_marshal v Hv Ha) by (lia || by left).
  cbn [Json.skip_ws]. rewrite depth_canon.
  by rewrite (proj2 (Z.leb_le _ _) Hd).
Qed.

(** An integer of magnitude at most 2^53 is a float64. *)
Lemma round_float64_exact n :
  - 9007199254740992 <= n <= 9007199254740992 ->
  Json.round_float64 n = n /\ (2 ^ 1024 <=? Z.abs n) = false.
Proof.
  intros Hn. split.
  - destruct (Z.eq_dec (Z.abs n) 9007199254740992) as [Habs|Habs].
    { assert (n = 9007199254740992 \/ n = - 9007199254740992) as [->| ->] by lia;
        by vm_compute. }
    unfold Json.round_float64.
    assert (Z.log2 (Z.abs n) < 53) as Hlog.
    { destruct (Z.eq_dec (Z.abs n) 0) as [->|Hnz]; [done|].
      apply Z.log2_lt_pow2; lia. }
    by rewrite (proj2 (Z.leb_le _ _)) by lia.
  - apply Z.leb_gt. apply Z.le_lt_trans with 9007199254740992; [lia|done].
Qed.

Lemma set_absent k v (m : gomap) : k ∉ m.*1 -> Json.set k v m = m ++ [(k, v)].
Proof.
  induction m as [|[k' v'] m IH]; intros Hk; [done|].
  cbn [fmap list_fmap fst] in Hk. apply not_elem_of_cons in Hk as [Hne Hk].
  cbn [Json.set]. rewrite (proj2 (String.eqb_neq k k') Hne).
  cbn [app]. by rewrite IH.
Qed.

(** Storing the members of an object with distinct keys into a map that
    has none of them appends the members. *)
Lemma foldl_set_distinct (f : Json.value -> Json.value) (kvs : gomap) : forall m,
  NoDup (m ++ kvs).*1 ->
  foldl (fun m kv => Json.set kv.1 (f kv.2) m) m kvs
  = m ++ map (fun kv => (kv.1, f kv.2)) kvs.
Proof.
  induction kvs as [|[k v] kvs IH]; intros m Hnd; [by rewrite app_nil_r|].
  cbn [foldl map fst snd]. rewrite set_absent.
  - rewrite IH; [by rewrite <- app_assoc|].
    rewrite !fmap_app in *. cbn [fmap list_fmap fst] in *.
    by rewrite <- app_assoc.
  - rewrite fmap_app in Hnd. apply NoDup_app in Hnd as (_ & Hdisj & _).
    intros Hin. apply (Hdisj k Hin). cbn. left.
Qed.

(** *** What a portable value is made of *)

Lemma portable_parts v :
  portable v = true ->
  float_free v = true /\ ascii_strings v = true /\ exact_ints v = true
  /\ distinct_keys v = true /\ Json.depth v <= Json.maxNestingDepth.
Proof.
  unfold portable. rewrite !andb_true_iff, Z.leb_le. tauto.
Qed.

Lemma distinct_keys_object (m : gomap) :
  distinct_keys (Json.JObject m) = true ->
  NoDup m.*1 /\ Forall (fun kv => distinct_keys kv.2 = true) m.
Proof.
  cbn [distinct_keys]. rewrite andb_true_iff, bool_decide_eq_true.
  intros [Hnd Hall]. split; [done|].
  apply Forall_forall. intros kv Hkv. rewrite forallb_forall in Hall.
  apply Hall. by apply list_elem_of_In.
Qed.

(** A value read back from the text of a value with distinct keys and
    integers that a float64 holds exactly is, held as an [any], itself: no
    key is repeated and no integer is rounded. *)
Lemma as_any_canon v :
  distinct_keys v = true -> exact_ints v = true ->
  Json.as_any (Json.canon v) = Json.canon v.
Proof.
  induction v as [|b|n|lit|s|elems IH|kvs IH] using value_nested_ind; try done.
  - cbn [exact_ints Json.canon Json.as_any]. intros _ Hn.
    destruct (round_float64_exact n) as [-> ->]; [lia|done].
  - cbn [distinct_keys exact_ints Json.canon Json.as_any]. intros Hd He. f_equal.
    rewrite map_map. apply map_ext_Forall.
    rewrite forallb_forall in Hd, He. rewrite Forall_forall in IH.
    apply Forall_forall. intros x Hx.
    apply (IH x Hx); [apply Hd|apply He]; by apply list_elem_of_In.
  - intros [Hnd Hall]%distinct_keys_object He.
    cbn [exact_ints] in He. rewrite forallb_forall in He.
    rewrite canon_object. cbn [Json.as_any]. f_equal.
    rewrite (foldl_set_distinct Json.as_any _ []).
    + cbn [app]. rewrite map_map. apply map_ext_Forall.
      apply sort_keys_Forall.
      rewrite Forall_forall in IH, Hall. apply Forall_forall. intros [k x] Hx.
      unfold canon_member. cbn [fst snd]. f_equal.
      apply (IH (k, x) Hx); [apply (Hall (k, x) Hx)|].
      apply (He (k, x)). by apply list_elem_of_In.
    + cbn [app].
      assert (Hkeys : (map canon_member (Json.sort_keys kvs)).*1 ≡ₚ kvs.*1).
      { rewrite <- (sort_keys_perm kvs) at 2. rewrite <- list_fmap_compose. done. }
      by rewrite Hkeys.
Qed.

(** A marshalled Go map, decoded into a map again: the same keys in their
    order, with the canonical forms of the values. *)
Lemma Unmarshal_map_marshal (m : gomap) :
  portable (Json.JObject m) = true ->
  Json.Unmarshal_map (Json.marshal (Json.JObject m))
  = map canon_member (Json.sort_keys m)
  /\ Json.canon (Json.JObject (map canon_member (Json.sort_keys m)))
     = Json.canon (Json.JObject m).
Proof.
  intros (Hff & Ha & He & Hd & Hdepth)%portable_parts. split.
  - pose proof (as_any_canon _ Hd He) as Hany.
    unfold Json.Unmarshal_map. rewrite (parse_marshal _ Hff Ha Hdepth).
    rewrite canon_object in *. cbn [Json.as_any] in Hany.
    by injection Hany.
  - rewrite <- canon_object. apply canon_idem.
Qed.

(** *** ASCII text stays ASCII *)

Lemma ascii_escape_byte c :
  ascii_byte c = true -> ascii_text (Json.escape_byte c) = true.
Proof. destruct c as [[] [] [] [] [] [] [] []]; by vm_compute. Qed.

Lemma ascii_escape s : ascii_text s = true -> ascii_text (Json.escape s) = true.
Proof.
  induction s as [|c s IH]; [done|]. cbn [ascii_text].
  intros [Hc Hs]%andb_true_iff.
  by rewrite (escape_cons c s Hc), ascii_text_app, ascii_escape_byte, IH.
Qed.

Lemma ascii_quote s : ascii_text s = true -> ascii_text (Json.quote s) = true.
Proof.
  intros Hs. unfold Json.quote. by rewrite !ascii_text_app, ascii_escape.
Qed.

Lemma ascii_Itoa n : ascii_text (Itoa n) = true.
Proof. apply json_plain_ascii, json_plain_Itoa. Qed.

Lemma ascii_join sep l :
  ascii_text sep = true -> Forall (fun s => ascii_text s = true) l ->
  ascii_text (Json.join sep l) = true.
Proof.
  intros Hsep. induction 1 as [|s l Hs Hl IH]; [done|].
  cbn [Json.join]. destruct l as [|s' l]; [done|].
  by rewrite !ascii_text_app, Hs, Hsep, IH.
Qed.

(** The JSON text of a value whose strings and keys are ASCII is ASCII. *)
Lemma ascii_marshal v :
  ascii_strings v = true -> ascii_text (Json.marshal v) = true.
Proof.
  induction v as [|[]|n|lit|s|elems IH|kvs IH] using value_nested_ind;
    intros Hv; try done.
  - apply ascii_Itoa.
  - by apply ascii_quote.
  - rewrite marshal_array, !ascii_text_app.
    change (ascii_text "[") with true. change (ascii_text "]") with true.
    rewrite andb_true_r. cbn [andb]. apply ascii_join; [done|].
    cbn [ascii_strings] in Hv. rewrite forallb_forall in Hv.
    apply Forall_fmap, Forall_forall. intros x Hx. cbn.
    rewrite Forall_forall in IH. apply (IH x Hx), Hv. by apply list_elem_of_In.
  - rewrite marshal_object, !ascii_text_app.
    change (ascii_text "{") with true. change (ascii_text "}") with true.
    rewrite andb_true_r. cbn [andb]. apply ascii_join; [done|].
    cbn [ascii_strings] in Hv. rewrite forallb_forall in Hv.
    apply Forall_fmap.
    apply (Forall_impl (fun ks : string * string =>
                          ascii_text ks.1 = true /\ ascii_text ks.2 = true)).
    + apply sort_keys_Forall, Forall_fmap, Forall_forall. intros [k x] Hx. cbn.
      pose proof (Hv (k, x) (proj1 (list_elem_of_In _ _) Hx)) as Hkx.
      cbn [fst snd] in Hkx. apply andb_true_iff in Hkx as [Hk Hxv].
      split; [done|]. rewrite Forall_forall in IH. by apply (IH (k, x) Hx).
    + intros [k s] [Hk Hs]. cbn in *.
      by rewrite !ascii_text_app, ascii_quote, Hs.
Qed.

Lemma ascii_ReplaceAll s old new :
  ascii_text s = true -> ascii_text new = true ->
  ascii_text (ReplaceAll s old new) = true.
Proof.
  intros Hs Hnew. induction s as [|c s IH]; [done|].
  cbn [ascii_text] in Hs. apply andb_true_iff in Hs as [Hc Hs].
  cbn [ReplaceAll]. rewrite ascii_text_app, (IH Hs), andb_true_r.
  destruct (Ascii.eqb c old); [done|]. cbn [ascii_text]. by rewrite Hc.
Qed.

(** Quoting for the shell keeps ASCII text ASCII. *)
Lemma ascii_shellQuote s : ascii_text s = true -> ascii_text (shellQuote s) = true.
Proof.
  intros Hs. rewrite shellQuote_ReplaceAll, !ascii_text_app.
  by rewrite ascii_ReplaceAll.
Qed.

Lemma float_free_lf_free v : float_free v = true -> lf_free_literals v = true.
Proof.
  induction v as [|b|n|lit|s|elems IH|kvs IH] using value_nested_ind; try done.
  - cbn [float_free lf_free_literals]. rewrite !forallb_forall.
    intros Hv x Hx. rewrite Forall_forall in IH.
    apply (IH x); [by apply list_elem_of_In|by apply Hv].
  - cbn [float_free lf_free_literals]. rewrite !forallb_forall.
    intros Hv kv Hkv. rewrite Forall_forall in IH.
    apply (IH kv); [by apply list_elem_of_In|by apply Hv].
Qed.

(** One event, written by [sse] and read by the client. *)
Lemma client_reads_event (ev : gomap) :
  readable_event ev ->
  same_event (default EmptyString (frame_of ev).1,
              match (frame_of ev).2 with
              | Some text => Json.Unmarshal_map text
              | None => []
              end) ev.
Proof.
  intros (Hp & Hk & Hlen). unfold frame_of, same_event. cbn [fst snd default].
  rewrite (proj2 (Nat.eqb_neq _ _) Hlen).
  destruct (Unmarshal_map_marshal ev Hp) as [-> Hc]. done.
Qed.

(** Every event of an exchange, written by [sse] and read by the client. *)
Lemma client_read_sse (evs : list gomap) :
  Forall readable_event evs ->
  Forall2 same_event (client_read (sse evs)) evs.
Proof.
  intros Hevs. unfold client_read. rewrite sse_parse_frames.
  - induction Hevs as [|ev evs Hev Hevs IH]; [constructor|].
    cbn [map]. constructor; [|exact IH].
    pose proof (client_reads_event ev Hev) as Hread.
    by destruct (frame_of ev) as [kind data].
  - eapply Forall_impl; [exact Hevs|]. intros ev (Hp & Hk & _).
    apply portable_parts in Hp as (Hff & _).
    split; [done|]. by apply float_free_lf_free.
Qed.

(** A value is portable when each of its five conditions holds. *)
Lemma portable_intro v :
  float_free v = true -> ascii_strings v = true -> exact_ints v = true ->
  distinct_keys v = true -> (Json.depth v <=? Json.maxNestingDepth) = true ->
  portable v = true.
Proof. unfold portable. by intros -> -> -> -> ->. Qed.

(** The events of the four constructors can be read back when their
    strings are ASCII. *)
Lemma constructors_readable id callID name arguments text :
  ascii_text id = true -> ascii_text callID = true -> ascii_text name = true ->
  ascii_text arguments = true -> ascii_text text = true ->
  Forall readable_event
    [evResponseCreated id; evFunctionCallDone callID name arguments;
     evAssistantMessageDone id text; evCompleted id].
Proof.
  intros Hid Hcall Hname Hargs Htext.
  repeat apply Forall_cons_2; [..|constructor];
    (split; [|split; [reflexivity|by intros [=]]]);
    (apply portable_intro;
       [reflexivity
       |cbn; by rewrite ?Hid, ?Hcall, ?Hname, ?Hargs, ?Htext
       |reflexivity
       |by vm_compute
       |by vm_compute]).
Qed.

(** X17. A client reads back what was scripted.  For every exchange of
    events that are portable Go maps (strings and keys of ASCII text,
    integers of magnitude at most 2^53, booleans, nulls, arrays and maps
    nested at most 10000 deep), with a kind free of line feeds and some
    field besides it, a client that splits the stream into frames and
    decodes the data of each frame as JSON gets, event for event and in
    order, the kind and the very fields and values that were scripted,
    whatever ASCII bytes their strings hold (quotes, backslashes, line
    feeds, control bytes).  In particular it reads back the events that
    [evResponseCreated], [evFunctionCallDone], [evAssistantMessageDone] and
    [evCompleted] build from any ASCII strings. *)
Theorem client_reads_back_events (evs : list gomap) :
  Forall readable_event evs ->
  Forall2 same_event (client_read (sse evs)) evs
  /\ forall id callID name arguments text,
       ascii_text id = true -> ascii_text callID = true ->
       ascii_text name = true -> ascii_text arguments = true ->
       ascii_text text = true ->
       Forall2 same_event
         (client_read (sse [evResponseCreated id;
                            evFunctionCallDone callID name arguments;
                            evAssistantMessageDone id text;
                            evCompleted id]))
         [evResponseCreated id;
          evFunctionCallDone callID name arguments;
          evAssistantMessageDone id text;
          evCompleted id].
Proof.
  intros Hevs. split; [by apply client_read_sse|].
  intros id callID name arguments text Hid Hcall Hname Hargs Htext.
  by apply client_read_sse, constructors_readable.
Qed.

Lemma client_reads_back_events_witness :
  Forall2 same_event
    (client_read
       (sse [evFunctionCallDone "call-1" "shell" ("line 1" +:+ nl +:+ "line 2")]))
    [evFunctionCallDone "call-1" "shell" ("line 1" +:+ nl +:+ "line 2")].
Proof.
  apply (client_reads_back_events
           [evFunctionCallDone "call-1" "shell" ("line 1" +:+ nl +:+ "line 2")]).
  repeat constructor; apply (bool_decide_unpack _); by vm_compute.
Defined.

(** X18. The log holds what was sent.  A create-response request whose
    body is the JSON text of a non-empty portable Go map (distinct keys at
    every level; ASCII strings and keys, integers of magnitude at most 2^53,
    booleans, nulls, arrays and maps as values, nested at most 10000 deep)
    appends to the log one map with the same keys and the same values, and
    nothing else. *)
Theorem recorded_payload_equals_sent (r : Request) (s : stubServer) (m : gomap) :
  is_create_response r = true ->
  Body r = Json.marshal (Json.JObject m) ->
  m <> [] -> portable (Json.JObject m) = true ->
  exists logged,
    responseReqs (ServeHTTP r s).2 = responseReqs s ++ [logged]
    /\ Json.canon (Json.JObject logged) = Json.canon (Json.JObject m)
    /\ logged.*1 ≡ₚ m.*1.
Proof.
  intros Hr Hbody Hne Hp.
  destruct (Unmarshal_map_marshal m Hp) as [Hdec Hcanon].
  exists (map canon_member (Json.sort_keys m)). split; [|split; [done|]].
  - rewrite (ServeHTTP_create r s Hr). unfold log_after. rewrite Hbody, Hdec.
    assert (length (map canon_member (Json.sort_keys m)) <> 0%nat) as Hlen.
    { rewrite length_map, (sort_keys_perm m). by destruct m. }
    rewrite (proj2 (Nat.eqb_neq _ _) Hlen). by destruct (sseQueue s).
  - rewrite <- (sort_keys_perm m) at 2. by rewrite <- list_fmap_compose.
Qed.

Lemma recorded_payload_equals_sent_witness :
  exists logged,
    responseReqs (ServeHTTP (post_responses model_payload)
                    {| sseQueue := ["first"]; responseReqs := [] |}).2
    = [] ++ [logged]
    /\ Json.canon (Json.JObject logged)
       = Json.canon (Json.JObject [("model", Json.JString "gpt-5.1-codex")])
    /\ logged.*1 ≡ₚ ["model"].
Proof.
  apply (recorded_payload_equals_sent (post_responses model_payload)
           {| sseQueue := ["first"]; responseReqs := [] |}
           [("model", Json.JString "gpt-5.1-codex")]).
  - reflexivity.
  - reflexivity.
  - discriminate.
  - by vm_compute.
Defined.

(** X19. The scripted shell command, end to end.  For every path of the
    target file that is ASCII text, the first exchange [main] queues is read
    back by a client event for event; the arguments of its function call,
    themselves a JSON text carried in a JSON string, decode to the command
    and the timeout that [main] marshalled; and in the command, what follows
    the redirection is read by a shell as one word, the path itself: neither
    the quoting for the shell, nor the two layers of JSON, nor the framing
    lose or change a byte of it. *)
Theorem scripted_command_round_trip (targetFile : string) :
  ascii_text targetFile = true ->
  let args := toolArgs (shellQuote targetFile) in
  Forall2 same_event
    (client_read (sse (main_exchange_1 (shellQuote targetFile))))
    (main_exchange_1 (shellQuote targetFile))
  /\ Json.Unmarshal_map args
     = [("command", Json.JString (shell_command targetFile));
        ("timeout_ms", Json.JInt 1000)]
  /\ sh_word Unquoted (drop_prefix "echo hook-ok > " (shell_command targetFile))
     = Some targetFile.
Proof.
  intros Hascii args.
  assert (Hcmd : ascii_text ("echo hook-ok > " +:+ shellQuote targetFile) = true).
  { by rewrite ascii_text_app, ascii_shellQuote. }
  set (m := [("command",
              Json.JString ("echo hook-ok > " +:+ shellQuote targetFile));
             ("timeout_ms", Json.JInt 1000)]).
  assert (Hm : ascii_strings (Json.JObject m) = true).
  { unfold m. cbn [ascii_strings forallb fst snd]. rewrite Hcmd. reflexivity. }
  split; [|split].
  - apply client_read_sse. unfold main_exchange_1.
    assert (Hargs : ascii_text (toolArgs (shellQuote targetFile)) = true).
    { unfold toolArgs. by apply ascii_marshal. }
    pose proof (constructors_readable "resp-1" "call-1" "shell_command"
                  (toolArgs (shellQuote targetFile)) ""
                  eq_refl eq_refl eq_refl Hargs eq_refl) as Hall.
    apply Forall_cons in Hall as [H1 Hall].
    apply Forall_cons in Hall as [H2 Hall].
    apply Forall_cons in Hall as [_ Hall].
    by repeat apply Forall_cons_2.
  - unfold args, toolArgs. fold m.
    assert (Hp : portable (Json.JObject m) = true).
    { apply portable_intro; [reflexivity|done|reflexivity|by vm_compute..]. }
    destruct (Unmarshal_map_marshal m Hp) as [-> _]. reflexivity.
  - unfold shell_command. rewrite drop_prefix_app. apply sh_word_shellQuote.
Qed.

Lemma scripted_command_round_trip_witness :
  Json.Unmarshal_map (toolArgs (shellQuote "/tmp/it's here/shell_ran.txt"))
  = [("command", Json.JString (shell_command "/tmp/it's here/shell_ran.txt"));
     ("timeout_ms", Json.JInt 1000)]
  /\ sh_word Unquoted
       (drop_prefix "echo hook-ok > " (shell_command "/tmp/it's here/shell_ran.txt"))
     = Some "/tmp/it's here/shell_ran.txt".
Proof.
  destruct (scripted_command_round_trip "/tmp/it's here/shell_ran.txt" eq_refl)
    as (_ & Hargs & Hword).
  split; [exact Hargs|exact Hword].
Defined.

(** ** A scan that fails ends the collection *)

Section scan_failure.
Context {sorter : SortSlice}.
Variables (world : nat -> Tick) (dir : string) (wantAtLeast deadline : Z).

(** A loop that is still running after [k] turns goes on from turn
    [k + i]. *)
Lemma loop_run_on k : forall i lastCount stableSince,
  listHookCalls_loop k world dir wantAtLeast deadline i lastCount stableSince = None ->
  exists lastCount' stableSince',
    forall fuel,
      listHookCalls_loop (k + fuel) world dir wantAtLeast deadline i
        lastCount stableSince
      = listHookCalls_loop fuel world dir wantAtLeast deadline (k + i)
          lastCount' stableSince'.
Proof.
  induction k as [|k IH]; intros i lc ss Hnone; [by exists lc, ss|].
  cbn [listHookCalls_loop] in Hnone.
  destruct (turn (world i) dir wantAtLeast deadline lc ss) as [r|[n s]] eqn:Ht;
    [done|].
  destruct (IH (S i) n s Hnone) as (lc' & ss' & Hrun).
  exists lc', ss'. replace (S k + i)%nat with (k + S i)%nat by lia.
  intros fuel. rewrite <- Hrun.
  change (S k + fuel)%nat with (S (k + fuel)). cbn [listHookCalls_loop].
  by rewrite Ht.
Qed.

Lemma loop_index fuel : forall i lastCount stableSince k r,
  listHookCalls_loop fuel world dir wantAtLeast deadline i lastCount stableSince
  = Some (k, r) -> (i <= k < i + fuel)%nat.
Proof.
  induction fuel as [|fuel IH]; intros i lc ss k r; [done|].
  cbn [listHookCalls_loop]. destruct (turn _ _ _ _ _ _) as [r'|[n s]].
  - intros [= <- <-]. lia.
  - intros H%IH. lia.
Qed.

Lemma loop_more_fuel fuel : forall i lastCount stableSince x,
  listHookCalls_loop fuel world dir wantAtLeast deadline i lastCount stableSince
  = Some x ->
  listHookCalls_loop (S fuel) world dir wantAtLeast deadline i lastCount stableSince
  = Some x.
Proof.
  induction fuel as [|fuel IH]; intros i lc ss x; [done|].
  intros H. cbn [listHookCalls_loop] in H.
  change (listHookCalls_loop (S (S fuel)) world dir wantAtLeast deadline i lc ss)
    with (match turn (world i) dir wantAtLeast deadline lc ss with
          | inl r => Some (i, r)
          | inr (lc', ss') =>
              listHookCalls_loop (S fuel) world dir wantAtLeast deadline (S i) lc' ss'
          end).
  destruct (turn _ _ _ _ _ _) as [r'|[n s]]; [done|]. by apply IH.
Qed.

(** The errors of a scan, as against the timeout of the loop. *)
Lemma turn_scan_error t lastCount stableSince e :
  (forall w d n, e <> ErrTimedOut w d n) ->
  turn t dir wantAtLeast deadline lastCount stableSince = inl (Err e)
  <-> readHookCallsOnce (tick_fs t) dir = Err e.
Proof.
  intros He. unfold turn.
  destruct (readHookCallsOnce (tick_fs t) dir) as [calls|e'].
  - split; [|done].
    destruct (wantAtLeast <=? _); [destruct (_ =? lastCount);
      [destruct (stableSince =? 0); [|destruct (quietFor <=? _); [done|]]|]|];
      destruct (deadline <? _); try done; intros [= <-];
      by destruct (He wantAtLeast dir (Z.of_nat (length calls))).
  - split; [by intros [= ->]|by intros [= ->]].
Qed.

End scan_failure.

(** X20. A scan that fails ends the collection at once.
    [listHookCalls] returns an error of a scan (the directory cannot be
    listed, a record file cannot be read or decoded) in turn [k] exactly when
    it is still running on entering turn [k] and the scan of that turn fails
    with that error.  It is never retried and never replaced by the timeout
    error, however far the deadline is and whatever the earlier scans found;
    a file system that recovers in the next turn does not help. *)
Theorem scan_failure_ends_collection {sorter : SortSlice} (world : nat -> Tick)
    (start : Z) (dir : string) (wantAtLeast timeout : Z) (k : nat) (e : error) :
  (forall w d n, e <> ErrTimedOut w d n) ->
  let collect fuel := listHookCalls fuel world start dir wantAtLeast timeout in
  (collect (S k) = Some (k, Err e)
   <-> collect k = None /\ readHookCallsOnce (tick_fs (world k)) dir = Err e)
  /\ (collect (S k) = Some (k, Err e) ->
      forall fuel, (k < fuel)%nat -> collect fuel = Some (k, Err e)).
Proof.
  intros He collect. unfold collect, listHookCalls.
  set (loop fuel := listHookCalls_loop fuel world dir wantAtLeast (start + timeout)
                      0%nat 0 0).
  assert (Hmore : forall fuel x, loop (S k) = Some x ->
            (k < fuel)%nat -> loop fuel = Some x).
  { intros fuel x Hx Hlt. induction fuel as [|fuel IH]; [lia|].
    destruct (decide (fuel = k)) as [->|Hne]; [done|].
    apply loop_more_fuel, IH. lia. }
  assert (Hiff : loop (S k) = Some (k, Err e)
                 <-> loop k = None
                     /\ readHookCallsOnce (tick_fs (world k)) dir = Err e).
  { split.
    - intros Hres.
      destruct (loop k) as [[k' r']|] eqn:Hk.
      + pose proof (loop_index world dir wantAtLeast (start + timeout) _ _ _ _ _ _ Hk).
        apply (loop_more_fuel world dir wantAtLeast (start + timeout)) in Hk.
        fold (loop (S k)) in Hk. rewrite Hres in Hk. injection Hk as <- _. lia.
      + split; [done|].
        destruct (loop_run_on world dir wantAtLeast (start + timeout) k 0%nat 0 0 Hk)
          as (lc & ss & Hrun).
        specialize (Hrun 1%nat). replace (k + 1)%nat with (S k) in Hrun by lia.
        fold (loop (S k)) in Hrun. rewrite Hres in Hrun.
        cbn [listHookCalls_loop] in Hrun. rewrite Nat.add_0_r in Hrun.
        destruct (turn (world k) dir wantAtLeast (start + timeout) lc ss)
          as [r|[n s]] eqn:Ht; [|done].
        injection Hrun as <-.
        by apply (turn_scan_error dir wantAtLeast (start + timeout) (world k)
                    lc ss e He).
    - intros [Hk Hscan].
      destruct (loop_run_on world dir wantAtLeast (start + timeout) k 0%nat 0 0 Hk)
        as (lc & ss & Hrun).
      specialize (Hrun 1%nat). replace (k + 1)%nat with (S k) in Hrun by lia.
      fold (loop (S k)) in Hrun. rewrite Hrun. cbn [listHookCalls_loop].
      rewrite Nat.add_0_r.
      apply (turn_scan_error dir wantAtLeast (start + timeout) (world k)
               lc ss e He) in Hscan.
      by rewrite Hscan. }
  split; [done|]. intros Hres fuel Hlt. by apply Hmore.
Qed.

Lemma scan_failure_ends_collection_witness :
  listHookCalls 1 (fun _ => {| tick_fs := fs_with_garbage; tick_stable := 1;
                               tick_deadline := 1 |}) 1 calls_dir 4 (5000 * ms)
  = Some (0%nat, Err (ErrParseHookRecord (Join calls_dir "1.json"))).
Proof.
  destruct (scan_failure_ends_collection
              (fun _ => {| tick_fs := fs_with_garbage; tick_stable := 1;
                           tick_deadline := 1 |}) 1 calls_dir 4 (5000 * ms) 0
              (ErrParseHookRecord (Join calls_dir "1.json")))
    as [[_ Hback] _]; [done|].
  apply Hback. split; [reflexivity|by vm_compute].
Defined.

(** ** A quiet directory *)

Section quiet_directory.
Context {sorter : SortSlice}.
Variables (dir : string) (wantAtLeast deadline : Z).

(** A turn before the deadline whose scan finds [calls], at least the
    minimum. *)
Lemma turn_at_count t lastCount stableSince calls :
  readHookCallsOnce (tick_fs t) dir = Ok calls ->
  wantAtLeast <= Z.of_nat (length calls) ->
  tick_deadline t <= deadline ->
  turn t dir wantAtLeast deadline lastCount stableSince
  = if Z.of_nat (length calls) =? lastCount then
      if stableSince =? 0 then inr (Z.of_nat (length calls), tick_stable t)
      else if quietFor <=? tick_stable t - stableSince then inl (Ok calls)
           else inr (Z.of_nat (length calls), stableSince)
    else inr (Z.of_nat (length calls), 0).
Proof.
  intros Hscan Hmin Hdl. unfold turn. rewrite Hscan.
  rewrite (proj2 (Z.leb_le _ _) Hmin), (proj2 (Z.ltb_ge _ _) Hdl). done.
Qed.

(** A turn that finds the count unchanged and the timer old enough
    returns, whatever the deadline is. *)
Lemma turn_returns t stableSince calls :
  readHookCallsOnce (tick_fs t) dir = Ok calls ->
  wantAtLeast <= Z.of_nat (length calls) ->
  stableSince <> 0 ->
  quietFor <= tick_stable t - stableSince ->
  turn t dir wantAtLeast deadline (Z.of_nat (length calls)) stableSince
  = inl (Ok calls).
Proof.
  intros Hscan Hmin Hss Hq. unfold turn. rewrite Hscan.
  rewrite (proj2 (Z.leb_le _ _) Hmin), Z.eqb_refl.
  by rewrite (proj2 (Z.eqb_neq _ _) Hss), (proj2 (Z.leb_le _ _) Hq).
Qed.

End quiet_directory.

(** X21. A quiet directory is answered after ten scans.  When every scan
    finds the same number of records, at least the minimum and at least one,
    and the clock advances by the 25ms sleep from one turn to the next,
    [listHookCalls] returns the set of its tenth scan, 225ms after the
    first: the first scan sets the count, the second starts the timer, and
    the tenth is the first to find it 200ms old.  It does so for every
    timeout of 200ms or more, so with the 5s of [main] a quiet directory
    never times out. *)
Theorem quiet_directory_returns_after_ten_scans {sorter : SortSlice}
    (world : nat -> Tick) (start : Z) (dir : string) (wantAtLeast timeout n : Z) :
  0 <= start -> quietFor <= timeout -> 1 <= n -> wantAtLeast <= n ->
  (forall i, tick_stable (world i) = start + Z.of_nat i * pollInterval
             /\ tick_deadline (world i) = start + Z.of_nat i * pollInterval) ->
  (forall i, exists calls,
     readHookCallsOnce (tick_fs (world i)) dir = Ok calls
     /\ Z.of_nat (length calls) = n) ->
  exists calls,
    readHookCallsOnce (tick_fs (world 9%nat)) dir = Ok calls
    /\ (forall fuel, (10 <= fuel)%nat ->
          listHookCalls fuel world start dir wantAtLeast timeout
          = Some (9%nat, Ok calls))
    /\ forall fuel, (fuel <= 9)%nat ->
         listHookCalls fuel world start dir wantAtLeast timeout = None.
Proof.
  intros Hstart Htimeout Hn Hmin Hclock Hscan.
  destruct (Hscan 9%nat) as (calls & Hscan9 & Hlen9).
  exists calls. split; [done|].
  assert (Hturn : forall i lastCount stableSince,
    (i <= 8)%nat ->
    turn (world i) dir wantAtLeast (start + timeout) lastCount stableSince
    = if n =? lastCount then
        if stableSince =? 0 then inr (n, start + Z.of_nat i * pollInterval)
        else if quietFor <=? start + Z.of_nat i * pollInterval - stableSince
             then inl (Ok (match readHookCallsOnce (tick_fs (world i)) dir with
                           | Ok c => c
                           | Err _ => []
                           end))
             else inr (n, stableSince)
      else inr (n, 0)).
  { intros i lc ss Hi. destruct (Hscan i) as (c & Hc & Hlen).
    destruct (Hclock i) as [Hs Hd].
    rewrite (turn_at_count dir wantAtLeast (start + timeout) (world i) lc ss c Hc);
      [|lia|unfold pollInterval, quietFor in *; lia].
    by rewrite Hlen, Hs, Hc. }
  assert (Hfirst : turn (world 0%nat) dir wantAtLeast (start + timeout) 0 0
                   = inr (n, 0)).
  { rewrite Hturn by lia. by rewrite (proj2 (Z.eqb_neq n 0)) by lia. }
  assert (Hsecond : turn (world 1%nat) dir wantAtLeast (start + timeout) n 0
                    = inr (n, start + pollInterval)).
  { rewrite Hturn by lia. rewrite Z.eqb_refl. cbn [Z.eqb].
    by replace (start + Z.of_nat 1 * pollInterval) with (start + pollInterval)
      by (unfold pollInterval; lia). }
  assert (Hwait : forall i, (2 <= i <= 8)%nat ->
    turn (world i) dir wantAtLeast (start + timeout) n (start + pollInterval)
    = inr (n, start + pollInterval)).
  { intros i Hi. rewrite Hturn by lia. rewrite Z.eqb_refl.
    rewrite (proj2 (Z.eqb_neq _ 0)) by (unfold pollInterval; lia).
    rewrite (proj2 (Z.leb_gt _ _)) by (unfold pollInterval, quietFor; lia). done. }
  assert (Hlast : turn (world 9%nat) dir wantAtLeast (start + timeout) n
                    (start + pollInterval) = inl (Ok calls)).
  { rewrite <- Hlen9. apply turn_returns; [done|lia|unfold pollInterval; lia|].
    destruct (Hclock 9%nat) as [-> _]. unfold pollInterval, quietFor. lia. }
  unfold listHookCalls. split.
  - intros fuel Hfuel. do 10 (destruct fuel as [|fuel]; [lia|]).
    cbn [listHookCalls_loop].
    by rewrite Hfirst, Hsecond, !Hwait, Hlast by lia.
  - intros fuel Hfuel.
    do 10 (destruct fuel as [|fuel];
           [cbn [listHookCalls_loop];
            by rewrite ?Hfirst, ?Hsecond, ?Hwait by lia|]).
    lia.
Qed.

Lemma quiet_directory_returns_after_ten_scans_witness :
  exists calls,
    readHookCallsOnce fs_four calls_dir = Ok calls
    /\ listHookCalls 10 (fun i => {| tick_fs := fs_four;
                                     tick_stable := 1 + Z.of_nat i * pollInterval;
                                     tick_deadline := 1 + Z.of_nat i * pollInterval |})
         1 calls_dir 4 (5000 * ms)
       = Some (9%nat, Ok calls).
Proof.
  set (world := fun i => {| tick_fs := fs_four;
                            tick_stable := 1 + Z.of_nat i * pollInterval;
                            tick_deadline := 1 + Z.of_nat i * pollInterval |}).
  assert (Hclock : forall i,
            tick_stable (world i) = 1 + Z.of_nat i * pollInterval
            /\ tick_deadline (world i) = 1 + Z.of_nat i * pollInterval)
    by (intros i; by split).
  assert (Hscan : forall i, exists calls,
            readHookCallsOnce (tick_fs (world i)) calls_dir = Ok calls
            /\ Z.of_nat (length calls) = 4).
  { intros i. exists (expected_calls calls_dir 0
                        [("turn_started", "sub-1"); ("exec_command_begin", "sub-1");
                         ("exec_command_end", "sub-1"); ("turn_complete", "sub-1")]).
    split; vm_compute; reflexivity. }
  destruct (quiet_directory_returns_after_ten_scans world 1 calls_dir 4 (5000 * ms) 4
              ltac:(lia) ltac:(by vm_compute) ltac:(lia) ltac:(lia) Hclock Hscan)
    as (calls & Hscan9 & Hrun & _).
  exists calls. split; [exact Hscan9|]. apply Hrun. lia.
Defined.
